(** * MDTF-diagnostics: the job orchestrator and the data-file resolver

    A shallow embedding of

    - [src/util.py]: [makefilepath];
    - [src/shared_diagnostic.py]: [Diagnostic._parse_pod_varlist],
      [Diagnostic._check_for_varlist_files], [Diagnostic.run_command],
      [Diagnostic.validate_command];
    - [src/environment_manager.py]: [EnvironmentManager.setUp], [run],
      [tearDown], and the two managers [NoneEnvironmentManager] and
      [CondaEnvironmentManager].

    Python values are kept dynamically typed ([pyval]); a [dict] is a finite
    map from strings to values; dictionaries live in a store and are passed
    by reference, as in Python.  Effectful code is written in a state and
    exception monad. *)

From Stdlib Require Import Ascii String List Bool Arith Lia.
From stdpp Require Import base option list gmap strings.
Import ListNotations.

Local Open Scope string_scope.
Local Open Scope list_scope.
Set Warnings "-register-all".

(** ** Python values, exceptions, outcomes *)

Inductive pyval : Type :=
| VStr (s : string)
| VBool (b : bool)
| VList (l : list pyval).

(** Truth value testing: [if x:], [not x]. *)
Definition truthy (v : pyval) : bool :=
  match v with
  | VStr s => negb (String.eqb s "")
  | VBool b => b
  | VList l => negb (Nat.eqb (length l) 0)
  end.

Inductive exn : Type :=
| KeyError (key : string)
| AssertionError (msg : string)
| TypeError
| AttributeError
| OSError
| IOError
| UnboundLocalError (var : string)
| SystemExit.

(** The result of running a piece of code from a state: it returns a value,
    it raises (the state at the point of the raise is kept), or it is
    [Stuck]: the recursion budget is exhausted or a reference dangles, which
    no Python run does. *)
Inductive outcome (St A : Type) : Type :=
| Ret (a : A) (s : St)
| Raise (e : exn) (s : St)
| Stuck.
Arguments Ret {St A} a s.
Arguments Raise {St A} e s.
Arguments Stuck {St A}.

Definition M (St A : Type) : Type := St -> outcome St A.

Definition ret {St A} (a : A) : M St A := fun s => Ret a s.

Definition bind {St A B} (m : M St A) (k : A -> M St B) : M St B :=
  fun s =>
    match m s with
    | Ret a s' => k a s'
    | Raise e s' => Raise e s'
    | Stuck => Stuck
    end.

Definition raise {St A} (e : exn) : M St A := fun s => Raise e s.
Definition stuck {St A} : M St A := fun _ => Stuck.
Definition get {St} : M St St := fun s => Ret s s.
Definition put {St} (s : St) : M St unit := fun _ => Ret tt s.

Declare Scope py_scope.
Delimit Scope py_scope with py.
Notation "x <- c1 ;; c2" := (bind c1 (fun x => c2))
  (at level 100, c1 at next level, right associativity) : py_scope.
Notation "c1 ;;; c2" := (bind c1 (fun _ => c2))
  (at level 100, right associativity) : py_scope.
Local Open Scope py_scope.

(** [for x in xs: acc = body(acc, x)] *)
Fixpoint for_each {St A B} (xs : list A) (acc : B) (body : B -> A -> M St B)
  : M St B :=
  match xs with
  | [] => ret acc
  | x :: xs' => acc' <- body acc x ;; for_each xs' acc' body
  end.

(** Raise the exception of a failed pure computation. *)
Definition lift {St A} (r : exn + A) : M St A :=
  match r with inl e => raise e | inr a => ret a end.

(** [d[k]] on the contents of a dictionary. *)
Definition dget {St} (d : gmap string pyval) (k : string) : M St pyval :=
  match d !! k with Some v => ret v | None => raise (KeyError k) end.

(** [len(v)] *)
Definition py_len {St} (v : pyval) : M St nat :=
  match v with
  | VStr s => ret (String.length s)
  | VList l => ret (length l)
  | VBool _ => raise TypeError
  end.

(** The items [for x in v] goes through: the elements of a list, the
    characters of a string. *)
Definition py_iter {St} (v : pyval) : M St (list pyval) :=
  match v with
  | VList l => ret l
  | VStr s => ret (map (fun c => VStr (String c EmptyString)) (list_ascii_of_string s))
  | VBool _ => raise TypeError
  end.

(** [v in strs], for a list of string literals. *)
Definition py_in (v : pyval) (strs : list string) : bool :=
  match v with
  | VStr s => bool_decide (s ∈ strs)
  | _ => false
  end.

Definition lower_ascii (c : ascii) : ascii :=
  let n := nat_of_ascii c in
  if ((65 <=? n) && (n <=? 90))%nat then ascii_of_nat (n + 32) else c.

Fixpoint lower (s : string) : string :=
  match s with
  | EmptyString => EmptyString
  | String c s' => String (lower_ascii c) (lower s')
  end.

(** [v.lower()] *)
Definition py_lower {St} (v : pyval) : M St string :=
  match v with
  | VStr s => ret (lower s)
  | _ => raise AttributeError
  end.

(** [sep.join(parts)] *)
Fixpoint join (sep : string) (parts : list string) : string :=
  match parts with
  | [] => ""
  | [x] => x
  | x :: rest => x +:+ sep +:+ join sep rest
  end.

(** [s.startswith('/')] and [s.endswith('/')] *)
Definition starts_with_slash (s : string) : bool :=
  match s with String c _ => Ascii.eqb c "/" | EmptyString => false end.

Fixpoint ends_with_slash (s : string) : bool :=
  match s with
  | EmptyString => false
  | String c EmptyString => Ascii.eqb c "/"
  | String _ s' => ends_with_slash s'
  end.

(** [os.path.join(a, *p)] of [posixpath]. *)
Definition os_path_join (a : string) (p : list string) : string :=
  fold_left (fun path b =>
               if starts_with_slash b then b
               else if String.eqb path "" || ends_with_slash path then path +:+ b
               else path +:+ "/" +:+ b) p a.

(** ** [util.py] *)

Module util.

(** [a + b] on Python values, for the only case the code uses: [str + str];
    anything else is a [TypeError]. *)
Definition py_add (a b : pyval) : exn + pyval :=
  match a, b with
  | VStr x, VStr y => inr (VStr (x +:+ y))
  | VList x, VList y => inr (VList (x ++ y))
  | _, _ => inl TypeError
  end.

(** [datadir+"/"+timefreq+"/"+casename+"."+varname+"."+timefreq+".nc"].
    The sum associates to the left; the first operand that is not a string
    raises [TypeError]. *)
Definition makefilepath (varname timefreq casename datadir : pyval)
  : exn + string :=
  match datadir, timefreq, casename, varname with
  | VStr d, VStr f, VStr c, VStr v =>
      inr (d +:+ "/" +:+ f +:+ "/" +:+ c +:+ "." +:+ v +:+ "." +:+ f +:+ ".nc")
  | _, _, _, _ => inl TypeError
  end.

End util.

(** ** [shared_diagnostic.py] *)

Module shared_diagnostic.

(** A dictionary is a finite map from string keys to values; dictionaries
    are objects: they live in the store [heap] and are named by their
    address, so that two names of one dictionary see each other's
    updates. *)
Abbreviation dict := (gmap string pyval).
Definition loc := nat.

Inductive event : Type :=
| EvIsFile (path : string)            (* [os.path.isfile(path)] *)
| EvPrint (items : list pyval).       (* [print a, b, ...] *)

Record pystate : Type := mkState {
  heap : list dict;                   (* the dictionaries, by address *)
  environ : gmap string string;       (* [os.environ] *)
  isfile : string -> bool;            (* the files on disk *)
  stdout : list event                 (* what was read and printed, oldest first *)
}.

Abbreviation Py := (M pystate).

Definition deref (l : loc) : Py dict :=
  fun s => match heap s !! l with Some d => Ret d s | None => Stuck end.

Definition store (l : loc) (d : dict) : Py unit :=
  fun s =>
    if decide (l < length (heap s)) then
      Ret tt (mkState (<[l := d]> (heap s)) (environ s) (isfile s) (stdout s))
    else Stuck.

(** [d[k]] *)
Definition getitem (l : loc) (k : string) : Py pyval :=
  d <- deref l ;; dget d k.

(** [k in d] *)
Definition contains (l : loc) (k : string) : Py bool :=
  d <- deref l ;; ret (bool_decide (is_Some (d !! k))).

(** [d[k] = v] *)
Definition setitem (l : loc) (k : string) (v : pyval) : Py unit :=
  d <- deref l ;; store l (<[k := v]> d).

(** [del d[k]] *)
Definition delitem (l : loc) (k : string) : Py unit :=
  d <- deref l ;;
  match d !! k with
  | Some _ => store l (delete k d)
  | None => raise (KeyError k)
  end.

(** [d.copy()]: a new dictionary with the same entries. *)
Definition dict_copy (l : loc) : Py loc :=
  d <- deref l ;;
  fun s => Ret (length (heap s))
               (mkState (heap s ++ [d]) (environ s) (isfile s) (stdout s)).

(** [os.environ[k]] *)
Definition os_environ (k : string) : Py pyval :=
  fun s => match environ s !! k with
           | Some v => Ret (VStr v) s
           | None => Raise (KeyError k) s
           end.

(** [os.path.isfile(path)]: a read of the file system, recorded. *)
Definition os_path_isfile (path : string) : Py bool :=
  fun s => Ret (isfile s path)
               (mkState (heap s) (environ s) (isfile s) (stdout s ++ [EvIsFile path])).

Definition print (items : list pyval) : Py unit :=
  fun s => Ret tt (mkState (heap s) (environ s) (isfile s) (stdout s ++ [EvPrint items])).

Definition frequency_options : list string := ["1hr"; "3hr"; "6hr"; "day"; "mon"].

Section parse.
(** The module's [__file__]. *)
Variable __file__ : string.

(** The body of [for idx, var in enumerate(varlist):]; [var] and
    [varlist[idx]] are one dictionary. *)
Definition parse_entry (var : loc) : Py unit :=
  let default_file_required := false in
  freq <- getitem var "freq" ;;
  (if py_in freq frequency_options then ret tt
   else
     m <- lift (util.py_add (VStr "WARNING: didn't find ") freq) ;;
     m <- lift (util.py_add m (VStr " in frequency options ")) ;;
     m <- lift (util.py_add m (VStr " (set in ")) ;;
     m <- lift (util.py_add m (VStr __file__)) ;;
     m <- lift (util.py_add m (VStr ": parse_pod_varlist)")) ;;
     match m with
     | VStr msg => raise (AssertionError msg)
     | _ => raise TypeError
     end) ;;;
  has_req <- contains var "requirement" ;;
  (if has_req then
     r <- getitem var "requirement" ;;
     lr <- py_lower r ;;
     setitem var "required" (VBool (String.eqb lr "required"))
   else
     setitem var "required" (VBool default_file_required)) ;;;
  has_alt <- contains var "alternates" ;;
  if negb has_alt then setitem var "alternates" (VList [])
  else
    a <- getitem var "alternates" ;;
    match a with
    | VList _ => ret tt
    | _ => setitem var "alternates" (VList [a])
    end.

(** [_parse_pod_varlist(varlist)], at the default [verbose=0]. *)
Definition _parse_pod_varlist (varlist : list loc) : Py (list loc) :=
  for_each varlist tt (fun _ var => parse_entry var) ;;;
  ret varlist.
End parse.

(** The pair [files['found_files'], files['missing_files']]. *)
Record files : Type := mkFiles {
  found_files : list string;
  missing_files : list string
}.

Definition nonempty (x : string) : bool := negb (String.eqb x "").

(** The body of [for item in varlist:] in [_check_for_varlist_files];
    [self_check] is the function itself, for the call on [[new_var]]. *)
Definition check_item (self_check : list loc -> Py files)
    (lists : list string * list string) (item : loc)
  : Py (list string * list string) :=
  let '(found_list, missing_list) := lists in
  name <- getitem item "name_in_model" ;;
  freq <- getitem item "freq" ;;
  casename <- os_environ "CASENAME" ;;
  datadir <- os_environ "DATADIR" ;;
  filepath <- lift (util.makefilepath name freq casename datadir) ;;
  found <- os_path_isfile filepath ;;
  if found then
    print [VStr "found "; VStr filepath] ;;;
    ret (found_list ++ [filepath], missing_list)
  else
    required <- getitem item "required" ;;
    if negb (truthy required) then
      print [VStr "WARNING: optional file not found "; VStr filepath] ;;;
      ret (found_list, missing_list)
    else
      has_alt <- contains item "alternates" ;;
      some_alt <- (if has_alt then
                     a <- getitem item "alternates" ;;
                     n <- py_len a ;; ret (0 <? n)%nat
                   else ret false) ;;
      if negb some_alt then
        print [VStr "ERROR: missing required file "; VStr filepath;
               VStr ". No alternatives found"] ;;;
        ret (found_list, missing_list ++ [filepath])
      else
        alt_list <- getitem item "alternates" ;;
        print [VStr "WARNING: required file not found "; VStr filepath;
               VStr (String (ascii_of_nat 10) " " +:+ String (ascii_of_nat 9)
                     " Looking for alternatives: "); alt_list] ;;;
        alts <- py_iter alt_list ;;
        for_each alts (found_list, missing_list) (fun lists alt_item =>
          let '(found_list, missing_list) := lists in
          new_var <- dict_copy item ;;
          setitem new_var "name_in_model" alt_item ;;;
          delitem new_var "alternates" ;;;
          new_files <- self_check [new_var] ;;
          ret (found_list ++ found_files new_files,
               missing_list ++ missing_files new_files)).

(** [_check_for_varlist_files(varlist)], at the default [verbose=0].
    [fuel] bounds the depth of the calls of the function on itself.
    The first statement of the method, [translate =
    util.VariableTranslator()], is not part of the model: the method
    never uses [translate], and the singleton is taken as built before
    the call, when getting it reads nothing and raises nothing. *)
Fixpoint _check_for_varlist_files (fuel : nat) (varlist : list loc) : Py files :=
  match fuel with
  | O => stuck
  | S fuel' =>
    lists <- for_each varlist ([], []) (check_item (_check_for_varlist_files fuel')) ;;
    let '(found_list, missing_list) := lists in
    ret (mkFiles (filter (fun x => nonempty x = true) found_list)
                 (filter (fun x => nonempty x = true) missing_list))
  end.

(** *** The result as a function of the dictionaries' contents

    What [_check_for_varlist_files] returns or raises, computed from the
    contents of the dictionaries of [varlist], [os.environ] and the files
    on disk, without a store. *)
Section contents.
Variable env : gmap string string.
Variable disk : string -> bool.

Definition env_get (k : string) : M unit pyval :=
  match env !! k with
  | Some v => ret (VStr v)
  | None => raise (KeyError k)
  end.

Definition item_files (self_files : list dict -> M unit files)
    (lists : list string * list string) (d : dict)
  : M unit (list string * list string) :=
  let '(found_list, missing_list) := lists in
  name <- dget d "name_in_model" ;;
  freq <- dget d "freq" ;;
  casename <- env_get "CASENAME" ;;
  datadir <- env_get "DATADIR" ;;
  filepath <- lift (util.makefilepath name freq casename datadir) ;;
  if disk filepath then ret (found_list ++ [filepath], missing_list)
  else
    required <- dget d "required" ;;
    if negb (truthy required) then ret (found_list, missing_list)
    else
      some_alt <- match d !! "alternates" with
                  | Some a => n <- py_len a ;; ret (0 <? n)%nat
                  | None => ret false
                  end ;;
      if negb some_alt then ret (found_list, missing_list ++ [filepath])
      else
        alt_list <- dget d "alternates" ;;
        alts <- py_iter alt_list ;;
        for_each alts (found_list, missing_list) (fun lists alt_item =>
          let '(found_list, missing_list) := lists in
          new_files <- self_files
            [delete "alternates" (<["name_in_model" := alt_item]> d)] ;;
          ret (found_list ++ found_files new_files,
               missing_list ++ missing_files new_files)).

Fixpoint varlist_files (fuel : nat) (ds : list dict) : M unit files :=
  match fuel with
  | O => stuck
  | S fuel' =>
    lists <- for_each ds ([], []) (item_files (varlist_files fuel')) ;;
    let '(found_list, missing_list) := lists in
    ret (mkFiles (filter (fun x => nonempty x = true) found_list)
                 (filter (fun x => nonempty x = true) missing_list))
  end.
End contents.

(** *** The attributes of a [Diagnostic] object

    The attributes the code of this development reads or writes.
    [process_obj] and [logfile_obj] hold a handle or [None]. *)
Module Diagnostic.
Record t : Type := mk {
  name : string;
  POD_WK_DIR : string;
  program : string;
  driver : string;
  env : string;
  required_programs : list string;
  required_python_modules : list string;
  required_ncl_scripts : list string;
  required_r_packages : list string;
  pod_env_vars : list (string * string);   (* the entries, in [keys()] order *)
  varlist : list loc;
  found_files : list string;
  missing_files : list string;
  process_obj : option nat;
  logfile_obj : option nat
}.

Definition set_env (v : string) (p : t) : t :=
  mk (name p) (POD_WK_DIR p) (program p) (driver p) v (required_programs p)
     (required_python_modules p) (required_ncl_scripts p) (required_r_packages p)
     (pod_env_vars p) (varlist p) (found_files p) (missing_files p)
     (process_obj p) (logfile_obj p).

Definition set_varlist (v : list loc) (p : t) : t :=
  mk (name p) (POD_WK_DIR p) (program p) (driver p) (env p) (required_programs p)
     (required_python_modules p) (required_ncl_scripts p) (required_r_packages p)
     (pod_env_vars p) v (found_files p) (missing_files p)
     (process_obj p) (logfile_obj p).

Definition set_process_obj (v : option nat) (p : t) : t :=
  mk (name p) (POD_WK_DIR p) (program p) (driver p) (env p) (required_programs p)
     (required_python_modules p) (required_ncl_scripts p) (required_r_packages p)
     (pod_env_vars p) (varlist p) (found_files p) (missing_files p)
     v (logfile_obj p).

Definition set_logfile_obj (v : option nat) (p : t) : t :=
  mk (name p) (POD_WK_DIR p) (program p) (driver p) (env p) (required_programs p)
     (required_python_modules p) (required_ncl_scripts p) (required_r_packages p)
     (pod_env_vars p) (varlist p) (found_files p) (missing_files p)
     (process_obj p) v.
End Diagnostic.

Section methods.
(** [util.PathManager().CODE_ROOT] and the module's [__file__]. *)
Variable CODE_ROOT : string.
Variable __file__ : string.

(** [Diagnostic.__init__], from the point where the settings have been
    stored on [self]: [self.varlist = self._parse_pod_varlist(...)]. *)
Definition __init__ (self : Diagnostic.t) (varlist : list loc) : Py Diagnostic.t :=
  config <- _parse_pod_varlist __file__ varlist ;;
  ret (Diagnostic.set_varlist config self).

(** [self.program + ' ' + self.driver] *)
Definition run_command (self : Diagnostic.t) : string :=
  Diagnostic.program self +:+ " " +:+ Diagnostic.driver self.

Definition validate_command (self : Diagnostic.t) : string :=
  let command_path := os_path_join CODE_ROOT ["src"; "validate_environment.sh"] in
  let command := [
    command_path;
    " -v";
    join " -p " ([""] ++ Diagnostic.required_programs self);
    join " -z " ([""] ++ map fst (Diagnostic.pod_env_vars self));
    join " -a " ([""] ++ Diagnostic.required_python_modules self);
    join " -b " ([""] ++ Diagnostic.required_ncl_scripts self);
    join " -c " ([""] ++ Diagnostic.required_r_packages self)
  ] in
  join "" command.
End methods.

End shared_diagnostic.

(** ** [environment_manager.py] *)

Module environment_manager.
Import shared_diagnostic.

(** What the manager does to the operating system, oldest first.  [pod] is
    the position in [self.pods] of the job an action is done for. *)
Inductive event : Type :=
| EvPrint (line : string)
| EvCall (command : string)                           (* [subprocess.call(command, shell=True)] *)
| EvOpen (pod : nat) (path : string) (fd : nat)       (* [open(path, 'w')] returned [fd] *)
| EvPopen (pod : option nat) (argv : list string) (cwd : option string)
          (stdout : option nat) (pid : nat)           (* [subprocess.Popen] returned [pid] *)
| EvPopenError (pod : option nat) (argv : list string)  (* [subprocess.Popen] raised [OSError] *)
| EvWait (pid : nat)                                  (* [process_obj.wait()] *)
| EvClose (fd : nat).                                 (* [logfile_obj.close()] *)

(** The calls the base class makes on its collaborators: the methods of
    the subclass and of the jobs. *)
Inductive call : Type :=
| CallCreateEnvironment (env_name : string)
| CallDestroyEnvironment (env_name : string)
| CallPodSetUp (pod : nat)
| CallPodTearDown (pod : nat).

(** The machine the manager runs on: what exists on disk, how shell
    commands end, which spawns and opens fail. *)
Record os : Type := mkOs {
  path_exists : string -> bool;        (* [os.path.exists] *)
  call_status : string -> nat;         (* exit status of a shell command *)
  popen_fails : list string -> bool;   (* [Popen(argv)] raises [OSError] *)
  open_fails : string -> bool          (* [open(path, 'w')] raises [IOError] *)
}.

Record world : Type := mkWorld {
  trace : list event;
  next_handle : nat
}.

(** The manager object and the world it acts on. *)
Record state : Type := mkSt {
  pods : list Diagnostic.t;            (* [self.pods] *)
  envs : gset string;                  (* [self.envs] *)
  calls : list call;                   (* calls made so far, oldest first *)
  the_world : world
}.

Abbreviation W := (M world).
Abbreviation Mgr := (M state).

(** Run an action on the world inside the manager. *)
Definition in_world {A} (m : W A) : Mgr A :=
  fun s =>
    match m (the_world s) with
    | Ret a w => Ret a (mkSt (pods s) (envs s) (calls s) w)
    | Raise e w => Raise e (mkSt (pods s) (envs s) (calls s) w)
    | Stuck => Stuck
    end.

Definition emit (ev : event) : W unit :=
  fun w => Ret tt (mkWorld (trace w ++ [ev]) (next_handle w)).

Definition fresh_handle : W nat :=
  fun w => Ret (next_handle w) (mkWorld (trace w) (S (next_handle w))).

Definition print (line : string) : W unit := emit (EvPrint line).

Definition record_call (c : call) : Mgr unit :=
  fun s => Ret tt (mkSt (pods s) (envs s) (calls s ++ [c]) (the_world s)).

(** [self.pods[i]]; the positions the loops go through are in range. *)
Definition get_pod (i : nat) : Mgr Diagnostic.t :=
  fun s => match pods s !! i with Some p => Ret p s | None => Stuck end.

(** An assignment to an attribute of [self.pods[i]]. *)
Definition set_pod (i : nat) (p : Diagnostic.t) : Mgr unit :=
  fun s => Ret tt (mkSt (<[i := p]> (pods s)) (envs s) (calls s) (the_world s)).

(** [self.envs.add(env)] *)
Definition envs_add (e : string) : Mgr unit :=
  fun s => Ret tt (mkSt (pods s) ({[e]} ∪ envs s) (calls s) (the_world s)).

Definition get_envs : Mgr (gset string) := fun s => Ret (envs s) s.

Section machine.
Variable sys : os.

(** [subprocess.call(command, shell=True)] *)
Definition subprocess_call (command : string) : W nat :=
  emit (EvCall command) ;;; ret (call_status sys command).

(** [subprocess.Popen(argv, cwd=..., stdout=...)]: the new process, or
    [OSError]. *)
Definition subprocess_Popen (pod : option nat) (argv : list string)
    (cwd : option string) (stdout : option nat) : W (exn + nat) :=
  if popen_fails sys argv then
    emit (EvPopenError pod argv) ;;; ret (inl OSError)
  else
    pid <- fresh_handle ;;
    emit (EvPopen pod argv cwd stdout pid) ;;; ret (inr pid).

(** [open(path, 'w')] *)
Definition open (pod : nat) (path : string) : W nat :=
  if open_fails sys path then raise IOError
  else fd <- fresh_handle ;; emit (EvOpen pod path fd) ;;; ret fd.
End machine.

(** The abstract methods of [EnvironmentManager]; [T] holds the
    attributes a subclass adds to [self]. *)
Class EnvironmentManager (T : Type) : Type := {
  create_environment : os -> T -> string -> W unit;
  set_pod_env : T -> Diagnostic.t -> Diagnostic.t;
  activate_env_command : T -> Diagnostic.t -> string;
  deactivate_env_command : T -> Diagnostic.t -> string;
  destroy_environment : os -> T -> string -> W unit
}.

Definition dquote : string := String (ascii_of_nat 34) EmptyString.

Section base.
Context {T : Type} `{EnvironmentManager T}.
Variable sys : os.
Variable CODE_ROOT : string.
Variable self : T.
(** [self.test_mode] *)
Variable test_mode : bool.
(** The jobs' own [setUp] and [tearDown]: what they do to the job's
    attributes, or the exception they raise. *)
Variable pod_setUp : Diagnostic.t -> exn + Diagnostic.t.
Variable pod_tearDown : Diagnostic.t -> exn + Diagnostic.t.

Definition positions : Mgr (list nat) :=
  fun s => Ret (seq 0 (length (pods s))) s.

Definition setUp : Mgr unit :=
  ps <- positions ;;
  for_each ps tt (fun _ i =>
    pod <- get_pod i ;;
    let pod := set_pod_env self pod in
    set_pod i pod ;;;
    envs_add (Diagnostic.env pod)) ;;;
  es <- get_envs ;;
  for_each (elements es) tt (fun _ env =>
    record_call (CallCreateEnvironment env) ;;;
    in_world (create_environment sys self env)).

(** The run fragment under test mode. *)
Definition test_mode_command (run_command : string) : string :=
  "echo " +:+ dquote +:+ "TEST MODE: would call " +:+ run_command +:+ dquote.

(** The value of [run_command] after the [if self.test_mode:]. *)
Definition pod_run_command (pod : Diagnostic.t) : string :=
  let run_command := run_command pod in
  if test_mode then test_mode_command run_command else run_command.

(** The list [commands], before it is joined. *)
Definition command_list (pod : Diagnostic.t) : list string :=
  [ activate_env_command self pod; validate_command CODE_ROOT pod;
    pod_run_command pod; deactivate_env_command self pod ].

(** [' && '.join([s for s in commands if s])] *)
Definition and_join (commands : list string) : string :=
  join " && " (filter (fun s => nonempty s = true) commands).

(** The body of the first loop of [run]. *)
Definition run_pod (i : nat) : Mgr unit :=
  pod <- get_pod i ;;
  record_call (CallPodSetUp i) ;;;
  pod <- lift (pod_setUp pod) ;;
  set_pod i pod ;;;
  if negb (bool_decide (Diagnostic.missing_files pod = [])) then ret tt
  else
    fd <- in_world (open sys i (os_path_join (Diagnostic.POD_WK_DIR pod)
                                  [Diagnostic.name pod +:+ ".log"])) ;;
    let pod := Diagnostic.set_logfile_obj (Some fd) pod in
    set_pod i pod ;;;
    let run_command := pod_run_command pod in
    let commands := and_join (command_list pod) in
    in_world (print ("Calling :  " +:+ run_command)) ;;;
    in_world (print ("Will run in env: " +:+ Diagnostic.env pod)) ;;;
    r <- in_world (subprocess_Popen sys (Some i) ["bash"; "-c"; commands]
                     (Some (Diagnostic.POD_WK_DIR pod)) (Diagnostic.logfile_obj pod)) ;;
    match r with
    | inr pid => set_pod i (Diagnostic.set_process_obj (Some pid) pod)
    | inl _ =>
        in_world (print "ERROR :") ;;;
        in_world (print (" occured with call: " +:+ run_command))
    end.

(** The body of the second loop of [run]. *)
Definition finish_pod (i : nat) : Mgr unit :=
  pod <- get_pod i ;;
  pod <- match Diagnostic.process_obj pod with
         | Some pid =>
             in_world (emit (EvWait pid)) ;;;
             let pod := Diagnostic.set_process_obj None pod in
             set_pod i pod ;;; ret pod
         | None => ret pod
         end ;;
  match Diagnostic.logfile_obj pod with
  | Some fd =>
      in_world (emit (EvClose fd)) ;;;
      set_pod i (Diagnostic.set_logfile_obj None pod)
  | None => ret tt
  end.

Definition run : Mgr unit :=
  ps <- positions ;;
  for_each ps tt (fun _ i => run_pod i) ;;;
  for_each ps tt (fun _ i => finish_pod i).

Definition tearDown : Mgr unit :=
  ps <- positions ;;
  for_each ps tt (fun _ i =>
    pod <- get_pod i ;;
    record_call (CallPodTearDown i) ;;;
    pod <- lift (pod_tearDown pod) ;;
    set_pod i pod) ;;;
  es <- get_envs ;;
  for_each (elements es) tt (fun _ env =>
    record_call (CallDestroyEnvironment env) ;;;
    in_world (destroy_environment sys self env)).
End base.

(** *** [NoneEnvironmentManager] *)

#[export] Instance NoneEnvironmentManager : EnvironmentManager unit := {
  create_environment _ _ _ := ret tt;
  set_pod_env _ pod := pod;
  activate_env_command _ _ := "";
  deactivate_env_command _ _ := "";
  destroy_environment _ _ _ := ret tt
}.

(** *** [CondaEnvironmentManager] *)

Record Conda : Type := mkConda {
  conda_env_root : string;
  CODE_ROOT : string                  (* [util.PathManager().CODE_ROOT] *)
}.

(** [s[n:]] *)
Fixpoint string_from (n : nat) (s : string) : string :=
  match n, s with
  | O, _ => s
  | S n', String _ s' => string_from n' s'
  | S _, EmptyString => EmptyString
  end.

Section conda.
Variable sys : os.
Variable self : Conda.

Definition _call_conda_create (env_name : string) : W unit :=
  let prefix := "_MDTF-diagnostics" in
  let short_name :=
    if String.eqb env_name prefix then "base"
    else string_from (String.length prefix + 1) env_name in
  let path := CODE_ROOT self +:+ "/src/conda_env_" +:+ short_name +:+ ".yml" in
  (* [conda_prefix] is bound in the [else] branch only *)
  conda_prefix <-
    (if negb (path_exists sys path) then
       print ("Can't find " +:+ path) ;;; ret None
     else
       let conda_prefix := os_path_join (conda_env_root self) [env_name] in
       print ("Creating conda env " +:+ env_name +:+ " in " +:+ conda_prefix) ;;;
       ret (Some conda_prefix)) ;;
  let source := "source " +:+ CODE_ROOT self +:+ "/src/conda_init.sh && " in
  conda_prefix <- match conda_prefix with
                  | Some v => ret v
                  | None => raise (UnboundLocalError "conda_prefix")
                  end ;;
  let commands :=
    source +:+ "conda env create --force -q -p=" +:+ dquote +:+ conda_prefix
           +:+ dquote +:+ " -f=" +:+ dquote +:+ path +:+ dquote in
  r <- subprocess_Popen sys None ["bash"; "-c"; commands] None None ;;
  match r with
  | inr _ => ret tt
  | inl _ => print "ERROR :"
  end.

Definition conda_create_environment (env_name : string) : W unit :=
  let conda_prefix := os_path_join (conda_env_root self) [env_name] in
  test <- subprocess_call sys
            ("conda env list | grep -qF " +:+ dquote +:+ conda_prefix +:+ dquote) ;;
  if negb (Nat.eqb test 0) then
    print "Conda env {} not found; creating it" ;;;
    _call_conda_create env_name
  else ret tt.
End conda.

Definition conda_set_pod_env (pod : Diagnostic.t) : Diagnostic.t :=
  let keys := map lower (Diagnostic.required_programs pod) in
  if bool_decide ("r" ∈ keys) || bool_decide ("rscript" ∈ keys) then
    Diagnostic.set_env "_MDTF-diagnostics-R" pod
  else if bool_decide ("ncl" ∈ keys) then
    Diagnostic.set_env "_MDTF-diagnostics-NCL" pod
  else
    Diagnostic.set_env "_MDTF-diagnostics-python" pod.

Definition conda_activate_env_command (self : Conda) (pod : Diagnostic.t) : string :=
  let conda_prefix := os_path_join (conda_env_root self) [Diagnostic.env pod] in
  "source " +:+ CODE_ROOT self +:+ "/src/conda_init.sh && conda activate " +:+ conda_prefix.

#[export] Instance CondaEnvironmentManager : EnvironmentManager Conda := {
  create_environment sys self env_name := conda_create_environment sys self env_name;
  set_pod_env _ pod := conda_set_pod_env pod;
  activate_env_command self pod := conda_activate_env_command self pod;
  deactivate_env_command _ _ := "";
  destroy_environment _ _ _ := ret tt
}.

End environment_manager.

(** * Vocabulary of the statements

    The definitions below are not code of the repository: they are the
    words the theorems about it are stated in. *)

(** What a caller sees of an outcome: the value returned or the exception
    raised. *)
Definition result_of {St A} (o : outcome St A) : option (exn + A) :=
  match o with
  | Ret a _ => Some (inr a)
  | Raise e _ => Some (inl e)
  | Stuck => None
  end.

(** ** About the parser and the resolver *)

Module Resolution.
Import shared_diagnostic.

(** [s'] is [s] after code that writes to no dictionary of [s], to no
    environment variable and to no file: the dictionaries of [s] are
    where and what they were, new ones may have been allocated behind
    them, and lines may have been added to the output. *)
Definition extends (s s' : pystate) : Prop :=
  heap s `prefix_of` heap s' ∧ environ s' = environ s ∧ isfile s' = isfile s
  ∧ stdout s `prefix_of` stdout s'.

(** The outcome [o] of code run from [s] is the outcome [r] of the
    store-free function, and the state it leaves extends [s]. *)
Definition agree {A} (s : pystate) (o : outcome pystate A) (r : outcome unit A) : Prop :=
  match o with
  | Ret a s' => r = Ret a tt ∧ extends s s'
  | Raise e s' => r = Raise e tt ∧ extends s s'
  | Stuck => r = Stuck
  end.

(** In [s], the environment is [env], the disk is [disk] and [l] is the
    address of a dictionary with contents [d]. *)
Definition at_ (env : gmap string string) (disk : string → bool)
    (s : pystate) (l : loc) (d : gmap string pyval) : Prop :=
  environ s = env ∧ isfile s = disk ∧ heap s !! l = Some d.

(** The path [util.makefilepath] builds from four strings. *)
Definition data_path (datadir casename freq name : string) : string :=
  datadir +:+ "/" +:+ freq +:+ "/" +:+ casename +:+ "." +:+ name +:+ "." +:+ freq +:+ ".nc".


(** The flag the parser stores under ['required']. *)
Definition required_flag (d : gmap string pyval) : bool :=
  match d !! "requirement" with
  | Some (VStr r) => String.eqb (lower r) "required"
  | _ => false
  end.

(** The entry [d] as the parser leaves it. *)
Definition parsed (d : gmap string pyval) : gmap string pyval :=
  let d1 := <["required" := VBool (required_flag d)]> d in
  match d !! "alternates" with
  | None => <["alternates" := VList []]> d1
  | Some (VList _) => d1
  | Some a => <["alternates" := VList [a]]> d1
  end.

(** The message of the failed [assert] on the frequency [f]. *)
Definition assertion_message (__file__ f : string) : string :=
  "WARNING: didn't find " +:+ f +:+ " in frequency options " +:+ " (set in "
    +:+ __file__ +:+ ": parse_pod_varlist)".

Definition frequency_of (d : gmap string pyval) : option string :=
  match d !! "freq" with Some (VStr f) => Some f | _ => None end.

(** An entry as the settings file gives it: a frequency string, and a
    requirement string when there is one. *)
Definition well_shaped (d : gmap string pyval) : Prop :=
  is_Some (frequency_of d) ∧
  match d !! "requirement" with Some (VStr _) | None => True | _ => False end.

Definition allowed_frequency (d : gmap string pyval) : Prop :=
  ∃ f, frequency_of d = Some f ∧ f ∈ frequency_options.

Definition set_heap (h : list (gmap string pyval)) (s : pystate) : pystate :=
  mkState h (environ s) (isfile s) (stdout s).

(** What the parser reads of an entry is what it was. *)
Definition same_entry (d d' : gmap string pyval) : Prop :=
  frequency_of d' = frequency_of d ∧ d' !! "requirement" = d !! "requirement".

(** The parser's loop after [k] entries: nothing was printed, nothing
    allocated, and the entries seen had an allowed frequency. *)
Definition parse_inv (s0 : pystate) (varlist : list loc)
    (ds : list (gmap string pyval)) (k : nat) (s : pystate) : Prop :=
  stdout s = stdout s0 ∧ environ s = environ s0 ∧ isfile s = isfile s0 ∧
  length (heap s) = length (heap s0) ∧
  Forall2 (λ l d, ∃ d', heap s !! l = Some d' ∧ same_entry d d') varlist ds ∧
  Forall allowed_frequency (take k ds).

Definition parse_raises (__file__ : string) (s0 : pystate)
    (ds : list (gmap string pyval)) (e : exn) (s : pystate) : Prop :=
  stdout s = stdout s0 ∧
  (∃ f, e = AssertionError (assertion_message __file__ f) ∧ f ∉ frequency_options) ∧
  Exists (λ d, ¬ allowed_frequency d) ds.

End Resolution.

(** ** About the manager *)

Module Batch.
Import shared_diagnostic environment_manager.

(** The job [p] with both handles set to [None]. *)
Definition release (p : Diagnostic.t) : Diagnostic.t :=
  Diagnostic.set_logfile_obj None (Diagnostic.set_process_obj None p).

(** What the second loop of [run] does for the job [p]. *)
Definition release_events (p : Diagnostic.t) : list event :=
  match Diagnostic.process_obj p with Some pid => [EvWait pid] | None => [] end ++
  match Diagnostic.logfile_obj p with Some fd => [EvClose fd] | None => [] end.

Definition add_events (evs : list event) (s : state) : state :=
  mkSt (pods s) (envs s) (calls s)
       (mkWorld (trace (the_world s) ++ evs) (next_handle (the_world s))).

Definition with_pods (ps : list Diagnostic.t) (s : state) : state :=
  mkSt ps (envs s) (calls s) (the_world s).

Definition add_call (c : call) (s : state) : state :=
  mkSt (pods s) (envs s) (calls s ++ [c]) (the_world s).

Definition bump (n : nat) (s : state) : state :=
  mkSt (pods s) (envs s) (calls s)
       (mkWorld (trace (the_world s)) (n + next_handle (the_world s))).

(** The path of the log file of a job. *)
Definition log_path (pod : Diagnostic.t) : string :=
  os_path_join (Diagnostic.POD_WK_DIR pod) [Diagnostic.name pod +:+ ".log"].

#[export] Instance call_eq_dec : EqDecision call.
Proof. solve_decision. Defined.

(** A manager as [__init__] leaves it, with the jobs [ps] loaded. *)
Definition new_manager (ps : list Diagnostic.t) (w : world) : state := mkSt ps ∅ [] w.

(** How many times the call [c] was made. *)
Definition count_call (c : call) (cs : list call) : nat :=
  length (filter (λ x, x = c) cs).

(** The event opens the log file of job [i] or spawns, or tries to spawn,
    its process. *)
Definition opens_or_spawns (i : nat) (ev : event) : bool :=
  match ev with
  | EvOpen j _ _ => Nat.eqb j i
  | EvPopen (Some j) _ _ _ _ => Nat.eqb j i
  | EvPopenError (Some j) _ => Nat.eqb j i
  | _ => false
  end.

Definition is_release (ev : event) : bool :=
  match ev with EvWait _ | EvClose _ => true | _ => false end.

(** The chain of the fragments as the specification words it: the
    fragments in their order, the empty ones left out, [" && "] between
    two that follow each other and nowhere else. *)
Fixpoint and_chain (fragments : list string) : string :=
  match fragments with
  | [] => ""
  | f :: rest =>
      if String.eqb f "" then and_chain rest
      else if String.eqb (and_chain rest) "" then f
      else f +:+ " && " +:+ and_chain rest
  end.

Section run.
Context {T : Type} `{EnvironmentManager T}.
Variables (sys : os) (CODE_ROOT : string) (self : T) (test_mode : bool).
Variable pod_setUp : Diagnostic.t → exn + Diagnostic.t.

(** The argument vector of the process of a job. *)
Definition job_argv (pod : Diagnostic.t) : list string :=
  ["bash"; "-c"; and_join (command_list CODE_ROOT self test_mode pod)].

(** The environment [setUp] binds the job to. *)
Definition bound_env (p : Diagnostic.t) : string := Diagnostic.env (set_pod_env self p).

(** An event of the first loop of [run], after [k] jobs: it is done
    for a job before [k] that misses no file, and the handle it made is
    the one the job holds. *)
Definition event_ok (ps : list Diagnostic.t) (k : nat) (ev : event) : Prop :=
  match ev with
  | EvPrint _ => True
  | EvOpen j path fd =>
      j < k ∧ ∃ pod, ps !! j = Some pod ∧ Diagnostic.missing_files pod = []
        ∧ Diagnostic.logfile_obj pod = Some fd ∧ path = log_path pod
  | EvPopen o argv cwd out pid =>
      ∃ j pod q, o = Some j ∧ j < k ∧ ps !! j = Some pod
        ∧ Diagnostic.missing_files pod = []
        ∧ Diagnostic.process_obj pod = Some pid
        ∧ out = Diagnostic.logfile_obj pod ∧ is_Some out
        ∧ cwd = Some (Diagnostic.POD_WK_DIR pod)
        ∧ release q = release pod ∧ argv = job_argv q
  | EvPopenError o argv =>
      ∃ j pod q, o = Some j ∧ j < k ∧ ps !! j = Some pod
        ∧ Diagnostic.missing_files pod = []
        ∧ release q = release pod ∧ argv = job_argv q
        ∧ popen_fails sys argv = true
  | EvCall _ | EvWait _ | EvClose _ => False
  end.

(** The log file of job [j] was opened and its process spawned, or the
    spawn failed. *)
Definition spawned (j : nat) (pod : Diagnostic.t) (evs : list event) : Prop :=
  ∃ fd q, release q = release pod ∧ EvOpen j (log_path pod) fd ∈ evs ∧
    if popen_fails sys (job_argv q) then EvPopenError (Some j) (job_argv q) ∈ evs
    else ∃ pid, EvPopen (Some j) (job_argv q) (Some (Diagnostic.POD_WK_DIR pod))
                  (Some fd) pid ∈ evs.

(** The first loop of [run] after [k] jobs. *)
Definition loop1_inv (s0 : state) (k : nat) (s : state) : Prop :=
  length (pods s) = length (pods s0) ∧ envs s = envs s0 ∧
  calls s = calls s0 ++ (CallPodSetUp <$> seq 0 k) ∧
  (∀ j : nat, (k ≤ j)%nat → pods s !! j = pods s0 !! j) ∧
  ∃ evs, trace (the_world s) = trace (the_world s0) ++ evs ∧
    Forall (event_ok (pods s) k) evs ∧
    (∀ (j : nat) pod, j < k → pods s !! j = Some pod →
       Diagnostic.missing_files pod = [] → spawned j pod evs).

(** The exceptions that leave [run]: the one a job's [setUp] raised,
    or the [IOError] of a log file that could not be opened. *)
Definition run_raises (e : exn) (s : state) : Prop :=
  (∃ p, pod_setUp p = inl e) ∨ (e = IOError ∧ ∃ path, open_fails sys path = true).
End run.

Definition create_inv (s1 : state) (xs : list string) (k : nat) (s : state) : Prop :=
  pods s = pods s1 ∧ envs s = envs s1 ∧
  calls s = calls s1 ++ (CallCreateEnvironment <$> take k xs).

Definition teardown_inv (s0 : state) (k : nat) (s : state) : Prop :=
  length (pods s) = length (pods s0) ∧ envs s = envs s0 ∧
  the_world s = the_world s0 ∧
  calls s = calls s0 ++ (CallPodTearDown <$> seq 0 k).

Definition destroy_inv (s1 : state) (xs : list string) (k : nat) (s : state) : Prop :=
  pods s = pods s1 ∧ envs s = envs s1 ∧
  calls s = calls s1 ++ (CallDestroyEnvironment <$> take k xs).

(** *** The conda manager *)

(** The shell command that tests whether the environment exists. *)
Definition conda_probe (self : Conda) (env_name : string) : string :=
  "conda env list | grep -qF " +:+ dquote
    +:+ os_path_join (conda_env_root self) [env_name] +:+ dquote.

Definition conda_short_name (env_name : string) : string :=
  if String.eqb env_name "_MDTF-diagnostics" then "base"
  else string_from (String.length "_MDTF-diagnostics" + 1) env_name.

(** The specification file of the environment. *)
Definition conda_spec_file (self : Conda) (env_name : string) : string :=
  environment_manager.CODE_ROOT self +:+ "/src/conda_env_" +:+ conda_short_name env_name +:+ ".yml".

(** The argument vector of the process that creates the environment. *)
Definition conda_create_argv (self : Conda) (env_name : string) : list string :=
  ["bash"; "-c";
   ("source " +:+ environment_manager.CODE_ROOT self +:+ "/src/conda_init.sh && ")
     +:+ "conda env create --force -q -p=" +:+ dquote
     +:+ os_path_join (conda_env_root self) [env_name] +:+ dquote
     +:+ " -f=" +:+ dquote +:+ conda_spec_file self env_name +:+ dquote].

(** The environment is absent and has to be created. *)
Definition needs_creation (sys : os) (self : Conda) (env_name : string) : bool :=
  negb (Nat.eqb (call_status sys (conda_probe self env_name)) 0).

Definition creation_inv (sys : os) (self : Conda) (w0 : world) (xs : list string)
    (k : nat) (w : world) : Prop :=
  ∃ evs, trace w = trace w0 ++ evs ∧
    ∀ e, e ∈ take k xs → needs_creation sys self e = true →
      popen_fails sys (conda_create_argv self e) = true →
      EvPopenError None (conda_create_argv self e) ∈ evs.

(** The failure policy of the specification, for the failure of the
    creation command: a job bound to an environment whose creation
    failed is not executed. *)
Definition failed_environment_blocks_its_jobs (sys : os) (self : Conda)
    (test_mode : bool) (pod_setUp : Diagnostic.t → exn + Diagnostic.t)
    (ps : list Diagnostic.t) (w : world) : Prop :=
  ∀ s1 s2 i pod,
    setUp sys self (new_manager ps w) = Ret tt s1 →
    run sys (environment_manager.CODE_ROOT self) self test_mode pod_setUp s1 = Ret tt s2 →
    pods s2 !! i = Some pod →
    needs_creation sys self (Diagnostic.env pod) = true →
    popen_fails sys (conda_create_argv self (Diagnostic.env pod)) = true →
    Forall (λ ev, opens_or_spawns i ev = false) (trace (the_world s2)).

End Batch.

(** * Concrete inputs

    Small inputs on which the definitions are run; the theorems are
    instantiated at them further down. *)

Module Examples.
Import shared_diagnostic environment_manager Resolution Batch.


(** An entry of a settings file that says nothing on its requirement. *)
Definition ex_entry : gmap string pyval :=
  <["name_in_model" := VStr "tas"]> (<["freq" := VStr "day"]> ∅).

Definition ex_environ : gmap string string :=
  <["CASENAME" := "QBOi"]> (<["DATADIR" := "/data"]> ∅).

(** A disk with the file of [prc] only. *)
Definition ex_disk (path : string) : bool := String.eqb path "/data/mon/QBOi.prc.mon.nc".

Definition ex_settings : pystate := mkState [ex_entry] ex_environ ex_disk [].

(** A job that misses no file and one that misses one. *)
Definition ex_pod : Diagnostic.t :=
  Diagnostic.mk "convective" "/wk/convective" "python" "convective.py" ""
    ["python"] [] [] [] [] [] [] [] None None.

Definition ex_skipped_pod : Diagnostic.t :=
  Diagnostic.mk "precip" "/wk/precip" "ncl" "precip.ncl" ""
    ["ncl"] [] [] [] [] [] [] ["/data/mon/QBOi.pr.mon.nc"] None None.

(** The jobs' own [setUp] and [tearDown] leave the attributes as they
    are. *)
Definition ex_pod_setUp (p : Diagnostic.t) : exn + Diagnostic.t := inr p.
Definition ex_pod_tearDown (p : Diagnostic.t) : exn + Diagnostic.t := inr p.

Definition ex_conda : Conda := mkConda "/conda/envs" "/code".

(** A machine on which no conda environment exists, every file exists,
    every log file can be opened, and the one command that does not
    start is the creation of the python environment. *)
Definition ex_sys : os :=
  mkOs (fun _ => true) (fun _ => 1)
       (fun argv => bool_decide (argv = conda_create_argv ex_conda "_MDTF-diagnostics-python"))
       (fun _ => false).

(** The same machine without the specification files. *)
Definition ex_sys_without_spec : os :=
  mkOs (fun _ => false) (fun _ => 1) (fun _ => false) (fun _ => false).

(** A machine on which the log file of [ex_skipped_pod]'s directory
    cannot be opened. *)
Definition ex_sys_without_wk : os :=
  mkOs (fun _ => true) (fun _ => 0) (fun _ => false)
       (fun path => String.eqb path "/wk/precip/precip.log").

Definition ex_world : world := mkWorld [] 0.

(** The manager without environments, with the two jobs, before and
    after [run], and after [tearDown]. *)
Definition ex_manager : state := new_manager [ex_pod; ex_skipped_pod] ex_world.

Definition ex_after_run : state :=
  Eval vm_compute in
    match run ex_sys "/code" tt false ex_pod_setUp ex_manager with
    | Ret _ s | Raise _ s => s
    | Stuck => ex_manager
    end.

Definition ex_after_tearDown : state :=
  Eval vm_compute in
    match tearDown ex_sys tt ex_pod_tearDown ex_after_run with
    | Ret _ s | Raise _ s => s
    | Stuck => ex_after_run
    end.

(** The conda manager with the one job, after [setUp] and after [run]. *)
Definition ex_conda_after_setUp : state :=
  Eval vm_compute in
    match setUp ex_sys ex_conda (new_manager [ex_pod] ex_world) with
    | Ret _ s | Raise _ s => s
    | Stuck => new_manager [ex_pod] ex_world
    end.

Definition ex_conda_after_run : state :=
  Eval vm_compute in
    match run ex_sys "/code" ex_conda false ex_pod_setUp ex_conda_after_setUp with
    | Ret _ s | Raise _ s => s
    | Stuck => ex_conda_after_setUp
    end.

End Examples.

(** * Further vocabulary *)

Module BatchMore.
Import shared_diagnostic environment_manager Batch.

(** The handle an event made is the one its job holds in [ps]. *)
Definition holds_handle (ps : list Diagnostic.t) (ev : event) : Prop :=
  match ev with
  | EvOpen j _ fd =>
      ∃ pod, ps !! j = Some pod ∧ Diagnostic.logfile_obj pod = Some fd
  | EvPopen (Some j) _ _ _ pid =>
      ∃ pod, ps !! j = Some pod ∧ Diagnostic.process_obj pod = Some pid
  | _ => True
  end.

(** The state in which an exception leaves the first loop of [run]. *)
Definition raise_inv {T} `{EnvironmentManager T} (sys : os) (CODE_ROOT : string)
    (self : T) (test_mode : bool) (pod_setUp : Diagnostic.t → exn + Diagnostic.t)
    (s0 : state) (e : exn) (s : state) : Prop :=
  run_raises sys pod_setUp e s ∧
  ∃ evs k, trace (the_world s) = trace (the_world s0) ++ evs ∧
    Forall (event_ok sys CODE_ROOT self test_mode (pods s) k) evs.
End BatchMore.

Module BatchJobs.
Import shared_diagnostic environment_manager Batch.

(** The first loop of [run] after [k] jobs, job by job: the jobs before
    [k] are what their own [setUp] returned, up to the two handles; the
    others are untouched. *)
Definition jobs_inv (pod_setUp : Diagnostic.t → exn + Diagnostic.t)
    (s0 : state) (k : nat) (s : state) : Prop :=
  length (pods s) = length (pods s0) ∧
  (∀ (j : nat) p, j < k → pods s0 !! j = Some p →
     ∃ p1 q, pod_setUp p = inr p1 ∧ pods s !! j = Some q ∧ release q = release p1) ∧
  (∀ j : nat, (k ≤ j)%nat → pods s !! j = pods s0 !! j).


End BatchJobs.

Module ExamplesMore.
Import shared_diagnostic environment_manager Batch Examples.

(** A second job that misses no file; its log file cannot be opened on
    [ex_sys_without_wk]. *)
Definition ex_second_pod : Diagnostic.t :=
  Diagnostic.mk "precip" "/wk/precip" "ncl" "precip.ncl" ""
    ["ncl"] [] [] [] [] [] [] [] None None.

Definition ex_two_jobs : state := new_manager [ex_pod; ex_second_pod] ex_world.

(** The state in which [IOError] leaves [run]. *)
Definition ex_raised : state :=
  Eval vm_compute in
    match run ex_sys_without_wk "/code" tt false ex_pod_setUp ex_two_jobs with
    | Ret _ s | Raise _ s => s
    | Stuck => ex_two_jobs
    end.
End ExamplesMore.

Module ResolutionMore.
Import shared_diagnostic Resolution.

(** The path of the data file of an entry, [""] when the entry has no
    string name or frequency. *)
Definition entry_path (datadir casename : string) (d : gmap string pyval) : string :=
  match d !! "name_in_model", d !! "freq" with
  | Some (VStr n), Some (VStr f) => data_path datadir casename f n
  | _, _ => ""
  end.

(** The truth value of ['required']. *)
Definition is_required (d : gmap string pyval) : bool :=
  match d !! "required" with Some r => truthy r | None => false end.

(** An entry with its name, frequency and flag, and without alternates
    to try. *)
Definition plain_entry (d : gmap string pyval) : Prop :=
  (∃ n f r, d !! "name_in_model" = Some (VStr n) ∧ d !! "freq" = Some (VStr f) ∧
            d !! "required" = Some r) ∧
  (d !! "alternates" = None ∨ d !! "alternates" = Some (VList [])).

(** The required entries of [ds] whose file is not on disk. *)
Definition absent_required (disk : string → bool) (datadir casename : string)
    (ds : list (gmap string pyval)) : list (gmap string pyval) :=
  filter (λ d, disk (entry_path datadir casename d) = false ∧ is_required d = true) ds.
End ResolutionMore.

Module ParserMore.
Import shared_diagnostic Resolution.

(** The parser's loop after the entries [done_]: the dictionaries of
    [done_] hold the parsed entries, the other dictionaries are as they
    were in [s0], and nothing else has changed. *)
Definition parsed_inv (s0 : pystate) (done_ : list loc) (s : pystate) : Prop :=
  stdout s = stdout s0 ∧ environ s = environ s0 ∧ isfile s = isfile s0 ∧
  length (heap s) = length (heap s0) ∧
  ∀ (l : loc) (d : gmap string pyval), heap s0 !! l = Some d →
    heap s !! l = Some (if bool_decide (l ∈ done_) then parsed d else d).

(** An entry the parser accepts: a string frequency of the allowed ones
    and a string requirement, if any. *)
Definition accepted (d : gmap string pyval) : Prop :=
  well_shaped d ∧ allowed_frequency d.
End ParserMore.

Module ExamplesFiles.
Import shared_diagnostic Resolution ResolutionMore ParserMore Examples.

(** Three parsed entries: [prc] required and on disk, [tas] optional and
    absent, [ua] required and absent. *)
Definition ex_prc : gmap string pyval :=
  <["name_in_model" := VStr "prc"]> (<["freq" := VStr "mon"]>
    (<["required" := VBool true]> (<["alternates" := VList []]> ∅))).

Definition ex_ua : gmap string pyval :=
  <["name_in_model" := VStr "ua"]> (<["freq" := VStr "mon"]>
    (<["required" := VBool true]> (<["alternates" := VList []]> ∅))).

Definition ex_three : pystate :=
  mkState [ex_prc; parsed ex_entry; ex_ua] ex_environ ex_disk [].

(** An entry with a frequency that is not allowed, behind a good one. *)
Definition ex_weekly : gmap string pyval :=
  <["name_in_model" := VStr "pr"]> (<["freq" := VStr "week"]> ∅).

Definition ex_two_entries : pystate :=
  mkState [ex_entry; ex_weekly] ex_environ ex_disk [].
End ExamplesFiles.

(** * More of [util.py]: [BiDict] and [VariableTranslator] *)

Module util_translate.

(** [l.remove(x)]: the list without the first [x]. *)
Fixpoint remove_first (x : string) (l : list string) : list string :=
  match l with
  | [] => []
  | y :: l' => if String.eqb y x then l' else y :: remove_first x l'
  end.

Module BiDict.
(** The dictionary itself and its attribute [inverse], from values to
    the list of their keys.  Names of variables are strings. *)
Record t : Type := mk {
  forward : gmap string string;
  inverse : gmap string (list string)
}.

(** [ValueError] is what [list.remove] raises. *)
Inductive error : Type :=
| KeyError (key : string)
| ValueError.

(** A method returns, or raises and leaves the object as it is then. *)
Inductive result : Type :=
| Ok (self : t)
| Err (e : error) (self : t).

(** [self.inverse.setdefault(value, []).append(key)] *)
Definition inverse_add (value key : string) (inv : gmap string (list string))
  : gmap string (list string) :=
  <[value := default [] (inv !! value) ++ [key]]> inv.

(** [BiDict(items)]: [items] are the items of the argument in the
    order [self.items()] goes through them. *)
Definition __init__ (items : list (string * string)) : t :=
  mk (list_to_map items)
     (fold_left (fun inv kv => inverse_add kv.2 kv.1 inv) items ∅).

Definition __setitem__ (key value : string) (self : t) : result :=
  let removed :=
    match forward self !! key with
    | Some old =>
        match inverse self !! old with
        | None => inl (KeyError old)
        | Some keys =>
            if bool_decide (key ∈ keys)
            then inr (<[old := remove_first key keys]> (inverse self))
            else inl ValueError
        end
    | None => inr (inverse self)
    end in
  match removed with
  | inl e => Err e self
  | inr inv =>
      Ok (mk (<[key := value]> (forward self)) (inverse_add value key inv))
  end.

Definition __delitem__ (key : string) (self : t) : result :=
  match forward self !! key with
  | None => Err (KeyError key) self
  | Some value =>
      (* [self.inverse.setdefault(self[key], [])] *)
      let keys := default [] (inverse self !! value) in
      let inv := <[value := keys]> (inverse self) in
      if bool_decide (key ∈ keys) then
        let inv := <[value := remove_first key keys]> inv in
        let inv := match inv !! value with
                   | Some [] => delete value inv
                   | _ => inv
                   end in
        Ok (mk (delete key (forward self)) inv)
      else Err ValueError (mk (forward self) inv)
  end.
End BiDict.

Module VariableTranslator.
(** [self.field_dict]: the table of each convention.  The entry of
    ['CF'] is a plain empty dictionary, without [inverse]; it is never
    looked into. *)
Definition t : Type := gmap string BiDict.t.

(** ["Variable name translation doesn't recognize {}."] *)
Definition unrecognized (convention : string) : string :=
  "Variable name translation doesn't recognize " +:+ convention +:+ ".".

Definition toCF (self : t) (convention varname_in : string) : exn + pyval :=
  if String.eqb convention "CF" then inr (VStr varname_in)
  else
    match self !! convention with
    | None => inl (AssertionError (unrecognized convention))
    | Some table =>
        match BiDict.inverse table !! varname_in with
        | None => inl (KeyError varname_in)
        | Some temp =>
            match temp with
            | [name] => inr (VStr name)
            | _ => inr (VList (VStr <$> temp))
            end
        end
    end.

Definition fromCF (self : t) (convention varname_in : string) : exn + pyval :=
  if String.eqb convention "CF" then inr (VStr varname_in)
  else
    match self !! convention with
    | None => inl (AssertionError (unrecognized convention))
    | Some table =>
        match BiDict.forward table !! varname_in with
        | None => inl (KeyError varname_in)
        | Some name => inr (VStr name)
        end
    end.

(** What [__init__] reads of a configuration file: its
    ['convention_name'], a string or a list of strings, and the
    items of its ['var_names']. *)
Record config_file : Type := mkFile {
  convention_name : string + list string;
  var_names : list (string * string)
}.

(** [VariableTranslator.__init__], given the contents of the
    configuration files in the order of [config_files]. *)
Definition __init__ (files : list config_file) : t :=
  fold_left (fun field_dict file_contents =>
               let names := match convention_name file_contents with
                            | inl name => [name]
                            | inr names => names
                            end in
               fold_left (fun field_dict conv =>
                            <[conv := BiDict.__init__ (var_names file_contents)]> field_dict)
                         names field_dict)
            files (<["CF" := BiDict.mk ∅ ∅]> ∅).
End VariableTranslator.

End util_translate.

Module TranslateMore.
Import util_translate.

(** [inverse] is the inverse of the dictionary: a key is in the list
    of a value exactly when the dictionary maps it to that value, and
    no list names a key twice. *)
Definition consistent (bd : BiDict.t) : Prop :=
  (∀ k v, BiDict.forward bd !! k = Some v ↔
          ∃ ks, BiDict.inverse bd !! v = Some ks ∧ k ∈ ks) ∧
  (∀ v ks, BiDict.inverse bd !! v = Some ks → NoDup ks).

(** No value has an empty list of keys. *)
Definition without_empty_lists (bd : BiDict.t) : Prop :=
  ∀ v, BiDict.inverse bd !! v ≠ Some [].
End TranslateMore.

Module ExamplesTranslate.
Import util_translate.

(** The names of two variables in one convention; both precipitation
    names of CF are one variable of the model. *)
Definition ex_var_names : list (string * string) :=
  [("pr_var", "PRECT"); ("prc_var", "PRECT"); ("ua_var", "U")].

Definition ex_table : BiDict.t := BiDict.__init__ ex_var_names.

Definition ex_config : VariableTranslator.config_file :=
  VariableTranslator.mkFile (inr ["CESM"; "CAM"]) ex_var_names.

Definition ex_translator : VariableTranslator.t :=
  VariableTranslator.__init__ [ex_config].
End ExamplesTranslate.

(** * More of [util.py] and [shared_diagnostic.py]: environment variables *)

Module util_env.
Import shared_diagnostic.

(** [os.environ[k] = v] *)
Definition environ_set (k v : string) : Py unit :=
  fun s => Ret tt (mkState (heap s) (<[k := v]> (environ s)) (isfile s) (stdout s)).

(** [{}]: a new, empty dictionary. *)
Definition new_dict : Py loc :=
  fun s => Ret (length (heap s))
               (mkState (heap s ++ [∅]) (environ s) (isfile s) (stdout s)).

(** [a == b] on values. *)
Fixpoint py_eqb (a b : pyval) : bool :=
  match a, b with
  | VStr s, VStr t => String.eqb s t
  | VBool x, VBool y => Bool.eqb x y
  | VList l, VList m =>
      (fix all2 (l m : list pyval) : bool :=
         match l, m with
         | [], [] => true
         | x :: l', y :: m' => py_eqb x y && all2 l' m'
         | _, _ => false
         end) l m
  | _, _ => false
  end.

(** [if b: m] *)
Definition when (b : bool) (m : Py unit) : Py unit := if b then m else ret tt.

Section setenv.
(** [str(l)] of a list; the strings of the other values are written
    out in [env_string]. *)
Variable str_list : list pyval → string.

(** The string [os.environ] gets for a value. *)
Definition env_string (varvalue : pyval) : string :=
  match varvalue with
  | VBool true => "1"
  | VBool false => "0"
  | VStr s => s
  | VList l => str_list l
  end.

Definition setenv (varname : string) (varvalue : pyval) (env_dict : loc)
    (verbose : Z) (overwrite : bool) : Py unit :=
  keep <- (if negb overwrite then contains env_dict varname else ret false) ;;
  (if (keep : bool) then
     when (0 <? verbose)%Z
       (old <- getitem env_dict varname ;;
        print [VStr "Not overwriting ENV "; VStr varname; VStr " = "; old])
   else
     has <- contains env_dict "varname" ;;
     warn <- (if (has : bool) then
                old <- getitem env_dict varname ;;
                ret (negb (py_eqb old varvalue) && (0 <? verbose)%Z)
              else ret false) ;;
     when warn
       (old <- getitem env_dict varname ;;
        print [VStr "WARNING: setenv "; VStr varname; VStr " = "; varvalue;
               VStr " overriding previous setting "; old]) ;;;
     setitem env_dict varname varvalue ;;;
     environ_set varname (env_string varvalue) ;;;
     when (0 <? verbose)%Z
       (new <- getitem env_dict varname ;;
        print [VStr "ENV "; VStr varname; VStr " = "; new])) ;;;
  when (2 <? verbose)%Z
    (cur <- getitem env_dict varname ;;
     print [VStr "Check "; VStr varname; VStr " "; cur]).

(** [Diagnostic._set_pod_env_vars]; [POD_CODE_DIR] and [POD_OBS_DATA]
    are the two attributes of [self] that [Diagnostic.t] does not
    hold. *)
Definition _set_pod_env_vars (POD_CODE_DIR POD_OBS_DATA : string)
    (self : Diagnostic.t) (verbose : Z) : Py loc :=
  pod_envvars <- new_dict ;;
  setenv "POD_HOME" (VStr POD_CODE_DIR) pod_envvars verbose true ;;;
  setenv "OBS_DATA" (VStr POD_OBS_DATA) pod_envvars verbose true ;;;
  setenv "WK_DIR" (VStr (Diagnostic.POD_WK_DIR self)) pod_envvars verbose true ;;;
  for_each (Diagnostic.pod_env_vars self) tt
    (fun _ kv => setenv kv.1 (VStr kv.2) pod_envvars verbose true) ;;;
  ret pod_envvars.
End setenv.
End util_env.

Module EnvMore.
Import shared_diagnostic util_env.

(** Every variable of the dictionary is in the environment, with the
    string of its value. *)
Definition in_step (str_list : list pyval → string)
    (d : gmap string pyval) (env : gmap string string) : Prop :=
  ∀ k v, d !! k = Some v → env !! k = Some (env_string str_list v).

(** The call leaves the variable as it is. *)
Definition kept (d : gmap string pyval) (varname : string) (overwrite : bool) : bool :=
  negb overwrite && bool_decide (is_Some (d !! varname)).

(** The dictionary of a job after its variables are set. *)
Definition pod_dict (POD_CODE_DIR POD_OBS_DATA POD_WK_DIR : string)
    (pod_env_vars : list (string * string)) : gmap string pyval :=
  fold_left (fun d kv => <[kv.1 := VStr kv.2]> d) pod_env_vars
    (<["WK_DIR" := VStr POD_WK_DIR]>
       (<["OBS_DATA" := VStr POD_OBS_DATA]>
          (<["POD_HOME" := VStr POD_CODE_DIR]> ∅))).

Definition quiet (s s' : pystate) : Prop := stdout s' = stdout s.
End EnvMore.

Module ExamplesEnv.
Import shared_diagnostic util_env Examples.

(** No list is set as a variable in the examples. *)
Definition ex_str_list (l : list pyval) : string := "[]".

(** Two jobs with variables of their own; the settings of the second
    name a variable ['varname']. *)
Definition ex_pod_with_vars : Diagnostic.t :=
  Diagnostic.mk "convective" "/wk/convective" "python" "convective.py" ""
    ["python"] [] [] [] [("lat_var", "lat"); ("WK_DIR", "/scratch")]
    [] [] [] None None.

Definition ex_pod_with_varname : Diagnostic.t :=
  Diagnostic.mk "precip" "/wk/precip" "ncl" "precip.ncl" ""
    ["ncl"] [] [] [] [("varname", "pr"); ("lat_var", "lat")]
    [] [] [] None None.

(** A dictionary of variables that is in step with [ex_environ]. *)
Definition ex_env_dict : gmap string pyval := <["CASENAME" := VStr "QBOi"]> ∅.
Definition ex_env_state : pystate := mkState [ex_env_dict] ex_environ ex_disk [].
End ExamplesEnv.

(** * The statements of the specification that the code does not meet

    Each is written as the specification words it; it is refuted at a
    concrete input further down. *)

Module Stated.
Import shared_diagnostic environment_manager Resolution Batch.


(** On every exit path of [run], by return or by exception, no job
    holds a process or a log file. *)
Definition handles_released_on_every_exit {T} `{EnvironmentManager T}
    (sys : os) (CODE_ROOT : string) (self : T) (test_mode : bool)
    (pod_setUp : Diagnostic.t → exn + Diagnostic.t) (s0 : state) : Prop :=
  ∀ s1,
    run sys CODE_ROOT self test_mode pod_setUp s0 = Ret tt s1 ∨
    (∃ e, run sys CODE_ROOT self test_mode pod_setUp s0 = Raise e s1) →
    ∀ pod, pod ∈ pods s1 →
      Diagnostic.process_obj pod = None ∧ Diagnostic.logfile_obj pod = None.

(** A skipped job never enters [EnvironmentBound]: the manager ensures
    the environment of a job that misses files only when another job is
    bound to the same environment. *)
Definition skipped_job_is_never_bound {T} `{EnvironmentManager T}
    (sys : os) (CODE_ROOT : string) (self : T) (test_mode : bool)
    (pod_setUp : Diagnostic.t → exn + Diagnostic.t) (sa : state) : Prop :=
  ∀ s0 s1 (i : nat) p pod,
    setUp sys self sa = Ret tt s0 →
    run sys CODE_ROOT self test_mode pod_setUp s0 = Ret tt s1 →
    pods sa !! i = Some p → pods s1 !! i = Some pod →
    Diagnostic.missing_files pod ≠ [] →
    CallCreateEnvironment (bound_env self p) ∈ calls s1 →
    ∃ (j : nat) q, j ≠ i ∧ pods sa !! j = Some q ∧ bound_env self q = bound_env self p.

(** Every job of the batch reaches [Finalized]: however [tearDown]
    ends, it has called the [tearDown] of every job. *)
Definition every_job_is_finalized {T} `{EnvironmentManager T}
    (sys : os) (self : T) (pod_tearDown : Diagnostic.t → exn + Diagnostic.t)
    (s1 : state) : Prop :=
  ∀ s2,
    tearDown sys self pod_tearDown s1 = Ret tt s2 ∨
    (∃ e, tearDown sys self pod_tearDown s1 = Raise e s2) →
    ∀ i, i < length (pods s1) →
      CallPodTearDown i ∈ drop (length (calls s1)) (calls s2).
End Stated.

Module ExamplesStated.
Import shared_diagnostic environment_manager Resolution Batch Examples.



(** The two jobs under the conda manager: after [setUp], after [run]
    and after [tearDown]. *)
Definition ex_bound : state :=
  Eval vm_compute in
    match setUp ex_sys ex_conda ex_manager with
    | Ret _ s | Raise _ s => s
    | Stuck => ex_manager
    end.

Definition ex_bound_after_run : state :=
  Eval vm_compute in
    match run ex_sys "/code" ex_conda false ex_pod_setUp ex_bound with
    | Ret _ s | Raise _ s => s
    | Stuck => ex_bound
    end.

Definition ex_bound_after_tearDown : state :=
  Eval vm_compute in
    match tearDown ex_sys ex_conda ex_pod_tearDown ex_bound_after_run with
    | Ret _ s | Raise _ s => s
    | Stuck => ex_bound_after_run
    end.

(** A batch of the one job that misses a file, under the conda
    manager. *)
Definition ex_skipped_alone : state := new_manager [ex_skipped_pod] ex_world.

Definition ex_skipped_alone_bound : state :=
  Eval vm_compute in
    match setUp ex_sys ex_conda ex_skipped_alone with
    | Ret _ s | Raise _ s => s
    | Stuck => ex_skipped_alone
    end.

Definition ex_skipped_alone_after_run : state :=
  Eval vm_compute in
    match run ex_sys "/code" ex_conda false ex_pod_setUp ex_skipped_alone_bound with
    | Ret _ s | Raise _ s => s
    | Stuck => ex_skipped_alone_bound
    end.

(** The [tearDown] of the first job fails, as its file operations
    can. *)
Definition ex_failing_tearDown (p : Diagnostic.t) : exn + Diagnostic.t :=
  if String.eqb (Diagnostic.name p) "convective" then inl OSError else inr p.

Definition ex_failed_tearDown : state :=
  Eval vm_compute in
    match tearDown ex_sys tt ex_failing_tearDown ex_after_run with
    | Ret _ s | Raise _ s => s
    | Stuck => ex_after_run
    end.
End ExamplesStated.

(** * Theorems *)

(** ** Loops *)

Lemma for_each_inv_gen {St A} (xs : list A) (body : A → M St unit)
    (I : nat → St → Prop) (E : exn → St → Prop) (Z : Prop) :
  (∀ k x s, xs !! k = Some x → I k s →
     match body x s with
     | Ret _ s' => I (S k) s' | Raise e s' => E e s' | Stuck => Z
     end) →
  ∀ s, I 0 s →
    match for_each xs tt (fun _ x => body x) s with
    | Ret _ s' => I (length xs) s' | Raise e s' => E e s' | Stuck => Z
    end.
Proof.
  revert I. induction xs as [|x xs IH]; intros I Hbody s H0; simpl; [done|].
  unfold bind. specialize (Hbody 0 x s eq_refl H0) as Hx.
  destruct (body x s) as [[] s'|e s'|]; [|done|done].
  apply (IH (fun k => I (S k))); [|done].
  intros k y t Hk. apply (Hbody (S k)). done.
Qed.


(** ** The resolver and the parser *)

Section resolver.
Import shared_diagnostic Resolution.


Lemma extends_refl s : extends s s.
Proof. by repeat split. Qed.

Lemma extends_trans s1 s2 s3 : extends s1 s2 → extends s2 s3 → extends s1 s3.
Proof.
  intros (H1 & H2 & H3 & H4) (K1 & K2 & K3 & K4).
  repeat split; [by etrans | congruence | congruence | by etrans].
Qed.

Lemma extends_lookup s s' l (d : gmap string pyval) :
  extends s s' → heap s !! l = Some d → heap s' !! l = Some d.
Proof. intros ([k ->] & _) H. by apply lookup_app_l_Some. Qed.

Lemma agree_weaken {A} s s' (o : outcome pystate A) r :
  extends s s' → agree s' o r → agree s o r.
Proof.
  intros He. destruct o; simpl; [| |done]; intros [-> H]; split; try done;
    by eapply extends_trans.
Qed.

Lemma agree_bind {A B} s (m : Py A) (p : M unit A) (k : A → Py B) (q : A → M unit B) :
  agree s (m s) (p tt) →
  (∀ a s', m s = Ret a s' → extends s s' → agree s' (k a s') (q a tt)) →
  agree s (bind m k s) (bind p q tt).
Proof.
  unfold bind. destruct (m s) as [a s'| e s'|] eqn:E; simpl.
  - intros [-> He] Hk. eapply agree_weaken; [done|]. by apply Hk.
  - intros [-> He] _. done.
  - intros -> _. done.
Qed.

Lemma for_each_agree {A B C} (R : pystate → A → C → Prop)
    (bm : B → A → Py B) (bp : B → C → M unit B) :
  (∀ s s' x y, extends s s' → R s x y → R s' x y) →
  (∀ s acc x y, R s x y → agree s (bm acc x s) (bp acc y tt)) →
  ∀ xs ys s acc, Forall2 (R s) xs ys →
    agree s (for_each xs acc bm s) (for_each ys acc bp tt).
Proof.
  intros Hmono Hbody xs.
  induction xs as [|x xs IH]; intros ys s acc HF; inversion HF; subst; simpl.
  - split; [done | apply extends_refl].
  - apply agree_bind; [by apply Hbody|].
    intros a s' _ He. apply IH.
    eapply Forall2_impl; [done|]. intros; by eapply Hmono.
Qed.

Lemma agree_run {A B} s (m : Py A) (k : A → Py B) (r : outcome unit B) a s' :
  m s = Ret a s' → extends s s' → agree s' (k a s') r → agree s (bind m k s) r.
Proof. intros E He Hk. unfold bind. rewrite E. by eapply agree_weaken. Qed.

Lemma agree_ret {A} s (a : A) : agree s (ret a s) (ret a tt).
Proof. split; [done|apply extends_refl]. Qed.

Lemma agree_lift {A} s (r : exn + A) : agree s (lift r s) (lift r tt).
Proof. destruct r; (split; [done|apply extends_refl]). Qed.

Lemma agree_getitem s l (d : gmap string pyval) k :
  heap s !! l = Some d → agree s (getitem l k s) (dget d k tt).
Proof.
  intros H. unfold getitem, bind, deref, dget. rewrite H.
  destruct (d !! k); (split; [done|apply extends_refl]).
Qed.

Lemma getitem_run s l (d : gmap string pyval) k v :
  heap s !! l = Some d → d !! k = Some v → getitem l k s = Ret v s.
Proof. intros H1 H2. unfold getitem, bind, deref, dget. by rewrite H1, H2. Qed.

Lemma agree_os_environ s k : agree s (os_environ k s) (env_get (environ s) k tt).
Proof.
  unfold os_environ, env_get. destruct (environ s !! k); (split; [done|apply extends_refl]).
Qed.

Lemma agree_py_len s v : agree s (py_len v s) (py_len v tt).
Proof. destruct v; (split; [done|apply extends_refl]). Qed.

Lemma agree_py_iter s v : agree s (py_iter v s) (py_iter v tt).
Proof. destruct v; (split; [done|apply extends_refl]). Qed.

Lemma extends_stdout s evs :
  extends s (mkState (heap s) (environ s) (isfile s) (stdout s ++ evs)).
Proof. repeat split; simpl; try done. by apply prefix_app_r. Qed.

Lemma extends_alloc s ds :
  extends s (mkState (heap s ++ ds) (environ s) (isfile s) (stdout s)).
Proof. repeat split; simpl; try done. by apply prefix_app_r. Qed.

Lemma new_var_run {B} s l (d : gmap string pyval) alt (k : loc → Py B) :
  heap s !! l = Some d → is_Some (d !! "alternates") →
  bind (dict_copy l) (fun new_var =>
    bind (setitem new_var "name_in_model" alt) (fun _ =>
      bind (delitem new_var "alternates") (fun _ => k new_var))) s
  = k (length (heap s))
      (mkState (heap s ++ [delete "alternates" (<["name_in_model" := alt]> d)])
               (environ s) (isfile s) (stdout s)).
Proof.
  intros Hl [a Ha].
  unfold dict_copy, setitem, delitem, bind, deref, store. rewrite Hl. simpl.
  rewrite lookup_app_r, Nat.sub_diag by lia. simpl.
  rewrite List.length_app. simpl.
  destruct (decide (length (heap s) < length (heap s) + 1)) as [_|]; [|lia]. simpl.
  rewrite (insert_app_r_alt (heap s) [d] (length (heap s))), Nat.sub_diag by lia. simpl.
  rewrite lookup_app_r, Nat.sub_diag by lia. simpl.
  rewrite lookup_insert_ne by done. rewrite Ha. simpl.
  rewrite List.length_app. simpl.
  destruct (decide (length (heap s) < length (heap s) + 1)) as [_|]; [|lia]. simpl.
  rewrite (insert_app_r_alt (heap s) _ (length (heap s))), Nat.sub_diag by lia. done.
Qed.

Section agree.
Variables (env : gmap string string) (disk : string → bool).
Local Abbreviation at_ := (at_ env disk).

Lemma at_extends s s' l d : extends s s' → at_ s l d → at_ s' l d.
Proof.
  intros He (H1 & H2 & H3). pose proof He as (_ & K1 & K2 & _).
  repeat split; [congruence | congruence | by eapply extends_lookup].
Qed.

Lemma check_item_agree (rec_m : list loc → Py files) (rec_p : list (gmap string pyval) → M unit files) :
  (∀ l d s, at_ s l d → agree s (rec_m [l] s) (rec_p [d] tt)) →
  ∀ lists l d s, at_ s l d →
    agree s (check_item rec_m lists l s) (item_files env disk rec_p lists d tt).
Proof.
  intros Hrec [found_list missing_list] l d s Hat.
  unfold check_item, item_files.
  apply agree_bind; [apply agree_getitem, Hat|]. intros name s1 _ He1.
  apply (at_extends _ _ _ _ He1) in Hat. clear s He1.
  apply agree_bind; [apply agree_getitem, Hat|]. intros freq s2 _ He2.
  apply (at_extends _ _ _ _ He2) in Hat. clear s1 He2.
  apply agree_bind.
  { destruct Hat as (<- & _). apply agree_os_environ. }
  intros casename s3 _ He3.
  apply (at_extends _ _ _ _ He3) in Hat. clear s2 He3.
  apply agree_bind.
  { destruct Hat as (<- & _). apply agree_os_environ. }
  intros datadir s4 _ He4.
  apply (at_extends _ _ _ _ He4) in Hat. clear s3 He4.
  apply agree_bind; [apply agree_lift|]. intros filepath s5 _ He5.
  apply (at_extends _ _ _ _ He5) in Hat. clear s4 He5.
  eapply agree_run; [reflexivity | apply extends_stdout |].
  match goal with |- agree ?s _ _ => assert (at_ s l d) as Hat'
    by (eapply at_extends; [apply extends_stdout | done]) end.
  replace (isfile s5 filepath) with (disk filepath) by (by destruct Hat as (_ & <- & _)).
  clear Hat. revert Hat'. generalize (mkState (heap s5) (environ s5) (isfile s5) (stdout s5 ++ [EvIsFile filepath])).
  clear s5. intros s Hat.
  destruct (disk filepath).
  { eapply agree_run; [reflexivity | apply extends_stdout | apply agree_ret]. }
  apply agree_bind; [apply agree_getitem, Hat|]. intros required s1 _ He1.
  apply (at_extends _ _ _ _ He1) in Hat. clear s He1.
  destruct (negb (truthy required)).
  { eapply agree_run; [reflexivity | apply extends_stdout | apply agree_ret]. }
  eapply agree_run.
  { unfold contains, bind, deref. destruct Hat as (_ & _ & ->). reflexivity. }
  { apply extends_refl. }
  apply agree_bind.
  { destruct (d !! "alternates") as [a|] eqn:Ea; simpl.
    - rewrite ?bool_decide_eq_true_2 by eauto.
      eapply agree_run; [by apply (getitem_run _ _ d), Ea; apply Hat | apply extends_refl |].
      apply agree_bind; [apply agree_py_len|]. intros n s3 _ He3. apply agree_ret.
    - rewrite ?bool_decide_eq_false_2 by (by intros [? ?]). apply agree_ret. }
  intros some_alt s2 Hsome He2.
  assert (some_alt = true → is_Some (d !! "alternates")) as Halt.
  { intros ->. destruct (d !! "alternates") eqn:Ea; [eauto|].
    simpl in Hsome. rewrite ?bool_decide_eq_false_2 in Hsome by (by intros [? ?]). by inversion Hsome. }
  clear Hsome.
  apply (at_extends _ _ _ _ He2) in Hat. clear s1 He2.
  destruct some_alt; cbn [negb].
  2:{ eapply agree_run; [reflexivity | apply extends_stdout | apply agree_ret]. }
  specialize (Halt eq_refl).
  apply agree_bind; [apply agree_getitem, Hat|]. intros alt_list s3 _ He3.
  apply (at_extends _ _ _ _ He3) in Hat. clear s2 He3.
  eapply agree_run; [reflexivity | apply extends_stdout |].
  match goal with |- agree ?s _ _ => assert (at_ s l d) as Hat'
    by (eapply at_extends; [apply extends_stdout | done]); clear Hat; revert Hat'; generalize s end.
  clear s3. intros s Hat.
  apply agree_bind; [apply agree_py_iter|]. intros alts s1 _ He1.
  apply (at_extends _ _ _ _ He1) in Hat. clear s He1.
  apply (for_each_agree (fun s x y => x = y ∧ at_ s l d)).
  - intros s s' x y He [-> H]. split; [done|by eapply at_extends].
  - intros s [fl ml] alt ? [<- Hs].
    rewrite (new_var_run s l d alt) by (done || apply Hs).
    eapply agree_weaken; [apply extends_alloc|].
    apply agree_bind.
    + apply Hrec. destruct Hs as (H1 & H2 & H3). repeat split; simpl; try done.
      rewrite lookup_app_r, Nat.sub_diag by lia. done.
    + intros nf s' _ _. apply agree_ret.
  - clear -Hat. induction alts; constructor; auto.
Qed.
End agree.


Lemma check_agree fuel : ∀ locs ds s,
  Forall2 (λ l d, heap s !! l = Some d) locs ds →
  agree s (_check_for_varlist_files fuel locs s)
          (varlist_files (environ s) (isfile s) fuel ds tt).
Proof.
  induction fuel as [|fuel IH]; intros locs ds s HF; [done|].
  simpl. apply agree_bind.
  - apply (for_each_agree (at_ (environ s) (isfile s))).
    + intros; by eapply at_extends.
    + intros s0 acc l d Hat. apply check_item_agree; [|done].
      intros l' d' s' (<- & <- & H). apply IH. by constructor.
    + eapply Forall2_impl; [done|]. intros l d H. by repeat split.
  - intros [fl ml] s' _ _. apply agree_ret.
Qed.

Lemma nonempty_data_path dd c f n : nonempty (data_path dd c f n) = true.
Proof. unfold data_path. by destruct dd. Qed.

Lemma filter_nonempty_paths (ps : list string) :
  Forall (λ p, nonempty p = true) ps → filter (λ x, nonempty x = true) ps = ps.
Proof.
  induction 1 as [|p ps Hp _ IH]; [done|].
  rewrite filter_cons. destruct (decide _); [by rewrite IH|done].
Qed.

Section leaf.
Variables (env : gmap string string) (disk : string → bool).
Variables (casename datadir : string).
Hypothesis Hcase : env !! "CASENAME" = Some casename.
Hypothesis Hdata : env !! "DATADIR" = Some datadir.

(** What one requirement without usable alternates adds to the two lists. *)
Lemma item_files_plain rec (d : gmap string pyval) n f r fl ml :
  d !! "name_in_model" = Some (VStr n) → d !! "freq" = Some (VStr f) →
  d !! "required" = Some r →
  (d !! "alternates" = None ∨ d !! "alternates" = Some (VList [])) →
  item_files env disk rec (fl, ml) d tt =
    Ret (if disk (data_path datadir casename f n) then (fl ++ [data_path datadir casename f n], ml)
         else if truthy r then (fl, ml ++ [data_path datadir casename f n])
         else (fl, ml)) tt.
Proof.
  intros Hn Hf Hr Ha. unfold item_files, bind, dget, env_get.
  rewrite Hn, Hf, Hcase, Hdata. simpl.
  fold (data_path datadir casename f n).
  destruct (disk _); [done|]. rewrite Hr. simpl.
  destruct (truthy r); simpl; [|done].
  destruct Ha as [-> | ->]; done.
Qed.

Lemma item_files_found rec (d : gmap string pyval) n f fl ml :
  d !! "name_in_model" = Some (VStr n) → d !! "freq" = Some (VStr f) →
  disk (data_path datadir casename f n) = true →
  item_files env disk rec (fl, ml) d tt =
    Ret (fl ++ [data_path datadir casename f n], ml) tt.
Proof.
  intros Hn Hf Hd. unfold item_files, bind, dget, env_get.
  rewrite Hn, Hf, Hcase, Hdata. simpl.
  fold (data_path datadir casename f n). by rewrite Hd.
Qed.



End leaf.


Lemma agree_result {A} s (o : outcome pystate A) r :
  agree s o r → result_of o = result_of r.
Proof. destruct o; simpl; [intros [-> _]|intros [-> _]|intros ->]; reflexivity. Qed.

Lemma agree_extends {A} s (o : outcome pystate A) r :
  agree s o r →
  match o with Ret _ s' | Raise _ s' => extends s s' | Stuck => True end.
Proof. destruct o; simpl; [intros [_ ?]|intros [_ ?]|]; done. Qed.

Lemma valid_locs s (locs : list loc) :
  Forall (λ l, l < length (heap s)) locs →
  ∃ ds, Forall2 (λ l d, heap s !! l = Some d) locs ds.
Proof.
  induction 1 as [|l locs Hl _ [ds IH]]; [by exists []|].
  destruct (lookup_lt_is_Some_2 _ _ Hl) as [d Hd]. exists (d :: ds). by constructor.
Qed.

(** ** The store-free function is total with two levels of fuel *)
#[local] Arguments util.makefilepath : simpl never.

Section total.
Variables (env : gmap string string) (disk : string → bool).










End total.




Lemma append_assoc (a b c : string) : (a +:+ b) +:+ c = a +:+ (b +:+ c).
Proof.
  induction a as [|x a IH]; [done|].
  change (String x ((a +:+ b) +:+ c) = String x (a +:+ (b +:+ c))). by rewrite IH.
Qed.

Lemma bind_getitem {B} s l (d : gmap string pyval) k v (K : pyval → Py B) :
  heap s !! l = Some d → d !! k = Some v → bind (getitem l k) K s = K v s.
Proof. intros Hl Hk. unfold getitem, bind, deref, dget. by rewrite Hl, Hk. Qed.

Lemma bind_contains {B} s l (d : gmap string pyval) k (K : bool → Py B) :
  heap s !! l = Some d →
  bind (contains l k) K s = K (bool_decide (is_Some (d !! k))) s.
Proof. intros Hl. unfold contains, bind, deref. by rewrite Hl. Qed.

Lemma setitem_eq s l (d : gmap string pyval) k v :
  heap s !! l = Some d →
  setitem l k v s = Ret tt (set_heap (<[l := <[k := v]> d]> (heap s)) s).
Proof.
  intros Hl. unfold setitem, bind, deref, store. rewrite Hl.
  destruct (decide (l < length (heap s))) as [|Hn]; [done|].
  destruct Hn. by eapply lookup_lt_Some.
Qed.

Lemma bind_setitem {B} s l (d : gmap string pyval) k v (K : unit → Py B) :
  heap s !! l = Some d →
  bind (setitem l k v) K s = K tt (set_heap (<[l := <[k := v]> d]> (heap s)) s).
Proof. intros Hl. unfold bind at 1. by rewrite (setitem_eq s l d). Qed.

Lemma set_heap_lookup s l (d d' : gmap string pyval) :
  heap s !! l = Some d → heap (set_heap (<[l := d']> (heap s)) s) !! l = Some d'.
Proof. intros Hl. simpl. apply list_lookup_insert_eq. by eapply lookup_lt_Some. Qed.

Lemma set_heap_twice s l (a b : gmap string pyval) :
  set_heap (<[l := b]> (heap (set_heap (<[l := a]> (heap s)) s)))
           (set_heap (<[l := a]> (heap s)) s)
  = set_heap (<[l := b]> (heap s)) s.
Proof. unfold set_heap. simpl. by rewrite list_insert_insert_eq. Qed.

Lemma parse_entry_eq __file__ s l (d : gmap string pyval) f :
  heap s !! l = Some d → frequency_of d = Some f →
  match d !! "requirement" with Some (VStr _) | None => True | _ => False end →
  parse_entry __file__ l s =
    if bool_decide (f ∈ frequency_options)
    then Ret tt (set_heap (<[l := parsed d]> (heap s)) s)
    else Raise (AssertionError (assertion_message __file__ f)) s.
Proof.
  intros Hl Hf Hreq. unfold frequency_of in Hf.
  destruct (d !! "freq") as [[f'| |]|] eqn:Ef; try done. inversion Hf; subst f'.
  unfold parse_entry. rewrite (bind_getitem s l d "freq" (VStr f)) by done.
  cbn [py_in].
  destruct (bool_decide (f ∈ frequency_options)).
  2:{ unfold bind, lift, util.py_add, ret, raise. unfold assertion_message.
      by rewrite !append_assoc. }
  unfold bind at 1. cbn [ret].
  rewrite (bind_contains s l d) by done.
  set (d1 := <["required" := VBool (required_flag d)]> d).
  assert (∀ K : unit → Py unit,
    bind (if bool_decide (is_Some (d !! "requirement"))
          then r <- getitem l "requirement" ;; lr <- py_lower r ;;
               setitem l "required" (VBool (String.eqb lr "required"))
          else setitem l "required" (VBool false)) K s
    = K tt (set_heap (<[l := d1]> (heap s)) s)) as Hstep.
  { intros K. unfold d1, required_flag.
    destruct (d !! "requirement") as [[r| |]|] eqn:Er; try done.
    - rewrite bool_decide_eq_true_2 by eauto.
      unfold bind at 1. rewrite (bind_getitem s l d "requirement" (VStr r)) by done.
      cbn [py_lower]. unfold bind at 1. cbn [ret]. by rewrite (setitem_eq s l d).
    - rewrite bool_decide_eq_false_2 by (by intros [? ?]).
      by rewrite (bind_setitem s l d). }
  rewrite Hstep. clear Hstep.
  pose proof (set_heap_lookup s l d d1 Hl) as Hl1.
  rewrite (bind_contains _ l d1) by done.
  assert (d1 !! "alternates" = d !! "alternates") as Ealt
    by (unfold d1; by rewrite lookup_insert_ne).
  rewrite Ealt. unfold parsed. fold d1.
  destruct (d !! "alternates") as [a|] eqn:Ea.
  - rewrite bool_decide_eq_true_2 by eauto. cbn [negb].
    rewrite (bind_getitem _ l d1 "alternates" a) by (done || by rewrite Ealt).
    destruct a as [sa|ba|la].
    + rewrite (setitem_eq _ l d1) by done. by rewrite set_heap_twice.
    + rewrite (setitem_eq _ l d1) by done. by rewrite set_heap_twice.
    + done.
  - rewrite bool_decide_eq_false_2 by (by intros [? ?]). cbn [negb].
    rewrite (setitem_eq _ l d1) by done. by rewrite set_heap_twice.
Qed.


Lemma parsed_same_entry (d : gmap string pyval) : same_entry d (parsed d).
Proof.
  unfold same_entry, frequency_of, parsed.
  destruct (d !! "alternates") as [[| |]|];
    rewrite ?lookup_insert_ne by done; done.
Qed.

Lemma parsed_required (d : gmap string pyval) :
  parsed d !! "required" = Some (VBool (required_flag d)).
Proof.
  unfold parsed. destruct (d !! "alternates") as [[| |]|];
    rewrite ?lookup_insert_ne by done; apply lookup_insert_eq.
Qed.

Lemma parsed_other (d : gmap string pyval) k :
  k ≠ "required" → k ≠ "alternates" → parsed d !! k = d !! k.
Proof.
  intros H1 H2. unfold parsed. destruct (d !! "alternates") as [[| |]|];
    rewrite ?lookup_insert_ne by done; done.
Qed.

Lemma parsed_alternates (d : gmap string pyval) :
  d !! "alternates" = None → parsed d !! "alternates" = Some (VList []).
Proof. intros H. unfold parsed. rewrite H. apply lookup_insert_eq. Qed.

Section parse.
Variable __file__ : string.
Local Abbreviation parse_raises := (parse_raises __file__).

Lemma parse_loop s0 varlist ds :
  Forall2 (λ l d, heap s0 !! l = Some d) varlist ds → Forall well_shaped ds →
  match for_each varlist tt (fun _ var => parse_entry __file__ var) s0 with
  | Ret _ s' => parse_inv s0 varlist ds (length varlist) s'
  | Raise e s' => parse_raises s0 ds e s'
  | Stuck => False
  end.
Proof.
  intros Hds Hws.
  apply (for_each_inv_gen varlist _ (parse_inv s0 varlist ds) (parse_raises s0 ds) False).
  - intros k l s Hk (Hout & Hen & Hfs & Hlen & Hinv & Hall).
    destruct (Forall2_lookup_l _ _ _ _ _ Hinv Hk) as (d & Hd & d' & Hl & Hsame).
    assert (well_shaped d) as [[f Hf] Hreq].
    { rewrite Forall_forall in Hws. apply Hws. by eapply list_elem_of_lookup_2. }
    destruct Hsame as [Hsf Hsr].
    rewrite (parse_entry_eq __file__ s l d' f) by (by rewrite ?Hsf, ?Hsr).
    destruct (bool_decide (f ∈ frequency_options)) eqn:Eb.
    + apply bool_decide_eq_true in Eb.
      repeat split; simpl; try done; [by rewrite length_insert| |].
      * eapply Forall2_impl; [exact Hinv|]. intros l0 d0 (d0' & Hl0 & Hs0).
        destruct (decide (l0 = l)) as [->|Hne].
        -- exists (parsed d'). rewrite list_lookup_insert_eq by (by eapply lookup_lt_Some).
           split; [done|]. rewrite Hl in Hl0. inversion Hl0; subst d0'.
           destruct (parsed_same_entry d') as [P1 P2], Hs0 as [Q1 Q2].
           split; congruence.
        -- exists d0'. by rewrite list_lookup_insert_ne.
      * rewrite (take_S_r _ _ _ Hd). apply Forall_app. split; [done|].
        apply Forall_singleton. by exists f.
    + apply bool_decide_eq_false in Eb. repeat split; [done|eauto|].
      apply Exists_exists. exists d. split; [by eapply list_elem_of_lookup_2|].
      intros (f' & Hf' & Hin). congruence.
  - repeat split; try done.
    eapply Forall2_impl; [exact Hds|]. intros l d Hl. by exists d.
Qed.

(** C6 *)
Theorem frequency_is_validated_at_construction
    (self : Diagnostic.t) (varlist : list loc) (ds : list (gmap string pyval))
    (s : pystate) :
  Forall2 (λ l d, heap s !! l = Some d) varlist ds → Forall well_shaped ds →
  ((∃ msg s', __init__ __file__ self varlist s = Raise (AssertionError msg) s')
     ↔ Exists (λ d, ¬ allowed_frequency d) ds) ∧
  ((∃ obj s', __init__ __file__ self varlist s = Ret obj s')
     ↔ Forall allowed_frequency ds) ∧
  (∀ e s', __init__ __file__ self varlist s = Raise e s' →
     stdout s' = stdout s ∧
     ∃ f, e = AssertionError (assertion_message __file__ f) ∧ f ∉ frequency_options).
Proof.
  intros Hds Hws. pose proof (parse_loop s varlist ds Hds Hws) as L.
  assert (length varlist = length ds) as Hlen by (by eapply Forall2_length).
  assert (Forall allowed_frequency ds → Exists (λ d, ¬ allowed_frequency d) ds → False)
    as Hexcl.
  { intros Ha He. apply Exists_exists in He as (d & Hin & Hn). apply Hn.
    rewrite Forall_forall in Ha. by apply Ha. }
  unfold __init__, _parse_pod_varlist, bind.
  destruct (for_each varlist tt _ s) as [[] s1|e s1|]; [| |done].
  - destruct L as (Hout & _ & _ & _ & _ & Hall). rewrite Hlen, firstn_all in Hall.
    split; [|split].
    + split; [by intros (? & ? & ?)|]. intros He. destruct (Hexcl Hall He).
    + split; [done|]. intros _. eauto.
    + intros e s' Heq. inversion Heq.
  - destruct L as (Hout & (f & -> & Hf) & Hex).
    split; [|split].
    + split; [done|]. intros _. eauto.
    + split; [by intros (? & ? & ?)|]. intros Ha. destruct (Hexcl Ha Hex).
    + intros e s' Heq. inversion Heq; subst. eauto.
Qed.
End parse.


Lemma for_each_app {St A B} (xs ys : list A) (acc : B) (body : B → A → M St B) s :
  for_each (xs ++ ys) acc body s =
    bind (for_each xs acc body) (fun acc' => for_each ys acc' body) s.
Proof.
  revert acc s. induction xs as [|x xs IH]; intros acc s; [done|].
  cbn [app for_each]. unfold bind.
  destruct (body acc x s) as [a s'|e s'|]; [|done|done]. by rewrite IH.
Qed.

Section optional.
Variables (env : gmap string string) (disk : string → bool).
Variables (casename datadir : string).
Hypothesis Hcase : env !! "CASENAME" = Some casename.
Hypothesis Hdata : env !! "DATADIR" = Some datadir.

Lemma item_files_optional rec (d : gmap string pyval) n f r lists :
  d !! "name_in_model" = Some (VStr n) → d !! "freq" = Some (VStr f) →
  d !! "required" = Some r → truthy r = false →
  disk (data_path datadir casename f n) = false →
  item_files env disk rec lists d tt = Ret lists tt.
Proof.
  intros Hn Hf Hr Ht Hd. destruct lists as [fl ml].
  unfold item_files, bind, dget, env_get.
  rewrite Hn, Hf, Hcase, Hdata. simpl.
  fold (data_path datadir casename f n). rewrite Hd, Hr. simpl. by rewrite Ht.
Qed.

Lemma varlist_files_skip fuel (ds1 ds2 : list (gmap string pyval)) d :
  (∀ rec lists, item_files env disk rec lists d tt = Ret lists tt) →
  varlist_files env disk fuel (ds1 ++ d :: ds2) tt
  = varlist_files env disk fuel (ds1 ++ ds2) tt.
Proof.
  intros Hd. destruct fuel as [|fuel]; [done|]. cbn [varlist_files].
  unfold bind. rewrite !for_each_app. unfold bind.
  destruct (for_each ds1 _ _ tt) as [acc []|e []|]; [|done|done].
  cbn [for_each]. unfold bind. by rewrite Hd.
Qed.
End optional.

Lemma varlist_files_single env disk fuel (d : gmap string pyval) :
  varlist_files env disk (S fuel) [d] tt =
    match item_files env disk (varlist_files env disk fuel) ([], []) d tt with
    | Ret (found_list, missing_list) _ =>
        Ret (mkFiles (filter (λ x, nonempty x = true) found_list)
                     (filter (λ x, nonempty x = true) missing_list)) tt
    | Raise e _ => Raise e tt
    | Stuck => Stuck
    end.
Proof.
  change (varlist_files env disk (S fuel) [d] tt) with
    (bind (bind (item_files env disk (varlist_files env disk fuel) ([], []) d)
                (fun acc' => ret acc'))
          (fun lists => let '(found_list, missing_list) := lists in
             ret (mkFiles (filter (λ x, nonempty x = true) found_list)
                          (filter (λ x, nonempty x = true) missing_list))) tt).
  unfold bind. by destruct (item_files _ _ _ _ d tt) as [[? ?] []|? []|].
Qed.


(** C10 *)
Theorem entry_without_requirement_is_optional
    (__file__ : string) (fuel : nat) (s : pystate) (l : loc) (d : gmap string pyval)
    (n f c dd : string) :
  heap s !! l = Some d → d !! "requirement" = None →
  d !! "name_in_model" = Some (VStr n) → d !! "freq" = Some (VStr f) →
  f ∈ frequency_options →
  environ s !! "CASENAME" = Some c → environ s !! "DATADIR" = Some dd →
  isfile s (data_path dd c f n) = false →
  ∃ s1 d1,
    _parse_pod_varlist __file__ [l] s = Ret [l] s1 ∧
    heap s1 !! l = Some d1 ∧ d1 !! "required" = Some (VBool false) ∧
    (∃ s2, _check_for_varlist_files (S fuel) [l] s1 = Ret (mkFiles [] []) s2) ∧
    (∀ before after,
       Forall (λ l', l' < length (heap s1)) (before ++ after) →
       result_of (_check_for_varlist_files (S (S fuel)) (before ++ l :: after) s1)
       = result_of (_check_for_varlist_files (S (S fuel)) (before ++ after) s1)).
Proof.
  intros Hl Hreq Hn Hf Hin Hc Hd Hfile.
  assert (frequency_of d = Some f) as Hfq by (unfold frequency_of; by rewrite Hf).
  exists (set_heap (<[l := parsed d]> (heap s)) s), (parsed d).
  assert (heap (set_heap (<[l := parsed d]> (heap s)) s) !! l = Some (parsed d)) as Hl1
    by (by eapply set_heap_lookup).
  assert (parsed d !! "required" = Some (VBool false)) as Hr.
  { rewrite parsed_required. unfold required_flag. by rewrite Hreq. }
  assert (∀ rec lists,
    item_files (environ s) (isfile s) rec lists (parsed d) tt = Ret lists tt) as Hskip.
  { intros rec lists.
    apply (item_files_optional _ _ c dd Hc Hd rec (parsed d) n f (VBool false)); try done.
    - by rewrite parsed_other.
    - by rewrite parsed_other. }
  split; [|split; [done|split; [done|split]]].
  - unfold _parse_pod_varlist. cbn [for_each]. unfold bind.
    rewrite (parse_entry_eq __file__ s l d f) by (done || by rewrite Hreq).
    by rewrite bool_decide_eq_true_2.
  - pose proof (check_agree (S fuel) [l] [parsed d] _ ltac:(by repeat constructor)) as A.
    cbn [environ isfile set_heap] in A.
    rewrite varlist_files_single, Hskip in A.
    destruct (_check_for_varlist_files (S fuel) [l] _) as [fs s2|e s2|];
      simpl in A; [|by destruct A|done].
    destruct A as [A _]. inversion A. eauto.
  - intros before after Hv. apply Forall_app in Hv as [Hb Ha].
    destruct (valid_locs _ _ Hb) as [ds1 Hds1]. destruct (valid_locs _ _ Ha) as [ds2 Hds2].
    pose proof (check_agree (S (S fuel)) (before ++ l :: after) (ds1 ++ parsed d :: ds2) _
      ltac:(apply Forall2_app; [done|by constructor])) as A1.
    pose proof (check_agree (S (S fuel)) (before ++ after) (ds1 ++ ds2) _
      ltac:(by apply Forall2_app)) as A2.
    apply agree_result in A1, A2. rewrite A1, A2.
    cbn [environ isfile set_heap]. by rewrite varlist_files_skip.
Qed.



End resolver.

(** ** The manager *)

Section manager.
Import shared_diagnostic environment_manager Batch.


Lemma for_each_inv {St A} (xs : list A) (body : A → M St unit)
    (I : nat → St → Prop) (E : exn → St → Prop) :
  (∀ k x s, xs !! k = Some x → I k s →
     match body x s with
     | Ret _ s' => I (S k) s' | Raise e s' => E e s' | Stuck => False
     end) →
  ∀ s, I 0 s →
    match for_each xs tt (fun _ x => body x) s with
    | Ret _ s' => I (length xs) s' | Raise e s' => E e s' | Stuck => False
    end.
Proof. apply for_each_inv_gen. Qed.

Lemma finish_pod_eq i p s :
  pods s !! i = Some p →
  finish_pod i s = Ret tt (with_pods (<[i := release p]> (pods s)) (add_events (release_events p) s)).
Proof.
  intros Hp. unfold finish_pod, bind at 1, get_pod. rewrite Hp.
  destruct s as [ps es cs [tr nh]]. destruct p as [? ? ? ? ? ? ? ? ? ? ? ? ? po lo].
  unfold release, release_events, with_pods, add_events. simpl in *.
  destruct po as [pid|], lo as [fd|]; simpl; unfold bind, in_world, emit, set_pod, ret; simpl.
  - rewrite list_insert_insert_eq. by rewrite <- app_assoc.
  - done.
  - done.
  - rewrite app_nil_r. rewrite (list_insert_id ps i); done.
Qed.

Lemma add_events_nil s : add_events [] s = s.
Proof. destruct s as [? ? ? [? ?]]. unfold add_events. simpl. by rewrite app_nil_r. Qed.

Lemma finish_loop_from m : ∀ k s,
  k + m = length (pods s) →
  for_each (seq k m) tt (fun _ i => finish_pod i) s =
    Ret tt (with_pods (take k (pods s) ++ (release <$> drop k (pods s)))
              (add_events (concat (release_events <$> drop k (pods s))) s)).
Proof.
  induction m as [|m IH]; intros k s Hk.
  - simpl. rewrite drop_ge, take_ge by lia. simpl. rewrite app_nil_r, add_events_nil.
    by destruct s.
  - destruct (lookup_lt_is_Some_2 (pods s) k) as [p Hp]; [lia|].
    cbn [seq for_each]. unfold bind. rewrite (finish_pod_eq k p s Hp).
    rewrite IH by (simpl; rewrite length_insert; lia).
    f_equal. destruct s as [ps es cs [tr nh]]. unfold with_pods, add_events. simpl in *.
    rewrite (take_S_r (<[k:=release p]> ps) k (release p))
      by (apply list_lookup_insert_eq; lia).
    rewrite take_insert_ge, drop_insert_lt by lia.
    rewrite (drop_S ps p k Hp). simpl.
    rewrite <- !app_assoc. done.
Qed.

Lemma finish_loop s :
  for_each (seq 0 (length (pods s))) tt (fun _ i => finish_pod i) s =
    Ret tt (with_pods (release <$> pods s)
              (add_events (concat (release_events <$> pods s)) s)).
Proof. by rewrite (finish_loop_from (length (pods s)) 0 s). Qed.

Section run.
Context {T : Type} `{EnvironmentManager T}.
Variables (sys : os) (CODE_ROOT : string) (self : T) (test_mode : bool).
Variable pod_setUp : Diagnostic.t → exn + Diagnostic.t.
Local Abbreviation job_argv := (job_argv CODE_ROOT self test_mode).
Local Abbreviation event_ok := (event_ok sys CODE_ROOT self test_mode).
Local Abbreviation spawned := (spawned sys CODE_ROOT self test_mode).
Local Abbreviation loop1_inv := (loop1_inv sys CODE_ROOT self test_mode).
Local Abbreviation run_raises := (run_raises sys pod_setUp).

Lemma run_pod_eq i p s :
  pods s !! i = Some p →
  run_pod sys CODE_ROOT self test_mode pod_setUp i s =
    let s := add_call (CallPodSetUp i) s in
    match pod_setUp p with
    | inl e => Raise e s
    | inr p1 =>
      if bool_decide (Diagnostic.missing_files p1 = []) then
        if open_fails sys (log_path p1) then Raise IOError (with_pods (<[i := p1]> (pods s)) s)
        else
          let fd := next_handle (the_world s) in
          let p2 := Diagnostic.set_logfile_obj (Some fd) p1 in
          let head := [EvOpen i (log_path p1) fd;
                       EvPrint ("Calling :  " +:+ pod_run_command test_mode p2);
                       EvPrint ("Will run in env: " +:+ Diagnostic.env p2)] in
          if popen_fails sys (job_argv p2) then
            Ret tt (bump 1 (with_pods (<[i := p2]> (pods s))
              (add_events (head ++ [EvPopenError (Some i) (job_argv p2);
                                    EvPrint "ERROR :";
                                    EvPrint (" occured with call: " +:+ pod_run_command test_mode p2)]) s)))
          else
            Ret tt (bump 2 (with_pods (<[i := Diagnostic.set_process_obj (Some (S fd)) p2]> (pods s))
              (add_events (head ++ [EvPopen (Some i) (job_argv p2)
                                      (Some (Diagnostic.POD_WK_DIR p2)) (Some fd) (S fd)]) s)))
      else Ret tt (with_pods (<[i := p1]> (pods s)) s)
    end.
Proof.
  intros Hp. unfold run_pod, bind at 1, get_pod. rewrite Hp.
  destruct s as [ps es cs [tr nh]]. cbn zeta.
  unfold bind at 1. unfold record_call at 1. unfold add_call. cbn [pods envs calls the_world].
  unfold bind at 1. destruct (pod_setUp p) as [e|p1]; [done|]. cbn [lift ret].
  unfold bind at 1. unfold set_pod at 1. cbn [pods envs calls the_world].
  destruct (bool_decide (Diagnostic.missing_files p1 = [])); cbn [negb]; [|done].
  unfold bind at 1. unfold in_world at 1, open. cbn [pods envs calls the_world].
  fold (log_path p1).
  destruct (open_fails sys (log_path p1)); [done|].
  unfold fresh_handle, emit, bind, ret, set_pod, in_world, print, emit, subprocess_Popen, with_pods, add_events, bump.
  cbn [pods envs calls the_world trace next_handle].
  fold (job_argv (Diagnostic.set_logfile_obj (Some nh) p1)).
  destruct p1; cbn.
  destruct (popen_fails sys _); cbn; rewrite ?list_insert_insert_eq, <- ?app_assoc; done.
Qed.

Lemma event_ok_mono ps k p ev :
  k < length ps → event_ok ps k ev → event_ok (<[k := p]> ps) (S k) ev.
Proof.
  intros Hk. destruct ev as [line|cmd|i path fd|o argv cwd out pid|o argv|pid|fd]; simpl; try done.
  - intros (Hj & pd & H1 & H2). split; [lia|]. exists pd.
    rewrite list_lookup_insert_ne by lia. done.
  - intros (j & pd & q & -> & Hj & H1 & H2). exists j, pd, q.
    rewrite list_lookup_insert_ne by lia. repeat split; try done; try lia; apply H2.
  - intros (j & pd & q & -> & Hj & H1 & H2). exists j, pd, q.
    rewrite list_lookup_insert_ne by lia. repeat split; try done; try lia; apply H2.
Qed.

Lemma release_set_process v p : release (Diagnostic.set_process_obj v p) = release p.
Proof. by destruct p. Qed.
Lemma release_set_logfile v p : release (Diagnostic.set_logfile_obj v p) = release p.
Proof. by destruct p. Qed.

Lemma run_pod_inv s0 k s :
  k < length (pods s0) → loop1_inv s0 k s →
  match run_pod sys CODE_ROOT self test_mode pod_setUp k s with
  | Ret _ s' => loop1_inv s0 (S k) s'
  | Raise e s' => run_raises e s'
  | Stuck => False
  end.
Proof.
  intros Hk (Hlen & Hes & Hcalls & Hrest & evs & Htr & Hok & Hsp).
  destruct (lookup_lt_is_Some_2 (pods s) k) as [p Hp]; [lia|].
  rewrite (run_pod_eq k p s Hp). cbn zeta.
  destruct (pod_setUp p) as [e|p1] eqn:Esu; [left; eauto|].
  assert (∀ p', Forall (event_ok (<[k:=p']> (pods s)) (S k)) evs) as Hok'.
  { intros p'. eapply Forall_impl; [done|]. intros ev. apply event_ok_mono. lia. }
  assert (∀ p' evs', (Diagnostic.missing_files p' = [] → spawned k p' (evs ++ evs')) →
     ∀ (j : nat) pod, j < S k → <[k:=p']> (pods s) !! j = Some pod →
       Diagnostic.missing_files pod = [] → spawned j pod (evs ++ evs')) as Hsp'.
  { intros p' evs' Hnew j pod Hj Hpod Hm. destruct (decide (j = k)) as [->|Hne].
    - rewrite list_lookup_insert_eq in Hpod by lia. inversion Hpod; subst. by apply Hnew.
    - rewrite list_lookup_insert_ne in Hpod by done.
      destruct (Hsp j pod) as (fd & q & Hq & Ho & Hs); [lia|done|done|].
      exists fd, q. split; [done|]. split; [set_solver|].
      destruct (popen_fails sys (job_argv q)); [set_solver|].
      destruct Hs as [pid Hs]. exists pid. set_solver. }
  assert (calls s ++ [CallPodSetUp k] = calls s0 ++ (CallPodSetUp <$> seq 0 (S k))) as Hcalls'.
  { rewrite Hcalls, seq_S, fmap_app, app_assoc. done. }
  assert (∀ p' (j : nat), (S k ≤ j)%nat → <[k:=p']> (pods s) !! j = pods s0 !! j) as Hrest'.
  { intros p' j Hj. rewrite list_lookup_insert_ne by lia. apply Hrest. lia. }
  destruct (bool_decide (Diagnostic.missing_files p1 = [])) eqn:Em.
  2:{ (* skipped *)
    apply bool_decide_eq_false in Em.
    repeat split; simpl; [by rewrite length_insert|done|done|apply Hrest'|].
    exists evs. split; [done|]. split; [apply Hok'|].
    specialize (Hsp' p1 []). rewrite app_nil_r in Hsp'. apply Hsp'. done. }
  apply bool_decide_eq_true in Em.
  destruct (open_fails sys (log_path p1)) eqn:Eo; [right; eauto|].
  set (fd := next_handle (the_world (add_call (CallPodSetUp k) s))).
  set (p2 := Diagnostic.set_logfile_obj (Some fd) p1).
  assert (Diagnostic.missing_files p2 = []) as Em2 by (by destruct p1).
  assert (log_path p2 = log_path p1) as Elp by (by destruct p1).
  destruct (popen_fails sys (job_argv p2)) eqn:Ep.
  - repeat split; simpl; [by rewrite length_insert|done|done|apply Hrest'|].
    eexists. split; [rewrite Htr, <- app_assoc; reflexivity|].
    split.
    + apply Forall_app. split; [apply Hok'|].
      repeat apply Forall_cons_2; try apply Forall_nil_2; try done; simpl.
      * split; [lia|]. exists p2. rewrite list_lookup_insert_eq by lia.
        repeat split; try done; by destruct p1.
      * exists k, p2, p2. rewrite list_lookup_insert_eq by lia. repeat split; try done; lia.
    + apply Hsp'. intros _. exists fd, p2. split; [done|]. rewrite Elp.
      split; [set_solver|]. rewrite Ep. set_solver.
  - repeat split; simpl; [by rewrite length_insert|done|done|apply Hrest'|].
    eexists. split; [rewrite Htr, <- app_assoc; reflexivity|].
    split.
    + apply Forall_app. split; [apply Hok'|].
      repeat apply Forall_cons_2; try apply Forall_nil_2; try done; simpl.
      * split; [lia|]. eexists. rewrite list_lookup_insert_eq by lia.
        split; [done|]. by destruct p1.
      * exists k, (Diagnostic.set_process_obj (Some (S fd)) p2), p2.
        rewrite list_lookup_insert_eq by lia.
        repeat split; try done; try lia; try (by destruct p1); eauto.
    + apply Hsp'. intros _. exists fd, p2.
      split; [by destruct p1|]. split; [destruct p1; set_solver|].
      rewrite Ep. exists (S fd). destruct p1; set_solver.
Qed.

Lemma run_eq s :
  run sys CODE_ROOT self test_mode pod_setUp s =
    match for_each (seq 0 (length (pods s))) tt
            (fun _ i => run_pod sys CODE_ROOT self test_mode pod_setUp i) s with
    | Ret _ s1 => for_each (seq 0 (length (pods s))) tt (fun _ i => finish_pod i) s1
    | Raise e s1 => Raise e s1
    | Stuck => Stuck
    end.
Proof. reflexivity. Qed.

Lemma run_first_loop s0 :
  match for_each (seq 0 (length (pods s0))) tt
          (fun _ i => run_pod sys CODE_ROOT self test_mode pod_setUp i) s0 with
  | Ret _ s1 => loop1_inv s0 (length (pods s0)) s1
  | Raise e s1 => run_raises e s1
  | Stuck => False
  end.
Proof.
  pose proof (for_each_inv (seq 0 (length (pods s0)))
    (run_pod sys CODE_ROOT self test_mode pod_setUp)
    (loop1_inv s0) run_raises) as L.
  rewrite length_seq in L. apply L.
  - intros k x s Hx Hinv. apply lookup_seq in Hx as [-> Hk]. simpl.
    by apply run_pod_inv.
  - repeat split; simpl; try done; [by rewrite app_nil_r|].
    exists []. rewrite app_nil_r. repeat split; [done|]. intros; lia.
Qed.

(** What [run] leaves behind when it returns. *)
Lemma run_spec s0 :
  match run sys CODE_ROOT self test_mode pod_setUp s0 with
  | Ret _ s2 =>
      ∃ ps1 evs1,
        pods s2 = release <$> ps1 ∧ length ps1 = length (pods s0) ∧
        envs s2 = envs s0 ∧
        calls s2 = calls s0 ++ (CallPodSetUp <$> seq 0 (length (pods s0))) ∧
        trace (the_world s2) =
          trace (the_world s0) ++ evs1 ++ concat (release_events <$> ps1) ∧
        Forall (event_ok ps1 (length (pods s0))) evs1 ∧
        (∀ (j : nat) pod, ps1 !! j = Some pod →
           Diagnostic.missing_files pod = [] → spawned j pod evs1)
  | Raise e s' => run_raises e s'
  | Stuck => False
  end.
Proof.
  rewrite run_eq. pose proof (run_first_loop s0) as L1.
  destruct (for_each _ _ _ s0) as [[] s1|e s1|]; [|done|done].
  destruct L1 as (Hlen & Hes & Hcalls & _ & evs & Htr & Hok & Hsp).
  rewrite <- Hlen, finish_loop.
  exists (pods s1), evs. simpl. rewrite Hlen.
  repeat split; try done.
  - rewrite Htr, <- app_assoc. done.
  - intros j pod Hj. apply Hsp; [|done]. apply lookup_lt_Some in Hj. lia.
Qed.

Lemma run_returns s0 :
  (∀ p, ∃ p', pod_setUp p = inr p') → (∀ path, open_fails sys path = false) →
  ∃ s2, run sys CODE_ROOT self test_mode pod_setUp s0 = Ret tt s2.
Proof.
  intros Hsu Hop. pose proof (run_spec s0) as L.
  destruct (run _ _ _ _ _ s0) as [[] s2|e s2|]; [eauto| |done].
  destruct L as [[p Hp] | [_ [path Hpath]]].
  - destruct (Hsu p) as [p' Hp']. congruence.
  - rewrite Hop in Hpath. done.
Qed.
End run.


Section setUp.
Context {T : Type} `{EnvironmentManager T}.
Variables (sys : os) (self : T).
Local Abbreviation bound_env := (bound_env self).

Lemma bind_loop_eq m : ∀ k s s0,
  k + m = length (pods s0) →
  pods s = (set_pod_env self <$> take k (pods s0)) ++ drop k (pods s0) →
  for_each (seq k m) tt (fun _ i =>
      pod <- get_pod i ;;
      let pod := set_pod_env self pod in
      set_pod i pod ;;;
      envs_add (Diagnostic.env pod)) s
  = Ret tt (mkSt (set_pod_env self <$> pods s0)
              (list_to_set (bound_env <$> drop k (pods s0)) ∪ envs s)
              (calls s) (the_world s)).
Proof.
  induction m as [|m IH]; intros k s s0 Hk Hps.
  - simpl. rewrite drop_ge in * by lia. rewrite take_ge in Hps by lia.
    rewrite app_nil_r in Hps. simpl. rewrite (left_id_L ∅ (∪)).
    destruct s; simpl in *. by subst.
  - destruct (lookup_lt_is_Some_2 (pods s0) k) as [p Hp]; [lia|].
    assert (length (set_pod_env self <$> take k (pods s0)) = k) as Hlen.
    { rewrite length_fmap, length_take. lia. }
    assert (pods s !! k = Some p) as Hpk.
    { rewrite Hps, lookup_app_r, Hlen, Nat.sub_diag by lia.
      by rewrite (drop_S _ p k Hp). }
    cbn [seq for_each]. unfold bind at 1. unfold bind at 1. unfold get_pod at 1.
    rewrite Hpk. unfold bind at 1. unfold set_pod at 1. unfold envs_add at 1.
    cbn [pods envs calls the_world].
    rewrite (IH (S k) _ s0); cbn [pods envs calls the_world].
    + f_equal. f_equal. rewrite (drop_S _ p k Hp). rewrite fmap_cons, list_to_set_cons.
      unfold bound_env at 1. set_solver.
    + lia.
    + rewrite Hps, (drop_S _ p k Hp), (take_S_r _ k p Hp), fmap_app.
      rewrite insert_app_r_alt, Hlen, Nat.sub_diag by lia. simpl.
      by rewrite <- app_assoc.
Qed.

Lemma setUp_eq s0 :
  setUp sys self s0 =
    let es := list_to_set (bound_env <$> pods s0) ∪ envs s0 in
    for_each (elements es) tt (fun _ env =>
        record_call (CallCreateEnvironment env) ;;;
        in_world (create_environment sys self env))
      (mkSt (set_pod_env self <$> pods s0) es (calls s0) (the_world s0)).
Proof.
  unfold setUp. unfold bind at 1. unfold positions at 1. unfold bind at 1.
  pose proof (bind_loop_eq (length (pods s0)) 0 s0 s0 eq_refl eq_refl) as E.
  cbv zeta in E. rewrite E. clear E.
  unfold bind at 1. unfold get_envs at 1. cbn [pods envs calls the_world]. done.
Qed.

Lemma create_loop xs s1 :
  match for_each xs tt (fun _ env =>
          record_call (CallCreateEnvironment env) ;;;
          in_world (create_environment sys self env)) s1 with
  | Ret _ s' => create_inv s1 xs (length xs) s'
  | Raise e s' => ∃ k, create_inv s1 xs k s'
  | Stuck => True
  end.
Proof.
  apply (for_each_inv_gen xs _ (create_inv s1 xs) (fun _ s' => ∃ k, create_inv s1 xs k s')).
  - intros k x s Hx (Hp & He & Hc). unfold bind, record_call, in_world. simpl.
    destruct (create_environment sys self x (the_world s)) as [[] w|e w|]; [| |done].
    + repeat split; simpl; try done.
      rewrite (take_S_r _ _ _ Hx), fmap_app, Hc, <- app_assoc. done.
    + exists (S k). repeat split; simpl; try done.
      rewrite (take_S_r _ _ _ Hx), fmap_app, Hc, <- app_assoc. done.
  - repeat split. simpl. by rewrite app_nil_r.
Qed.
End setUp.

Lemma count_call_app c cs1 cs2 :
  count_call c (cs1 ++ cs2) = count_call c cs1 + count_call c cs2.
Proof. unfold count_call. by rewrite filter_app, length_app. Qed.

Lemma count_call_fmap_NoDup {A} `{EqDecision A} (f : A → call) (x : A) (xs : list A) :
  (∀ a b, f a = f b → a = b) → NoDup xs →
  count_call (f x) (f <$> xs) = if bool_decide (x ∈ xs) then 1 else 0.
Proof.
  intros Hinj. unfold count_call. induction 1 as [|y xs Hy Hnd IH]; [done|].
  rewrite fmap_cons, filter_cons. destruct (decide (f y = f x)) as [Heq|Hne].
  - apply Hinj in Heq. subst y. simpl. rewrite IH.
    rewrite (bool_decide_eq_false_2 (x ∈ xs)) by done.
    rewrite bool_decide_eq_true_2; [done|]. apply list_elem_of_here.
  - rewrite IH. destruct (decide (x ∈ xs)) as [Hin|Hnin].
    + rewrite !bool_decide_eq_true_2; [done|by apply list_elem_of_further|done].
    + rewrite !bool_decide_eq_false_2; [done| |done].
      intros Hc. apply elem_of_cons in Hc as [->|]; done.
Qed.

Lemma count_call_fmap_other {A} (f : A → call) (c : call) (xs : list A) :
  (∀ a, f a ≠ c) → count_call c (f <$> xs) = 0.
Proof.
  intros Hne. unfold count_call. induction xs as [|y xs IH]; [done|].
  rewrite fmap_cons, filter_cons. destruct (decide (f y = c)); [by destruct (Hne y)|done].
Qed.

Section tearDown.
Context {T : Type} `{EnvironmentManager T}.
Variables (sys : os) (self : T).
Variable pod_tearDown : Diagnostic.t → exn + Diagnostic.t.

Lemma teardown_loop s0 :
  match for_each (seq 0 (length (pods s0))) tt (fun _ i =>
          pod <- get_pod i ;;
          record_call (CallPodTearDown i) ;;;
          pod <- lift (pod_tearDown pod) ;;
          set_pod i pod) s0 with
  | Ret _ s' => teardown_inv s0 (length (pods s0)) s'
  | Raise _ _ => True
  | Stuck => False
  end.
Proof.
  pose proof (for_each_inv (seq 0 (length (pods s0)))
    (fun i => pod <- get_pod i ;; record_call (CallPodTearDown i) ;;;
              pod <- lift (pod_tearDown pod) ;; set_pod i pod)
    (teardown_inv s0) (fun _ _ => True)) as L.
  rewrite length_seq in L. apply L; clear L.
  - intros k x s Hx (Hlen & Hes & Hw & Hc). apply lookup_seq in Hx as [-> Hk].
    cbn [Nat.add]. destruct (lookup_lt_is_Some_2 (pods s) k) as [p Hp]; [lia|].
    unfold bind, get_pod, record_call. rewrite Hp. cbn [pods envs calls the_world].
    destruct (pod_tearDown p) as [e|p']; cbn [lift raise ret]; [done|].
    unfold set_pod, teardown_inv. cbn [pods envs calls the_world].
    rewrite length_insert, Hc, seq_S, fmap_app, <- app_assoc. done.
  - unfold teardown_inv. cbn [seq fmap list_fmap]. by rewrite app_nil_r.
Qed.

Lemma destroy_loop xs s1 :
  match for_each xs tt (fun _ env =>
          record_call (CallDestroyEnvironment env) ;;;
          in_world (destroy_environment sys self env)) s1 with
  | Ret _ s' => destroy_inv s1 xs (length xs) s'
  | _ => True
  end.
Proof.
  apply (for_each_inv_gen xs _ (destroy_inv s1 xs) (fun _ _ => True) True).
  - intros k x s Hx (Hp & He & Hcs). unfold bind, record_call, in_world.
    cbn [pods envs calls the_world].
    destruct (destroy_environment sys self x (the_world s)) as [[] w|e w|]; [|done|done].
    unfold destroy_inv. cbn [pods envs calls the_world].
    by rewrite (take_S_r _ _ _ Hx), fmap_app, Hcs, <- app_assoc.
  - unfold destroy_inv. cbn [take fmap list_fmap]. by rewrite app_nil_r.
Qed.

Lemma tearDown_spec s0 :
  match tearDown sys self pod_tearDown s0 with
  | Ret _ s' =>
      length (pods s') = length (pods s0) ∧ envs s' = envs s0 ∧
      calls s' = calls s0 ++ (CallPodTearDown <$> seq 0 (length (pods s0)))
                   ++ (CallDestroyEnvironment <$> elements (envs s0))
  | _ => True
  end.
Proof.
  unfold tearDown. unfold bind at 1. unfold positions at 1. unfold bind at 1.
  pose proof (teardown_loop s0) as L.
  destruct (for_each _ _ _ s0) as [[] s1|e s1|]; [|done|done].
  destruct L as (Hlen & Hes & Hw & Hc).
  unfold bind at 1. unfold get_envs at 1.
  pose proof (destroy_loop (elements (envs s1)) s1) as L.
  destruct (for_each _ _ _ s1) as [[] s2|e s2|]; [|done|done].
  destruct L as (Hp & He & Hcs). rewrite firstn_all in Hcs.
  rewrite Hp, He, Hcs, Hc, Hes, Hlen, <- app_assoc. done.
Qed.
End tearDown.

Lemma nonempty_append_l a b : nonempty a = true → nonempty (a +:+ b) = true.
Proof. by destruct a. Qed.

Lemma join_nonempty sep (l : list string) :
  Forall (λ x, nonempty x = true) l → l ≠ [] → nonempty (join sep l) = true.
Proof.
  intros Hl Hne. destruct Hl as [|x l Hx Hl]; [done|].
  destruct l; simpl; [done|]. by apply nonempty_append_l.
Qed.

Lemma and_join_chain (commands : list string) : and_join commands = and_chain commands.
Proof.
  unfold and_join. induction commands as [|f rest IH]; [done|].
  rewrite filter_cons. cbn [and_chain].
  destruct (decide (nonempty f = true)) as [Hf|Hf]; unfold nonempty in Hf.
  - apply negb_true_iff in Hf. rewrite Hf, <- IH.
    destruct (filter (λ s, nonempty s = true) rest) as [|g l] eqn:El; [done|].
    assert (nonempty (join " && " (g :: l)) = true) as Hn.
    { apply join_nonempty; [|done]. rewrite <- El.
      apply Forall_forall. intros x Hx. by apply list_elem_of_filter in Hx as [? _]. }
    unfold nonempty in Hn. apply negb_true_iff in Hn. rewrite Hn. done.
  - apply not_true_is_false, negb_false_iff in Hf. by rewrite Hf.
Qed.


Lemma elem_of_concat_fmap {A B} (f : A → list B) (l : list A) i a b :
  l !! i = Some a → b ∈ f a → b ∈ concat (f <$> l).
Proof.
  revert i. induction l as [|y l IH]; intros i Hl Hb; [done|].
  rewrite fmap_cons. cbn [concat]. apply elem_of_app.
  destruct i as [|i]; simpl in Hl.
  - left. by inversion Hl; subst.
  - right. by apply (IH i).
Qed.

Lemma release_handles p :
  Diagnostic.process_obj (release p) = None ∧ Diagnostic.logfile_obj (release p) = None.
Proof. by destruct p. Qed.

Lemma release_missing p : Diagnostic.missing_files (release p) = Diagnostic.missing_files p.
Proof. by destruct p. Qed.

Lemma release_events_release (ps : list Diagnostic.t) :
  Forall (λ ev, is_release ev = true) (concat (release_events <$> ps)).
Proof.
  induction ps as [|p ps IH]; [constructor|].
  rewrite fmap_cons. cbn [concat]. apply Forall_app. split; [|done].
  unfold release_events.
  destruct (Diagnostic.process_obj p), (Diagnostic.logfile_obj p);
    repeat (apply Forall_cons_2; [reflexivity|]); apply Forall_nil_2.
Qed.

Section claims.
Context {T : Type} `{EnvironmentManager T}.
Variables (sys : os) (CODE_ROOT : string) (self : T) (test_mode : bool).
Variables pod_setUp pod_tearDown : Diagnostic.t → exn + Diagnostic.t.


(** C9, as the code has it: however the run phase goes for the single
    jobs (a job is skipped, its process is spawned, or the spawn fails
    with [OSError]), when [run] returns every job's [process_obj] and
    [logfile_obj] are [None], and the events of the run are those of the
    first loop, none of which releases a handle, followed by those of the
    join: every log file opened was closed and every process spawned was
    waited for, also the log file of a job whose spawn failed.  A failed
    spawn never makes [run] raise.  [run] leaves by an exception only
    when the [setUp] of a job raises or a log file cannot be opened, and
    nothing is said of the handles then. *)
Theorem run_releases_every_handle (s0 : state) :
  match run sys CODE_ROOT self test_mode pod_setUp s0 with
  | Ret _ s1 =>
      (∀ pod, pod ∈ pods s1 →
         Diagnostic.process_obj pod = None ∧ Diagnostic.logfile_obj pod = None) ∧
      ∃ evs1 evs2,
        trace (the_world s1) = trace (the_world s0) ++ evs1 ++ evs2 ∧
        Forall (λ ev, is_release ev = false) evs1 ∧
        Forall (λ ev, is_release ev = true) evs2 ∧
        (∀ i path fd, EvOpen i path fd ∈ evs1 → EvClose fd ∈ evs2) ∧
        (∀ o argv cwd out pid, EvPopen o argv cwd out pid ∈ evs1 → EvWait pid ∈ evs2) ∧
        (∀ o argv, EvPopenError o argv ∈ evs1 →
           ∃ i path fd, o = Some i ∧ EvOpen i path fd ∈ evs1 ∧ EvClose fd ∈ evs2)
  | Raise e _ =>
      (∃ p, pod_setUp p = inl e) ∨ (e = IOError ∧ ∃ path, open_fails sys path = true)
  | Stuck => False
  end.
Proof.
  pose proof (run_spec sys CODE_ROOT self test_mode pod_setUp s0) as L.
  destruct (run sys CODE_ROOT self test_mode pod_setUp s0) as [[] s1|e s1|];
    [|exact L|done].
  destruct L as (ps1 & evs1 & Hps & Hlen & _ & _ & Htr & Hok & Hsp).
  split.
  { intros pod Hin. rewrite Hps in Hin. apply list_elem_of_fmap in Hin as (p & -> & _).
    apply release_handles. }
  exists evs1, (concat (release_events <$> ps1)).
  rewrite Forall_forall in Hok.
  assert (∀ i path fd, EvOpen i path fd ∈ evs1 →
            EvClose fd ∈ concat (release_events <$> ps1)) as Hclose.
  { intros i path fd Hin.
    destruct (Hok _ Hin) as (_ & pod & Hpod & _ & Hlog & _).
    apply (elem_of_concat_fmap _ _ i pod); [done|].
    unfold release_events. rewrite Hlog. apply elem_of_app. right. apply list_elem_of_here. }
  split; [done|]. split; [|split; [apply release_events_release|split; [done|split]]].
  - apply Forall_forall. intros ev Hev. specialize (Hok ev Hev).
    by destruct ev.
  - intros o argv cwd out pid Hin.
    destruct (Hok _ Hin) as (j & pod & q & _ & _ & Hpod & _ & Hproc & _).
    apply (elem_of_concat_fmap _ _ j pod); [done|].
    unfold release_events. rewrite Hproc. apply elem_of_app. left. apply list_elem_of_here.
  - intros o argv Hin.
    destruct (Hok _ Hin) as (j & pod & q & -> & _ & Hpod & Hm & _).
    destruct (Hsp j pod Hpod Hm) as (fd & q' & _ & Hopen & _).
    exists j, (log_path pod), fd. split; [done|]. split; [done|]. by eapply Hclose.
Qed.
(** C8, as the code has it: a job that [run] leaves with a non-empty
    [missing_files] list was skipped, but bound all the same.  [setUp]
    binds every job to its environment and creates that environment
    before the files of any job are looked for: it did so for this job,
    once.  During [run] the job's [setUp] was called once, no log file
    was opened for it and no process was spawned, or tried, for it.
    And a [tearDown] that returns has called its [tearDown] once. *)
Theorem skipped_job_is_not_run_but_torn_down
    (sa s0 s1 s2 : state) (i : nat) (pod : Diagnostic.t) :
  setUp sys self sa = Ret tt s0 →
  run sys CODE_ROOT self test_mode pod_setUp s0 = Ret tt s1 →
  tearDown sys self pod_tearDown s1 = Ret tt s2 →
  pods s1 !! i = Some pod → Diagnostic.missing_files pod ≠ [] →
  (∃ p, pods sa !! i = Some p ∧ pods s0 !! i = Some (set_pod_env self p) ∧
     bound_env self p ∈ envs s0 ∧
     count_call (CallCreateEnvironment (bound_env self p))
       (drop (length (calls sa)) (calls s0)) = 1) ∧
  (∃ evs, trace (the_world s1) = trace (the_world s0) ++ evs ∧
     Forall (λ ev, opens_or_spawns i ev = false) evs) ∧
  Diagnostic.process_obj pod = None ∧ Diagnostic.logfile_obj pod = None ∧
  count_call (CallPodSetUp i) (drop (length (calls s0)) (calls s1)) = 1 ∧
  count_call (CallPodTearDown i) (drop (length (calls s1)) (calls s2)) = 1.
Proof.
  intros Hsu Hrun Htd Hpod Hmiss.
  pose proof (run_spec sys CODE_ROOT self test_mode pod_setUp s0) as L.
  rewrite Hrun in L.
  destruct L as (ps1 & evs1 & Hps & Hlen & _ & Hcalls & Htr & Hok & _).
  pose proof (tearDown_spec sys self pod_tearDown s1) as L2. rewrite Htd in L2.
  destruct L2 as (_ & _ & Hcalls2).
  assert (i < length (pods s0)) as Hi.
  { apply lookup_lt_Some in Hpod. rewrite Hps, length_fmap in Hpod. lia. }
  assert (length (pods s1) = length (pods s0)) as Hlen1.
  { by rewrite Hps, length_fmap. }
  split.
  { rewrite setUp_eq in Hsu. cbn zeta in Hsu.
    set (es := list_to_set (bound_env self <$> pods sa) ∪ envs sa) in Hsu.
    pose proof (create_loop sys self (elements es)
                  (mkSt (set_pod_env self <$> pods sa) es (calls sa) (the_world sa)))
      as L0.
    rewrite Hsu in L0. destruct L0 as (Hp0 & He0 & Hc0).
    cbn [pods envs calls] in Hp0, He0, Hc0.
    destruct (lookup_lt_is_Some_2 (pods sa) i) as [p Hp].
    { rewrite Hp0, length_fmap in Hi. exact Hi. }
    assert (bound_env self p ∈ es) as Hin.
    { apply elem_of_union. left. apply elem_of_list_to_set.
      apply list_elem_of_fmap. exists p. split; [done|].
      by apply list_elem_of_lookup_2 with i. }
    exists p. split; [exact Hp|]. split; [by rewrite Hp0, list_lookup_fmap, Hp|].
    split; [by rewrite He0|].
    rewrite Hc0, drop_app_length, firstn_all.
    rewrite (count_call_fmap_NoDup CallCreateEnvironment (bound_env self p)).
    - rewrite bool_decide_eq_true_2; [done|]. by apply elem_of_elements.
    - intros a b Hab. by inversion Hab.
    - apply NoDup_elements. }
  rewrite Hps, list_lookup_fmap in Hpod.
  destruct (ps1 !! i) as [p|] eqn:Ep; [|done]. simpl in Hpod. inversion Hpod; subst pod.
  rewrite release_missing in Hmiss.
  split; [|split; [apply release_handles|split; [apply release_handles|split]]].
  - exists (evs1 ++ concat (release_events <$> ps1)). split; [done|].
    apply Forall_app. split.
    + rewrite Forall_forall in Hok. apply Forall_forall. intros ev Hin.
      specialize (Hok ev Hin).
      destruct ev as [line|cmd|j path fd|o argv cwd out pid|o argv|pid|fd];
        cbn [event_ok opens_or_spawns] in *; try done.
      * destruct Hok as (_ & p' & Hp' & Hm & _).
        apply Nat.eqb_neq. intros ->. congruence.
      * destruct Hok as (j & p' & q & -> & _ & Hp' & Hm & _).
        apply Nat.eqb_neq. intros ->. congruence.
      * destruct Hok as (j & p' & q & -> & _ & Hp' & Hm & _).
        apply Nat.eqb_neq. intros ->. congruence.
    + eapply Forall_impl; [apply release_events_release|].
      intros ev Hev. by destruct ev.
  - rewrite Hcalls, drop_app_length.
    rewrite (count_call_fmap_NoDup CallPodSetUp i).
    + rewrite bool_decide_eq_true_2; [done|]. apply elem_of_seq. lia.
    + intros a b Hab. by inversion Hab.
    + apply NoDup_seq.
  - rewrite Hcalls2, drop_app_length, count_call_app.
    rewrite (count_call_fmap_NoDup CallPodTearDown i).
    + rewrite bool_decide_eq_true_2 by (apply elem_of_seq; lia).
      rewrite count_call_fmap_other; done.
    + intros a b Hab. by inversion Hab.
    + apply NoDup_seq.
Qed.


(** C5: with test mode on, the list of fragments of a job is the list
    with test mode off with its third entry, the run fragment, replaced
    by [echo "TEST MODE: would call <run command>"]; the activate,
    validate and deactivate fragments are the same. *)
Theorem test_mode_replaces_only_the_run_fragment (pod : Diagnostic.t) :
  command_list CODE_ROOT self true pod =
    <[2 := test_mode_command (run_command pod)]> (command_list CODE_ROOT self false pod) ∧
  command_list CODE_ROOT self false pod !! 2 = Some (run_command pod) ∧
  test_mode_command (run_command pod) =
    "echo " +:+ dquote +:+ "TEST MODE: would call " +:+ run_command pod +:+ dquote ∧
  command_list CODE_ROOT self true pod !! 0 = Some (activate_env_command self pod) ∧
  command_list CODE_ROOT self true pod !! 1 = Some (validate_command CODE_ROOT pod) ∧
  command_list CODE_ROOT self true pod !! 3 = Some (deactivate_env_command self pod) ∧
  length (command_list CODE_ROOT self true pod) = 4.
Proof. repeat split. Qed.
End claims.

(** *** The conda manager *)

Lemma conda_create_environment_spec sys (self : Conda) e w :
  match conda_create_environment sys self e w with
  | Ret _ w' =>
      ∃ evs, trace w' = trace w ++ evs ∧
        (needs_creation sys self e = true →
           path_exists sys (conda_spec_file self e) = true) ∧
        (needs_creation sys self e = true →
         popen_fails sys (conda_create_argv self e) = true →
         EvPopenError None (conda_create_argv self e) ∈ evs)
  | Raise ex _ =>
      ex = UnboundLocalError "conda_prefix" ∧ needs_creation sys self e = true ∧
      path_exists sys (conda_spec_file self e) = false
  | Stuck => False
  end.
Proof.
  unfold conda_create_environment, subprocess_call, bind at 1. unfold bind at 1.
  unfold emit at 1. cbn [ret].
  destruct (negb (Nat.eqb (call_status sys _) 0)) eqn:En.
  2:{ eexists. split; [reflexivity|].
      split; intros Hn;
        first [discriminate Hn | exfalso; exact (eq_true_false_abs _ Hn En)]. }
  unfold bind at 1. unfold print at 1, emit at 1.
  unfold _call_conda_create. unfold bind at 1.
  destruct (path_exists sys _) eqn:Ex; cbn [negb].
  2:{ unfold bind, print, emit, ret, raise. cbn [trace next_handle].
      split; [reflexivity|].
      split; [first [exact En|reflexivity] | first [exact Ex|reflexivity]]. }
  unfold bind at 1. unfold print at 1, emit at 1. cbn [ret].
  unfold bind at 1. cbn [ret]. unfold bind at 1. unfold subprocess_Popen.
  destruct (popen_fails sys _) eqn:Ep.
  - unfold bind, emit, ret, print, emit. cbn [trace next_handle].
    eexists. split; [rewrite <- !app_assoc; reflexivity|].
    split; [intros _; first [exact Ex|reflexivity]|]. intros _ _.
    apply elem_of_app. right. apply elem_of_app. right.
    apply elem_of_app. right. apply elem_of_app. left. apply list_elem_of_here.
  - unfold bind, fresh_handle, emit, ret. cbn [trace next_handle].
    eexists. split; [rewrite <- !app_assoc; reflexivity|].
    split; [intros _; first [exact Ex|reflexivity]|]. intros _ Hp.
    first [discriminate Hp | exfalso; exact (eq_true_false_abs _ Hp Ep)].
Qed.

Lemma conda_create_loop sys (self : Conda) (xs : list string) s1 :
  (∀ e, e ∈ xs → needs_creation sys self e = true →
        path_exists sys (conda_spec_file self e) = true) →
  match for_each xs tt (fun _ env =>
          record_call (CallCreateEnvironment env) ;;;
          in_world (create_environment sys self env)) s1 with
  | Ret _ s' =>
      pods s' = pods s1 ∧ envs s' = envs s1 ∧
      creation_inv sys self (the_world s1) xs (length xs) (the_world s')
  | Raise _ _ | Stuck => False
  end.
Proof.
  intros Hspec.
  apply (for_each_inv xs _
    (fun k s => pods s = pods s1 ∧ envs s = envs s1 ∧
                creation_inv sys self (the_world s1) xs k (the_world s))
    (fun _ _ => False)).
  - intros k x s Hx (Hp & He & evs & Htr & Hev).
    unfold bind, record_call, in_world.
    cbn [pods envs calls the_world create_environment CondaEnvironmentManager].
    pose proof (conda_create_environment_spec sys self x (the_world s)) as C.
    destruct (conda_create_environment sys self x (the_world s)) as [[] w'|ex w'|];
      [| |done].
    + destruct C as (evs' & Htr' & _ & Hev'). cbn [pods envs the_world].
      split; [done|]. split; [done|].
      exists (evs ++ evs'). split; [by rewrite Htr', Htr, app_assoc|].
      intros e Hin Hn Hpf. rewrite (take_S_r _ _ _ Hx) in Hin.
      apply elem_of_app in Hin as [Hin|Hin]; apply elem_of_app.
      * left. by apply Hev.
      * right. apply list_elem_of_singleton in Hin. subst. by apply Hev'.
    + destruct C as (_ & Hn & Hpe).
      rewrite (Hspec x) in Hpe; [discriminate|by eapply list_elem_of_lookup_2|done].
  - split; [done|]. split; [done|]. exists []. split; [by rewrite app_nil_r|].
    intros e Hin. by apply elem_of_nil in Hin.
Qed.

Lemma conda_setUp_spec sys (self : Conda) ps w :
  (∀ p, p ∈ ps → needs_creation sys self (bound_env self p) = true →
        path_exists sys (conda_spec_file self (bound_env self p)) = true) →
  ∃ s1, setUp sys self (new_manager ps w) = Ret tt s1 ∧
    pods s1 = conda_set_pod_env <$> ps ∧
    (∀ e, e ∈ envs s1 ↔ e ∈ bound_env self <$> ps) ∧
    ∃ evs, trace (the_world s1) = trace w ++ evs ∧
      ∀ e, e ∈ envs s1 → needs_creation sys self e = true →
        popen_fails sys (conda_create_argv self e) = true →
        EvPopenError None (conda_create_argv self e) ∈ evs.
Proof.
  intros Hspec. rewrite setUp_eq. cbn zeta. unfold new_manager.
  cbn [pods envs calls the_world].
  set (es := list_to_set (bound_env self <$> ps) ∪ ∅ : gset string).
  assert (∀ e, e ∈ es ↔ e ∈ bound_env self <$> ps) as Hes.
  { intros e. unfold es.
    rewrite elem_of_union, elem_of_list_to_set, elem_of_empty. tauto. }
  pose proof (conda_create_loop sys self (elements es)
                (mkSt (set_pod_env self <$> ps) es [] w)) as L.
  destruct (for_each _ _ _ _) as [[] s'|ex s'|].
  - destruct L as (Hp & He & evs & Htr & Hev).
    { intros e Hin. apply elem_of_elements, Hes, list_elem_of_fmap in Hin as (p & -> & Hin).
      by apply Hspec. }
    rewrite firstn_all in Hev.
    exists s'. split; [done|]. split; [exact Hp|]. split.
    { intros e. rewrite He. apply Hes. }
    exists evs. split; [exact Htr|]. intros e Hin. apply Hev.
    apply elem_of_elements. by rewrite He in Hin.
  - exfalso. apply L. intros e Hin.
    apply elem_of_elements, Hes, list_elem_of_fmap in Hin as (p & -> & Hin). by apply Hspec.
  - exfalso. apply L. intros e Hin.
    apply elem_of_elements, Hes, list_elem_of_fmap in Hin as (p & -> & Hin). by apply Hspec.
Qed.

(** C2, as the code has it: with the conda manager, when every
    environment that has to be created has its specification file,
    [setUp] returns whatever the creation commands do; a creation command
    that fails to start is only reported ([EvPopenError] and a printed
    line), and [run] then treats the jobs of that environment as all
    others: every job without missing files has its log file opened and
    its process spawned (or its own spawn failure reported). *)
Theorem conda_creation_failure_is_only_printed
    (sys : os) (self : Conda) (test_mode : bool)
    (pod_setUp : Diagnostic.t → exn + Diagnostic.t)
    (ps : list Diagnostic.t) (w : world) :
  (∀ p, p ∈ ps → needs_creation sys self (bound_env self p) = true →
        path_exists sys (conda_spec_file self (bound_env self p)) = true) →
  ∃ s1 evs,
    setUp sys self (new_manager ps w) = Ret tt s1 ∧
    pods s1 = conda_set_pod_env <$> ps ∧
    trace (the_world s1) = trace w ++ evs ∧
    (∀ e, e ∈ envs s1 → needs_creation sys self e = true →
       popen_fails sys (conda_create_argv self e) = true →
       EvPopenError None (conda_create_argv self e) ∈ evs) ∧
    (∀ s2 i pod,
       run sys (environment_manager.CODE_ROOT self) self test_mode pod_setUp s1 = Ret tt s2 →
       pods s2 !! i = Some pod → Diagnostic.missing_files pod = [] →
       ∃ fd q, release q = pod ∧
         EvOpen i (log_path pod) fd ∈ trace (the_world s2) ∧
         (if popen_fails sys (job_argv (environment_manager.CODE_ROOT self) self test_mode q)
          then EvPopenError (Some i)
                 (job_argv (environment_manager.CODE_ROOT self) self test_mode q)
                 ∈ trace (the_world s2)
          else ∃ pid, EvPopen (Some i)
                 (job_argv (environment_manager.CODE_ROOT self) self test_mode q)
                 (Some (Diagnostic.POD_WK_DIR pod)) (Some fd) pid
                 ∈ trace (the_world s2))).
Proof.
  intros Hspec. destruct (conda_setUp_spec sys self ps w Hspec)
    as (s1 & Hsu & Hps & _ & evs & Htr & Hev).
  exists s1, evs. split; [done|]. split; [done|]. split; [done|]. split; [done|].
  intros s2 i pod Hrun Hpod Hm.
  pose proof (run_spec sys (environment_manager.CODE_ROOT self) self test_mode pod_setUp s1) as L.
  rewrite Hrun in L.
  destruct L as (ps1 & evs1 & Hps2 & _ & _ & _ & Htr2 & _ & Hsp).
  rewrite Hps2, list_lookup_fmap in Hpod.
  destruct (ps1 !! i) as [p|] eqn:Ep; [|done]. simpl in Hpod. inversion Hpod; subst pod.
  rewrite release_missing in Hm.
  destruct (Hsp i p Ep Hm) as (fd & q & Hq & Hopen & Hspawn).
  assert (log_path (release p) = log_path p) as -> by (by destruct p).
  assert (Diagnostic.POD_WK_DIR (release p) = Diagnostic.POD_WK_DIR p) as -> by (by destruct p).
  exists fd, q. split; [done|]. rewrite Htr2.
  split; [apply elem_of_app; right; apply elem_of_app; by left|].
  destruct (popen_fails sys _).
  - apply elem_of_app; right; apply elem_of_app; by left.
  - destruct Hspawn as [pid Hpid]. exists pid.
    apply elem_of_app; right; apply elem_of_app; by left.
Qed.

End manager.

(** * The theorems at the concrete inputs *)

Section instances.
Import shared_diagnostic environment_manager Resolution Batch Examples ExamplesStated.


(** The entry with the frequency [day] passes the validation. *)
Lemma frequency_day_is_accepted :
  ∃ obj s', __init__ "shared_diagnostic.py" ex_pod [0] ex_settings = Ret obj s'.
Proof.
  destruct (frequency_is_validated_at_construction "shared_diagnostic.py" ex_pod
              [0] [ex_entry] ex_settings) as (_ & [_ Hret] & _).
  - repeat constructor.
  - repeat constructor. exists "day". reflexivity.
  - apply Hret. repeat constructor. exists "day". split; [reflexivity|].
    unfold frequency_options. rewrite !elem_of_cons. tauto.
Defined.


(** The entry without a ['requirement'] key is optional: its file is not
    on disk and nothing is found or missing. *)
Lemma optional_entry_on_the_example :
  ∃ s1 s2,
    _parse_pod_varlist "shared_diagnostic.py" [0] ex_settings = Ret [0] s1 ∧
    _check_for_varlist_files 1 [0] s1 = Ret (mkFiles [] []) s2.
Proof.
  destruct (entry_without_requirement_is_optional "shared_diagnostic.py" 0 ex_settings 0
              ex_entry "tas" "day" "QBOi" "/data")
    as (s1 & d1 & Hparse & _ & _ & [s2 Hcheck] & _);
    try (vm_compute; reflexivity).
  - unfold frequency_options. rewrite !elem_of_cons. tauto.
  - exists s1, s2. split; [exact Hparse | exact Hcheck].
Defined.

(** The second of the two jobs misses a file: [setUp] of the conda
    manager binds it to the NCL environment all the same, [run] opens and
    spawns nothing for it and [tearDown] still calls its [tearDown]. *)
Lemma skipped_job_on_the_example :
  "_MDTF-diagnostics-NCL" ∈ envs ex_bound ∧
  (∃ evs, trace (the_world ex_bound_after_run) = trace (the_world ex_bound) ++ evs ∧
     Forall (λ ev, opens_or_spawns 1 ev = false) evs) ∧
  count_call (CallPodTearDown 1)
    (drop (length (calls ex_bound_after_run)) (calls ex_bound_after_tearDown)) = 1.
Proof.
  destruct (skipped_job_is_not_run_but_torn_down ex_sys "/code" ex_conda false
              ex_pod_setUp ex_pod_tearDown ex_manager ex_bound ex_bound_after_run
              ex_bound_after_tearDown 1 (conda_set_pod_env ex_skipped_pod))
    as ((p & Hp & _ & Henv & _) & Hev & _ & _ & _ & Htd);
    try (vm_compute; reflexivity); [discriminate|].
  injection Hp as <-.
  split; [exact Henv|]. split; [exact Hev | exact Htd].
Defined.

(** The creation of the python environment does not start; [setUp]
    returns all the same. *)
Lemma conda_setUp_returns_on_the_example :
  ∃ s1 evs,
    setUp ex_sys ex_conda (new_manager [ex_pod] ex_world) = Ret tt s1 ∧
    pods s1 = conda_set_pod_env <$> [ex_pod] ∧
    trace (the_world s1) = trace ex_world ++ evs.
Proof.
  destruct (conda_creation_failure_is_only_printed ex_sys ex_conda false ex_pod_setUp
              [ex_pod] ex_world) as (s1 & evs & Hsu & Hps & Htr & _).
  - intros p _ _. reflexivity.
  - exists s1, evs. split; [exact Hsu|]. split; [exact Hps | exact Htr].
Defined.

(** The job bound to the environment whose creation failed is run. *)
Lemma failed_creation_does_not_stop_the_job :
  ¬ failed_environment_blocks_its_jobs ex_sys ex_conda false ex_pod_setUp [ex_pod] ex_world.
Proof.
  intros Hclaim.
  specialize (Hclaim ex_conda_after_setUp ex_conda_after_run 0
                (conda_set_pod_env ex_pod)).
  pose proof (Forall_lookup_1 _ _ 5 (EvOpen 0 "/wk/convective/convective.log" 0)
                (Hclaim ltac:(vm_compute; reflexivity) ltac:(vm_compute; reflexivity)
                        ltac:(vm_compute; reflexivity) ltac:(vm_compute; reflexivity)
                        ltac:(vm_compute; reflexivity))
                ltac:(vm_compute; reflexivity)) as Hev.
  discriminate Hev.
Qed.

End instances.

(** * The statements of the specification, refuted *)

Section refutations.
Import shared_diagnostic environment_manager Resolution Batch.
Import Examples ExamplesMore Stated ExamplesStated.


(** The log file of the second job cannot be opened: [run] leaves by
    [IOError], and the first job still holds its log file and its
    process. *)
Lemma exception_leaves_the_handles_open :
  ¬ handles_released_on_every_exit ex_sys_without_wk "/code" tt false ex_pod_setUp
      ex_two_jobs.
Proof.
  intros Hclaim.
  assert (run ex_sys_without_wk "/code" tt false ex_pod_setUp ex_two_jobs
          = Raise IOError ex_raised) as Hrun by (vm_compute; reflexivity).
  destruct (Hclaim ex_raised (or_intror (ex_intro _ IOError Hrun))
              (default ex_pod (pods ex_raised !! 0))) as [Hproc _].
  - apply (list_elem_of_lookup_2 _ 0). vm_compute. reflexivity.
  - vm_compute in Hproc. discriminate Hproc.
Qed.

(** A batch of one job that misses a file: the conda manager creates the
    NCL environment for it.  And with two jobs, the [tearDown] of the
    first failing, the second is never torn down. *)
Lemma skipped_job_is_bound_and_may_miss_its_tearDown :
  ¬ skipped_job_is_never_bound ex_sys "/code" ex_conda false ex_pod_setUp
      ex_skipped_alone ∧
  ¬ every_job_is_finalized ex_sys tt ex_failing_tearDown ex_after_run.
Proof.
  split; intros Hclaim.
  - destruct (Hclaim ex_skipped_alone_bound ex_skipped_alone_after_run 0
                ex_skipped_pod (conda_set_pod_env ex_skipped_pod))
      as (j & q & Hj & Hq & _); try (vm_compute; reflexivity); [discriminate| |].
    + apply (list_elem_of_lookup_2 _ 0). vm_compute. reflexivity.
    + destruct j as [|j]; [done|]. discriminate Hq.
  - assert (tearDown ex_sys tt ex_failing_tearDown ex_after_run
            = Raise OSError ex_failed_tearDown) as Htd by (vm_compute; reflexivity).
    assert (1 < length (pods ex_after_run)) as Hlt by (vm_compute; lia).
    specialize (Hclaim ex_failed_tearDown (or_intror (ex_intro _ OSError Htd)) 1 Hlt).
    assert (drop (length (calls ex_after_run)) (calls ex_failed_tearDown)
            = [CallPodTearDown 0]) as E by (vm_compute; reflexivity).
    rewrite E in Hclaim. apply list_elem_of_singleton in Hclaim. discriminate Hclaim.
Qed.

End refutations.

Section manager_more.
Import shared_diagnostic environment_manager Batch BatchMore.

Section run_raise.
Context {T : Type} `{EnvironmentManager T}.
Variables (sys : os) (CODE_ROOT : string) (self : T) (test_mode : bool).
Variable pod_setUp : Diagnostic.t → exn + Diagnostic.t.

Lemma run_pod_raise s0 k s :
  k < length (pods s0) → loop1_inv sys CODE_ROOT self test_mode s0 k s →
  match run_pod sys CODE_ROOT self test_mode pod_setUp k s with
  | Ret _ s' => loop1_inv sys CODE_ROOT self test_mode s0 (S k) s'
  | Raise e s' => raise_inv sys CODE_ROOT self test_mode pod_setUp s0 e s'
  | Stuck => False
  end.
Proof.
  intros Hk Hinv.
  pose proof (run_pod_inv sys CODE_ROOT self test_mode pod_setUp s0 k s Hk Hinv) as R.
  destruct Hinv as (Hlen & _ & _ & _ & evs & Htr & Hok & _).
  destruct (lookup_lt_is_Some_2 (pods s) k) as [p Hp]; [lia|].
  rewrite (run_pod_eq sys CODE_ROOT self test_mode pod_setUp k p s Hp) in *.
  cbn zeta in *.
  destruct (pod_setUp p) as [e|p1] eqn:Esu.
  { split; [exact R|]. exists evs, k. split; [exact Htr | exact Hok]. }
  destruct (bool_decide (Diagnostic.missing_files p1 = [])); [|exact R].
  destruct (open_fails sys (log_path p1)).
  { split; [exact R|]. exists evs, (S k). split; [exact Htr|].
    cbn [pods with_pods add_call].
    eapply Forall_impl; [exact Hok|]. intros ev. apply event_ok_mono. lia. }
  destruct (popen_fails sys _); exact R.
Qed.

Lemma run_raise_inv s0 e s1 :
  run sys CODE_ROOT self test_mode pod_setUp s0 = Raise e s1 →
  raise_inv sys CODE_ROOT self test_mode pod_setUp s0 e s1.
Proof.
  rewrite run_eq.
  pose proof (for_each_inv (seq 0 (length (pods s0)))
    (run_pod sys CODE_ROOT self test_mode pod_setUp)
    (loop1_inv sys CODE_ROOT self test_mode s0)
    (raise_inv sys CODE_ROOT self test_mode pod_setUp s0)) as L.
  rewrite length_seq in L.
  specialize (L ltac:(intros k x s Hx Hinv; apply lookup_seq in Hx as [-> Hk];
                      cbn [Nat.add]; by apply run_pod_raise) s0).
  specialize (L ltac:(split; [done|]; split; [done|]; split; [by rewrite app_nil_r|];
                      split; [done|]; exists []; rewrite app_nil_r;
                      split; [done|]; split; [constructor|]; intros; lia)).
  destruct (for_each _ _ _ s0) as [[] s|e' s|].
  - destruct L as (Hlen & _). rewrite <- Hlen, finish_loop. discriminate.
  - intros Heq. inversion Heq; subst. exact L.
  - discriminate.
Qed.
End run_raise.

End manager_more.

Section manager_jobs.
Import shared_diagnostic environment_manager Batch BatchMore BatchJobs.

Lemma release_release p : release (release p) = release p.
Proof. by destruct p. Qed.

Section jobs.
Context {T : Type} `{EnvironmentManager T}.
Variables (sys : os) (CODE_ROOT : string) (self : T) (test_mode : bool).
Variables pod_setUp pod_tearDown : Diagnostic.t → exn + Diagnostic.t.

Lemma run_pod_jobs s0 k s :
  k < length (pods s0) → jobs_inv pod_setUp s0 k s →
  match run_pod sys CODE_ROOT self test_mode pod_setUp k s with
  | Ret _ s' => jobs_inv pod_setUp s0 (S k) s'
  | Raise _ _ => True
  | Stuck => False
  end.
Proof.
  intros Hk (Hlen & Hdone & Hrest).
  destruct (lookup_lt_is_Some_2 (pods s) k) as [p Hp]; [lia|].
  rewrite (run_pod_eq sys CODE_ROOT self test_mode pod_setUp k p s Hp). cbn zeta.
  destruct (pod_setUp p) as [e|p1] eqn:Esu; [done|].
  assert (∀ q, release q = release p1 →
            jobs_inv pod_setUp s0 (S k)
              (with_pods (<[k:=q]> (pods (add_call (CallPodSetUp k) s)))
                         (add_call (CallPodSetUp k) s))) as Hnext.
  { intros q Hq. split; [|split].
    - cbn [pods with_pods add_call]. by rewrite length_insert.
    - intros j p0 Hj Hp0. cbn [pods with_pods add_call].
      destruct (decide (j = k)) as [->|Hne].
      + exists p1, q. rewrite list_lookup_insert_eq by lia.
        rewrite (Hrest k) in Hp by lia. rewrite Hp0 in Hp. inversion Hp; subst p0.
        done.
      + rewrite list_lookup_insert_ne by done. apply Hdone; [lia|done].
    - intros j Hj. cbn [pods with_pods add_call].
      rewrite list_lookup_insert_ne by lia. apply Hrest. lia. }
  assert (∀ q n evs, release q = release p1 →
            jobs_inv pod_setUp s0 (S k)
              (bump n (with_pods (<[k:=q]> (pods (add_call (CallPodSetUp k) s)))
                         (add_events evs (add_call (CallPodSetUp k) s))))) as Hnext'.
  { intros q n evs Hq. exact (Hnext q Hq). }
  destruct (bool_decide (Diagnostic.missing_files p1 = [])); [|by apply Hnext].
  destruct (open_fails sys (log_path p1)); [done|].
  destruct (popen_fails sys _); apply Hnext'; by destruct p1.
Qed.

Lemma run_jobs s0 :
  match for_each (seq 0 (length (pods s0))) tt
          (fun _ i => run_pod sys CODE_ROOT self test_mode pod_setUp i) s0 with
  | Ret _ s1 => jobs_inv pod_setUp s0 (length (pods s0)) s1
  | Raise _ _ => True
  | Stuck => False
  end.
Proof.
  pose proof (for_each_inv (seq 0 (length (pods s0)))
    (run_pod sys CODE_ROOT self test_mode pod_setUp)
    (jobs_inv pod_setUp s0) (fun _ _ => True)) as L.
  rewrite length_seq in L. apply L.
  - intros k x s Hx Hinv. apply lookup_seq in Hx as [-> Hk]. cbn [Nat.add].
    by apply run_pod_jobs.
  - split; [done|]. split; [intros; lia|done].
Qed.

End jobs.

End manager_jobs.

Section manager_extra.
Import shared_diagnostic environment_manager Batch BatchMore BatchJobs.

Section base_class.
Context {T : Type} `{EnvironmentManager T}.
Variables (sys : os) (CODE_ROOT : string) (self : T) (test_mode : bool).
Variables pod_setUp pod_tearDown : Diagnostic.t → exn + Diagnostic.t.

(** When [run] raises, the exception is the one of a job's [setUp] or
    the [IOError] of a log file that could not be opened, and [run] has
    released nothing: no process was waited for and no log file closed,
    and every log file opened and every process spawned before the
    exception is still held by its job. *)
Theorem run_exception_keeps_the_handles_open (s0 s1 : state) (e : exn) :
  run sys CODE_ROOT self test_mode pod_setUp s0 = Raise e s1 →
  ((∃ p, pod_setUp p = inl e) ∨ (e = IOError ∧ ∃ path, open_fails sys path = true)) ∧
  ∃ evs, trace (the_world s1) = trace (the_world s0) ++ evs ∧
    Forall (λ ev, is_release ev = false) evs ∧
    Forall (holds_handle (pods s1)) evs.
Proof.
  intros Hrun.
  destruct (run_raise_inv sys CODE_ROOT self test_mode pod_setUp s0 e s1 Hrun)
    as (Hwhy & evs & k & Htr & Hok).
  split; [exact Hwhy|]. exists evs. split; [exact Htr|].
  rewrite Forall_forall in Hok. split; apply Forall_forall; intros ev Hin;
    specialize (Hok ev Hin);
    destruct ev as [line|cmd|j path fd|o argv cwd out pid|o argv|pid|fd];
    cbn [event_ok is_release holds_handle] in *; try done.
  - destruct Hok as (_ & pod & Hpod & _ & Hlog & _). by exists pod.
  - destruct Hok as (j & pod & q & -> & _ & Hpod & _ & Hproc & _). by exists pod.
Qed.

(** When [run] returns, it has called the [setUp] of every job once, in
    the order of [self.pods], skipped jobs included, and made no other
    call; every job is what its [setUp] returned with both handles
    [None]; [self.envs] is unchanged. *)
Theorem run_leaves_each_job_as_its_setUp_made_it (s0 s1 : state) :
  run sys CODE_ROOT self test_mode pod_setUp s0 = Ret tt s1 →
  calls s1 = calls s0 ++ (CallPodSetUp <$> seq 0 (length (pods s0))) ∧
  length (pods s1) = length (pods s0) ∧ envs s1 = envs s0 ∧
  (∀ (j : nat) p, pods s0 !! j = Some p →
     ∃ p1, pod_setUp p = inr p1 ∧ pods s1 !! j = Some (release p1)).
Proof.
  intros Hrun.
  pose proof (run_spec sys CODE_ROOT self test_mode pod_setUp s0) as L.
  rewrite Hrun in L.
  destruct L as (ps1 & evs1 & Hps & Hlen & Henvs & Hcalls & _).
  split; [exact Hcalls|]. split; [by rewrite Hps, length_fmap|]. split; [exact Henvs|].
  intros j p Hp. rewrite run_eq in Hrun. pose proof (run_jobs sys CODE_ROOT self test_mode pod_setUp s0) as J.
  destruct (for_each _ _ _ s0) as [[] s|e s|]; [|done|done].
  destruct J as (Hl & Hdone & _).
  rewrite <- Hl, finish_loop in Hrun. inversion Hrun; subst s1.
  destruct (Hdone j p) as (p1 & q & Hsu & Hq & Hrel).
  { by eapply lookup_lt_Some. }
  { done. }
  exists p1. split; [done|]. cbn [pods with_pods].
  by rewrite list_lookup_fmap, Hq, <- Hrel.
Qed.

End base_class.

End manager_extra.

Section managers_extra.
Import shared_diagnostic environment_manager Batch BatchMore BatchJobs.

Lemma nonempty_append_r a b : nonempty b = true → nonempty (a +:+ b) = true.
Proof. destruct a; [done|]. intros _. reflexivity. Qed.

Lemma nonempty_validate_command CODE_ROOT pod :
  nonempty (validate_command CODE_ROOT pod) = true.
Proof.
  unfold validate_command. cbn [join].
  apply nonempty_append_r, nonempty_append_r. reflexivity.
Qed.

Lemma nonempty_pod_run_command test_mode pod :
  nonempty (pod_run_command test_mode pod) = true.
Proof.
  unfold pod_run_command, run_command, test_mode_command.
  destruct test_mode; [reflexivity|]. apply nonempty_append_r. reflexivity.
Qed.

Lemma and_chain_cons_nonempty f l :
  (f =? "")%string = false →
  and_chain (f :: l) =
    if (and_chain l =? "")%string then f else f +:+ " && " +:+ and_chain l.
Proof.
  intros Hf.
  change (and_chain (f :: l)) with
    (if (f =? "")%string then and_chain l
     else if (and_chain l =? "")%string then f else f +:+ " && " +:+ and_chain l).
  by rewrite Hf.
Qed.

Lemma and_chain_cons_empty l : and_chain ("" :: l) = and_chain l.
Proof. reflexivity. Qed.

(** The command of a job under each of the two managers.  Without
    environments it is the validation and the run command and nothing
    else; with conda the activation comes first, and there is never a
    deactivation. *)
Theorem commands_of_the_two_managers
    (CODE_ROOT : string) (self : Conda) (test_mode : bool) (pod : Diagnostic.t) :
  and_join (command_list CODE_ROOT tt test_mode pod) =
    validate_command CODE_ROOT pod +:+ " && " +:+ pod_run_command test_mode pod ∧
  and_join (command_list CODE_ROOT self test_mode pod) =
    ("source " +:+ environment_manager.CODE_ROOT self
       +:+ "/src/conda_init.sh && conda activate "
       +:+ os_path_join (conda_env_root self) [Diagnostic.env pod])
    +:+ " && " +:+ validate_command CODE_ROOT pod
    +:+ " && " +:+ pod_run_command test_mode pod.
Proof.
  pose proof (nonempty_validate_command CODE_ROOT pod) as Hv.
  pose proof (nonempty_pod_run_command test_mode pod) as Hr.
  unfold nonempty in Hv, Hr. apply negb_true_iff in Hv. apply negb_true_iff in Hr.
  assert (and_chain [pod_run_command test_mode pod; ""] = pod_run_command test_mode pod)
    as Er by (by rewrite (and_chain_cons_nonempty _ _ Hr)).
  assert (and_chain [validate_command CODE_ROOT pod; pod_run_command test_mode pod; ""]
          = validate_command CODE_ROOT pod +:+ " && " +:+ pod_run_command test_mode pod)
    as Ev by (by rewrite (and_chain_cons_nonempty _ _ Hv), Er, Hr).
  rewrite !and_join_chain. unfold command_list.
  cbn [activate_env_command deactivate_env_command NoneEnvironmentManager
       CondaEnvironmentManager].
  unfold conda_activate_env_command.
  split.
  - by rewrite and_chain_cons_empty.
  - rewrite and_chain_cons_nonempty by reflexivity. rewrite Ev.
    assert (∀ x y : string, (x +:+ " && " +:+ y =? "")%string = false) as Hne.
    { intros x y. apply negb_true_iff. apply (nonempty_append_r x (" && " +:+ y)). reflexivity. }
    by rewrite Hne.
Qed.

(** What [CondaEnvironmentManager.create_environment] does, case by case.
    An environment that [conda env list] shows is left alone: nothing is
    printed and no process is spawned.  An absent one with its
    specification file is created by one [bash -c] process that is not
    waited for; if that process cannot be started, ["ERROR :"] is printed
    and the method returns normally.  An absent one without its
    specification file makes the method raise [UnboundLocalError] (the
    local [conda_prefix] was never assigned) after printing
    ["Can't find ..."], and no process is spawned. *)
Theorem conda_create_environment_outcome (sys : os) (self : Conda) (e : string) (w : world) :
  let probe := EvCall (conda_probe self e) in
  let note := EvPrint "Conda env {} not found; creating it" in
  let creating := EvPrint ("Creating conda env " +:+ e +:+ " in "
                             +:+ os_path_join (conda_env_root self) [e]) in
  let argv := conda_create_argv self e in
  match conda_create_environment sys self e w with
  | Ret _ w' =>
      (needs_creation sys self e = false →
         w' = mkWorld (trace w ++ [probe]) (next_handle w)) ∧
      (needs_creation sys self e = true →
         path_exists sys (conda_spec_file self e) = true ∧
         (popen_fails sys argv = false →
            w' = mkWorld (trace w ++ [probe; note; creating;
                                      EvPopen None argv None None (next_handle w)])
                         (S (next_handle w))) ∧
         (popen_fails sys argv = true →
            w' = mkWorld (trace w ++ [probe; note; creating;
                                      EvPopenError None argv; EvPrint "ERROR :"])
                         (next_handle w)))
  | Raise ex w' =>
      ex = UnboundLocalError "conda_prefix" ∧
      needs_creation sys self e = true ∧
      path_exists sys (conda_spec_file self e) = false ∧
      w' = mkWorld (trace w ++ [probe; note;
                                EvPrint ("Can't find " +:+ conda_spec_file self e)])
                   (next_handle w)
  | Stuck => False
  end.
Proof.
  cbv zeta.
  unfold conda_create_environment, subprocess_call, bind at 1. unfold bind at 1.
  unfold emit at 1. cbn [ret].
  destruct (negb (Nat.eqb (call_status sys _) 0)) eqn:En.
  2:{ split; [intros _; reflexivity|]. intros Hn.
      first [discriminate Hn | exfalso; exact (eq_true_false_abs _ Hn En)]. }
  unfold bind at 1. unfold print at 1, emit at 1.
  unfold _call_conda_create. unfold bind at 1.
  destruct (path_exists sys _) eqn:Ex; cbn [negb].
  2:{ unfold bind, print, emit, ret, raise. cbn [trace next_handle].
      split; [reflexivity|].
      split; [first [exact En|reflexivity]|].
      split; [first [exact Ex|reflexivity]|].
      by rewrite <- !app_assoc. }
  unfold bind at 1. unfold print at 1, emit at 1. cbn [ret].
  unfold bind at 1. cbn [ret]. unfold bind at 1. unfold subprocess_Popen.
  destruct (popen_fails sys _) eqn:Ep.
  - unfold bind, emit, ret, print, emit. cbn [trace next_handle].
    split.
    { intros Hn. first [discriminate Hn | exfalso; exact (eq_true_false_abs _ En Hn)]. }
    intros _. split; [first [exact Ex|reflexivity]|]. split.
    + intros Hp. first [discriminate Hp | exfalso; exact (eq_true_false_abs _ Ep Hp)].
    + intros _. by rewrite <- !app_assoc.
  - unfold bind, fresh_handle, emit, ret. cbn [trace next_handle].
    split.
    { intros Hn. first [discriminate Hn | exfalso; exact (eq_true_false_abs _ En Hn)]. }
    intros _. split; [first [exact Ex|reflexivity]|]. split.
    + intros _. by rewrite <- !app_assoc.
    + intros Hp. first [discriminate Hp | exfalso; exact (eq_true_false_abs _ Hp Ep)].
Qed.

Lemma for_each_raises {St A} (xs : list A) (body : A → M St unit) (e0 : exn)
    (P : St → Prop) :
  (∀ x s, x ∈ xs → P s →
     match body x s with
     | Ret _ s' => P s'
     | Raise e s' => e = e0 ∧ P s'
     | Stuck => False
     end) →
  (∃ x, x ∈ xs ∧ ∀ s, P s → ∃ s', body x s = Raise e0 s') →
  ∀ s, P s → ∃ s', for_each xs tt (fun _ x => body x) s = Raise e0 s' ∧ P s'.
Proof.
  induction xs as [|y xs IH]; intros Hbody (x & Hx & Hraise) s Hs.
  { by apply elem_of_nil in Hx. }
  cbn [for_each]. unfold bind.
  pose proof (Hbody y s ltac:(apply list_elem_of_here) Hs) as Hy.
  destruct (body y s) as [[] s'|e s'|] eqn:Ey; [| |done].
  - apply elem_of_cons in Hx as [->|Hx].
    + destruct (Hraise s Hs) as [s'' Hs'']. congruence.
    + apply IH; [|by eauto|done].
      intros z t Hz Ht. apply Hbody; [by apply list_elem_of_further|done].
  - destruct Hy as [-> Hs']. by exists s'.
Qed.

(** [setUp] of the conda manager does not survive an absent specification
    file: when some job is bound to an environment that has to be created
    and has no specification file, [setUp] raises [UnboundLocalError],
    whatever the other environments are; the jobs have been bound to their
    environments by then. *)
Theorem conda_setUp_raises_without_a_specification_file
    (sys : os) (self : Conda) (ps : list Diagnostic.t) (w : world) (p : Diagnostic.t) :
  p ∈ ps →
  needs_creation sys self (bound_env self p) = true →
  path_exists sys (conda_spec_file self (bound_env self p)) = false →
  ∃ s', setUp sys self (new_manager ps w) = Raise (UnboundLocalError "conda_prefix") s' ∧
    pods s' = conda_set_pod_env <$> ps.
Proof.
  intros Hp Hn Hx. rewrite setUp_eq. cbn zeta. unfold new_manager.
  cbn [pods envs calls the_world].
  set (es := list_to_set (bound_env self <$> ps) ∪ ∅ : gset string).
  apply (for_each_raises (elements es)
    (fun env => record_call (CallCreateEnvironment env) ;;;
                in_world (create_environment sys self env))
    (UnboundLocalError "conda_prefix")
    (fun s => pods s = conda_set_pod_env <$> ps)).
  - intros x s _ Hs. unfold bind, record_call, in_world.
    cbn [pods envs calls the_world create_environment CondaEnvironmentManager].
    pose proof (conda_create_environment_spec sys self x (the_world s)) as C.
    destruct (conda_create_environment sys self x (the_world s)) as [[] w'|ex w'|];
      [exact Hs| |done].
    destruct C as (-> & _). by split.
  - exists (bound_env self p). split.
    + apply elem_of_elements. unfold es.
      rewrite elem_of_union, elem_of_list_to_set. left.
      apply list_elem_of_fmap. by exists p.
    + intros s _. unfold bind, record_call, in_world.
      cbn [pods envs calls the_world create_environment CondaEnvironmentManager].
      pose proof (conda_create_environment_spec sys self (bound_env self p)
                    (the_world (mkSt (pods s) (envs s)
                       (calls s ++ [CallCreateEnvironment (bound_env self p)])
                       (the_world s)))) as C.
      cbn [the_world] in C.
      destruct (conda_create_environment sys self (bound_env self p) (the_world s))
        as [[] w'|ex w'|]; [|destruct C as (-> & _); eauto|done].
      destruct C as (evs & _ & Hspec & _). rewrite (Hspec Hn) in Hx. discriminate.
  - reflexivity.
Qed.

(** The environment the conda manager binds a job to: the R environment if
    one of the required programs is [r] or [rscript], in any case of the
    letters; else the NCL environment if one is [ncl]; else the python
    environment.  The value of [env] read from the settings file plays no
    part and is overwritten, nothing else of the job changes, and binding
    twice is binding once. *)
Theorem conda_environment_of_a_job (pod : Diagnostic.t) :
  let keys := lower <$> Diagnostic.required_programs pod in
  (("r" ∈ keys ∨ "rscript" ∈ keys) →
     Diagnostic.env (conda_set_pod_env pod) = "_MDTF-diagnostics-R") ∧
  (¬ ("r" ∈ keys ∨ "rscript" ∈ keys) → "ncl" ∈ keys →
     Diagnostic.env (conda_set_pod_env pod) = "_MDTF-diagnostics-NCL") ∧
  (¬ ("r" ∈ keys ∨ "rscript" ∈ keys) → "ncl" ∉ keys →
     Diagnostic.env (conda_set_pod_env pod) = "_MDTF-diagnostics-python") ∧
  conda_set_pod_env pod =
    Diagnostic.set_env (Diagnostic.env (conda_set_pod_env pod)) pod ∧
  (∀ v, conda_set_pod_env (Diagnostic.set_env v pod) = conda_set_pod_env pod) ∧
  conda_set_pod_env (conda_set_pod_env pod) = conda_set_pod_env pod.
Proof.
  cbv zeta. unfold conda_set_pod_env.
  destruct pod as [n wk pr dr en rp pm ns rk ev vl ff mf po lo].
  cbn [Diagnostic.required_programs Diagnostic.set_env Diagnostic.env].
  change (map lower rp) with (lower <$> rp).
  destruct (bool_decide ("r" ∈ lower <$> rp)) eqn:Er;
    destruct (bool_decide ("rscript" ∈ lower <$> rp)) eqn:Es;
    destruct (bool_decide ("ncl" ∈ lower <$> rp)) eqn:En;
    cbn [orb Diagnostic.required_programs Diagnostic.set_env Diagnostic.env];
    change (map lower rp) with (lower <$> rp);
    rewrite ?Er, ?Es, ?En; cbn [orb];
    try apply bool_decide_eq_true in Er; try apply bool_decide_eq_false in Er;
    try apply bool_decide_eq_true in Es; try apply bool_decide_eq_false in Es;
    try apply bool_decide_eq_true in En; try apply bool_decide_eq_false in En;
    repeat split; try done; try tauto; intros; tauto.
Qed.

End managers_extra.

Section instances_more.
Import shared_diagnostic environment_manager Batch BatchMore BatchJobs Examples ExamplesMore.

(** The log file of the second job cannot be opened: [run] raises
    [IOError] with the log file and the process of the first job open. *)
Lemma open_failure_on_the_example :
  (∃ evs, trace (the_world ex_raised) = trace (the_world ex_two_jobs) ++ evs ∧
     Forall (λ ev, is_release ev = false) evs ∧
     Forall (holds_handle (pods ex_raised)) evs) ∧
  (Diagnostic.logfile_obj <$> pods ex_raised !! 0) = Some (Some 0) ∧
  (Diagnostic.process_obj <$> pods ex_raised !! 0) = Some (Some 1).
Proof.
  destruct (run_exception_keeps_the_handles_open ex_sys_without_wk "/code" tt false
              ex_pod_setUp ex_two_jobs ex_raised IOError) as [_ Hev].
  - vm_compute. reflexivity.
  - split; [exact Hev|]. split; vm_compute; reflexivity.
Defined.

Lemma run_on_the_two_jobs :
  calls ex_after_run = calls ex_manager ++ [CallPodSetUp 0; CallPodSetUp 1] ∧
  pods ex_after_run !! 1 = Some ex_skipped_pod.
Proof.
  destruct (run_leaves_each_job_as_its_setUp_made_it ex_sys "/code" tt false
              ex_pod_setUp ex_manager ex_after_run) as (Hc & _ & _ & Hj).
  - vm_compute. reflexivity.
  - split; [exact Hc|].
    destruct (Hj 1 ex_skipped_pod eq_refl) as (p1 & Hp1 & ->).
    inversion Hp1. reflexivity.
Defined.

Lemma conda_setUp_raises_on_the_example :
  ∃ s', setUp ex_sys_without_spec ex_conda (new_manager [ex_pod] ex_world)
          = Raise (UnboundLocalError "conda_prefix") s' ∧
        pods s' = conda_set_pod_env <$> [ex_pod].
Proof.
  apply (conda_setUp_raises_without_a_specification_file ex_sys_without_spec ex_conda
           [ex_pod] ex_world ex_pod).
  - apply list_elem_of_here.
  - reflexivity.
  - reflexivity.
Defined.

End instances_more.

Section resolver_extra.
Import shared_diagnostic Resolution ResolutionMore.

Lemma plain_entries_loop env disk c dd rec (ds : list (gmap string pyval)) :
  env !! "CASENAME" = Some c → env !! "DATADIR" = Some dd →
  Forall plain_entry ds →
  ∀ fl ml,
    for_each ds (fl, ml) (item_files env disk rec) tt =
      Ret (fl ++ filter (λ p, disk p = true) (entry_path dd c <$> ds),
           ml ++ (entry_path dd c <$> absent_required disk dd c ds)) tt.
Proof.
  intros Hc Hd. induction 1 as [|d ds [(n & f & r & Hn & Hf & Hr) Ha] _ IH]; intros fl ml.
  { cbn. by rewrite !app_nil_r. }
  cbn [for_each]. unfold bind at 1.
  rewrite (item_files_plain env disk c dd Hc Hd rec d n f r fl ml Hn Hf Hr Ha).
  unfold absent_required. rewrite fmap_cons, !filter_cons.
  assert (entry_path dd c d = data_path dd c f n) as Ep
    by (unfold entry_path; by rewrite Hn, Hf).
  assert (is_required d = truthy r) as Er by (unfold is_required; by rewrite Hr).
  rewrite Ep, Er.
  destruct (disk (data_path dd c f n)) eqn:Edisk.
  - rewrite IH. destruct (decide (true = true)); [|done].
    destruct (decide (true = false ∧ truthy r = true)) as [[? _]|_]; [done|].
    fold (absent_required disk dd c ds). by rewrite <- app_assoc.
  - destruct (decide (false = true)); [done|].
    destruct (truthy r) eqn:Et.
    + rewrite IH. destruct (decide (false = false ∧ true = true)) as [_|Hn']; [|by destruct Hn'].
      fold (absent_required disk dd c ds). rewrite fmap_cons, Ep. by rewrite <- app_assoc.
    + rewrite IH. destruct (decide (false = false ∧ false = true)) as [[_ ?]|_]; [done|].
      done.
Qed.

Lemma nonempty_entry_paths dd c (ds : list (gmap string pyval)) :
  Forall plain_entry ds → Forall (λ p, nonempty p = true) (entry_path dd c <$> ds).
Proof.
  intros H. apply Forall_fmap. eapply Forall_impl; [exact H|].
  intros d [(n & f & r & Hn & Hf & _) _]. cbn. unfold entry_path.
  rewrite Hn, Hf. apply nonempty_data_path.
Qed.

(** For entries without alternates to try, the resolver sorts the files
    by what is on disk: [found_files] are the paths on disk, of required
    and optional entries alike, and [missing_files] the paths of the
    required entries that are not on disk, both in the order of the
    list.  An optional entry whose file is absent is in neither. *)
Theorem entries_without_alternates_are_found_or_missing
    (fuel : nat) (s : pystate) (varlist : list loc) (ds : list (gmap string pyval))
    (c dd : string) :
  Forall2 (λ l d, heap s !! l = Some d) varlist ds →
  Forall plain_entry ds →
  environ s !! "CASENAME" = Some c → environ s !! "DATADIR" = Some dd →
  ∃ s',
    _check_for_varlist_files (S fuel) varlist s =
      Ret (mkFiles (filter (λ p, isfile s p = true) (entry_path dd c <$> ds))
                   (entry_path dd c <$> absent_required (isfile s) dd c ds)) s' ∧
    extends s s'.
Proof.
  intros Hds Hplain Hc Hd.
  pose proof (check_agree (S fuel) varlist ds s Hds) as A.
  assert (varlist_files (environ s) (isfile s) (S fuel) ds tt =
            Ret (mkFiles (filter (λ p, isfile s p = true) (entry_path dd c <$> ds))
                         (entry_path dd c <$> absent_required (isfile s) dd c ds)) tt) as E.
  { cbn [varlist_files]. unfold bind at 1.
    rewrite (plain_entries_loop _ _ c dd _ ds Hc Hd Hplain [] []). cbn [app ret].
    f_equal. f_equal.
    - apply filter_nonempty_paths.
      pose proof (nonempty_entry_paths dd c ds Hplain) as Hne.
      rewrite Forall_forall in Hne. apply Forall_forall. intros p Hp.
      apply Hne. by apply list_elem_of_filter in Hp as [_ Hp].
    - apply filter_nonempty_paths. apply nonempty_entry_paths.
      unfold absent_required. rewrite Forall_forall in Hplain. apply Forall_forall.
      intros d Hin. apply Hplain. by apply list_elem_of_filter in Hin as [_ Hin]. }
  rewrite E in A.
  destruct (_check_for_varlist_files (S fuel) varlist s) as [files s'|e s'|];
    cbn [agree] in A; [|by destruct A|done].
  destruct A as [A He]. inversion A; subst files. by exists s'.
Qed.

End resolver_extra.

Section parser_extra.
Import shared_diagnostic Resolution ParserMore.

Lemma parsed_alternates_list (d : gmap string pyval) :
  ∃ l, parsed d !! "alternates" = Some (VList l).
Proof.
  unfold parsed. destruct (d !! "alternates") as [[x|b|l]|] eqn:Ea.
  - eexists. apply lookup_insert_eq.
  - eexists. apply lookup_insert_eq.
  - exists l. by rewrite lookup_insert_ne.
  - eexists. apply lookup_insert_eq.
Qed.

Lemma required_flag_parsed (d : gmap string pyval) :
  required_flag (parsed d) = required_flag d.
Proof.
  unfold required_flag. destruct (parsed_same_entry d) as [_ ->]. done.
Qed.

Lemma parsed_idempotent (d : gmap string pyval) : parsed (parsed d) = parsed d.
Proof.
  destruct (parsed_alternates_list d) as [l Hl].
  unfold parsed at 1. rewrite Hl, required_flag_parsed.
  apply insert_id, parsed_required.
Qed.

Lemma accepted_parsed (d : gmap string pyval) : accepted d → accepted (parsed d).
Proof.
  intros [[Hf Hr] (f & Hf' & Hin)]. destruct (parsed_same_entry d) as [E1 E2].
  split; [split|].
  - by rewrite E1.
  - by rewrite E2.
  - exists f. by rewrite E1.
Qed.

Lemma parse_entry_accepted __file__ s l (d : gmap string pyval) :
  heap s !! l = Some d → accepted d →
  parse_entry __file__ l s = Ret tt (set_heap (<[l := parsed d]> (heap s)) s).
Proof.
  intros Hl [[_ Hreq] (f & Hf & Hin)].
  rewrite (parse_entry_eq __file__ s l d f Hl Hf Hreq).
  by rewrite bool_decide_eq_true_2.
Qed.

Lemma parse_accepted_step __file__ s0 (done_ : list loc) l s :
  (∃ d, heap s0 !! l = Some d ∧ accepted d) →
  parsed_inv s0 done_ s →
  ∃ s', parse_entry __file__ l s = Ret tt s' ∧ parsed_inv s0 (done_ ++ [l]) s'.
Proof.
  intros (d & Hd & Hacc) (Hout & Hen & Hfs & Hlen & Hheap).
  pose proof (Hheap l d Hd) as Hcur.
  match type of Hcur with _ = Some ?x =>
    assert (accepted x) as Hacc'
      by (destruct (bool_decide _); [by apply accepted_parsed|done]);
    assert (parsed x = parsed d) as Hp
      by (destruct (bool_decide _); [apply parsed_idempotent|done])
  end.
  eexists. split; [apply (parse_entry_accepted __file__ s l _ Hcur Hacc')|].
  rewrite Hp.
  split; [done|]. split; [done|]. split; [done|].
  split; [cbn; by rewrite length_insert|].
  intros l0 d0 Hd0. cbn [heap set_heap].
  destruct (decide (l0 = l)) as [->|Hne].
  - rewrite list_lookup_insert_eq by (rewrite Hlen; by eapply lookup_lt_Some).
    rewrite Hd in Hd0. inversion Hd0; subst d0.
    rewrite bool_decide_eq_true_2; [done|].
    apply elem_of_app. right. apply list_elem_of_here.
  - rewrite list_lookup_insert_ne by done.
    etrans; [exact (Hheap l0 d0 Hd0)|]. f_equal.
    rewrite (bool_decide_ext (l0 ∈ done_ ++ [l]) (l0 ∈ done_)); [done|].
    rewrite elem_of_app, list_elem_of_singleton. tauto.
Qed.

Lemma parsed_inv_start s0 : parsed_inv s0 [] s0.
Proof.
  split; [done|]. split; [done|]. split; [done|]. split; [done|].
  intros l d Hd. rewrite bool_decide_eq_false_2; [done|]. apply not_elem_of_nil.
Qed.

Lemma parse_accepted_from __file__ s0 (varlist : list loc) : ∀ done_ s,
  (∀ l, l ∈ varlist → ∃ d, heap s0 !! l = Some d ∧ accepted d) →
  parsed_inv s0 done_ s →
  ∃ s', for_each varlist tt (fun _ var => parse_entry __file__ var) s = Ret tt s' ∧
        parsed_inv s0 (done_ ++ varlist) s'.
Proof.
  induction varlist as [|l varlist IH]; intros done_ s Hall Hinv.
  { exists s. rewrite app_nil_r. by split. }
  destruct (parse_accepted_step __file__ s0 done_ l s) as (s1 & E1 & Hinv1);
    [apply Hall, list_elem_of_here|done|].
  destruct (IH (done_ ++ [l]) s1) as (s' & E & Hinv');
    [intros; by apply Hall, list_elem_of_further|done|].
  exists s'. cbn [for_each]. unfold bind. rewrite E1. split; [exact E|].
  by rewrite <- app_assoc in Hinv'.
Qed.

Lemma parse_entry_errors __file__ s l (d : gmap string pyval) :
  heap s !! l = Some d →
  (d !! "freq" = None → parse_entry __file__ l s = Raise (KeyError "freq") s) ∧
  (∀ f, d !! "freq" = Some (VStr f) → f ∉ frequency_options →
     parse_entry __file__ l s = Raise (AssertionError (assertion_message __file__ f)) s) ∧
  (∀ f r, d !! "freq" = Some (VStr f) → f ∈ frequency_options →
     d !! "requirement" = Some r → (∀ x, r ≠ VStr x) →
     parse_entry __file__ l s = Raise AttributeError s).
Proof.
  intros Hl. split; [|split].
  - intros Hf. unfold parse_entry, getitem, bind, deref, dget. rewrite Hl.
    cbn beta iota. by rewrite Hf.
  - intros f Hf Hbad. unfold parse_entry.
    rewrite (bind_getitem s l d "freq" (VStr f)) by done.
    cbn [py_in]. rewrite bool_decide_eq_false_2 by done.
    unfold bind, lift, util.py_add, ret, raise. unfold assertion_message.
    by rewrite !append_assoc.
  - intros f r Hf Hok Hr Hns. unfold parse_entry.
    rewrite (bind_getitem s l d "freq" (VStr f)) by done.
    cbn [py_in]. rewrite bool_decide_eq_true_2 by done.
    unfold bind at 1. cbn [ret].
    rewrite (bind_contains s l d) by done.
    rewrite bool_decide_eq_true_2 by eauto.
    unfold bind at 1. rewrite (bind_getitem s l d "requirement" r) by done.
    destruct r as [x|b|xs]; [by destruct (Hns x)|done|done].
Qed.

(** On entries it accepts the parser returns the list it was given, the
    very same dictionaries, rewritten in place: each holds its entry with
    ['required'] and ['alternates'] set ([parsed]), also an entry that is
    in the list twice; no other dictionary changes, nothing is printed.
    Parsing the list again changes nothing. *)
Theorem parser_rewrites_the_entries_in_place
    (__file__ : string) (varlist : list loc) (s : pystate) :
  (∀ l, l ∈ varlist → ∃ d, heap s !! l = Some d ∧ accepted d) →
  ∃ s',
    _parse_pod_varlist __file__ varlist s = Ret varlist s' ∧
    (∀ (l : loc) (d : gmap string pyval), heap s !! l = Some d →
       heap s' !! l = Some (if bool_decide (l ∈ varlist) then parsed d else d)) ∧
    length (heap s') = length (heap s) ∧
    environ s' = environ s ∧ isfile s' = isfile s ∧ stdout s' = stdout s ∧
    _parse_pod_varlist __file__ varlist s' = Ret varlist s'.
Proof.
  intros Hall.
  destruct (parse_accepted_from __file__ s varlist [] s Hall (parsed_inv_start s))
    as (s' & E & Hout & Hen & Hfs & Hlen & Hheap).
  cbn [app] in Hheap.
  exists s'. unfold _parse_pod_varlist, bind. rewrite E. cbn [ret].
  split; [done|]. split; [exact Hheap|]. split; [done|]. split; [done|].
  split; [done|]. split; [done|].
  assert (∀ l, l ∈ varlist → ∃ d, heap s' !! l = Some d ∧ accepted d) as Hall'.
  { intros l Hin. destruct (Hall l Hin) as (d & Hd & Hacc).
    rewrite (Hheap l d Hd), bool_decide_eq_true_2 by done.
    eexists. split; [done|]. by apply accepted_parsed. }
  destruct (parse_accepted_from __file__ s' varlist [] s' Hall' (parsed_inv_start s'))
    as (s'' & E' & Hout' & Hen' & Hfs' & Hlen' & Hheap').
  cbn [app] in Hheap'. rewrite E'. f_equal.
  destruct s' as [h' en' fs' out'], s'' as [h'' en'' fs'' out''].
  cbn [heap environ isfile stdout] in *. subst. f_equal.
  apply list_eq. intros i.
  destruct (h' !! i) as [d'|] eqn:Ei.
  - etrans; [exact (Hheap' i d' Ei)|]. f_equal.
    destruct (lookup_lt_is_Some_2 (heap s) i) as [d Hd].
    { rewrite <- Hlen. by eapply lookup_lt_Some. }
    pose proof (Hheap i d Hd) as Hd'.
    assert (Some d' = Some (if bool_decide (i ∈ varlist) then parsed d else d)) as Hd''
      by (etrans; [symmetry; exact Ei | exact Hd']).
    injection Hd'' as ->.
    destruct (decide (i ∈ varlist)) as [Hin|Hnin].
    + rewrite !bool_decide_eq_true_2 by exact Hin. by rewrite parsed_idempotent.
    + rewrite !bool_decide_eq_false_2 by exact Hnin. done.
  - apply lookup_ge_None. rewrite Hlen'. by apply lookup_ge_None.
Qed.

(** The parser stops at the first entry it rejects, with the entries
    before it already rewritten in place and nothing undone: an entry
    without ['freq'] raises [KeyError], a frequency outside the allowed
    ones raises [AssertionError] with the message of the code, and an
    allowed frequency with a ['requirement'] that is not a string raises
    [AttributeError].  The rejected entry and the entries after it are
    left as they were. *)
Theorem parser_stops_at_the_first_rejected_entry
    (__file__ : string) (pre post : list loc) (l : loc) (d : gmap string pyval)
    (s : pystate) :
  (∀ l', l' ∈ pre → ∃ d', heap s !! l' = Some d' ∧ accepted d') →
  heap s !! l = Some d → l ∉ pre →
  ∃ s', parsed_inv s pre s' ∧
    (d !! "freq" = None →
       _parse_pod_varlist __file__ (pre ++ l :: post) s = Raise (KeyError "freq") s') ∧
    (∀ f, d !! "freq" = Some (VStr f) → f ∉ frequency_options →
       _parse_pod_varlist __file__ (pre ++ l :: post) s =
         Raise (AssertionError (assertion_message __file__ f)) s') ∧
    (∀ f r, d !! "freq" = Some (VStr f) → f ∈ frequency_options →
       d !! "requirement" = Some r → (∀ x, r ≠ VStr x) →
       _parse_pod_varlist __file__ (pre ++ l :: post) s = Raise AttributeError s').
Proof.
  intros Hall Hl Hnin.
  destruct (parse_accepted_from __file__ s pre [] s Hall (parsed_inv_start s))
    as (s' & E & Hinv).
  cbn [app] in Hinv. exists s'. split; [exact Hinv|].
  assert (heap s' !! l = Some d) as Hl'.
  { destruct Hinv as (_ & _ & _ & _ & Hheap).
    rewrite (Hheap l d Hl). by rewrite bool_decide_eq_false_2. }
  destruct (parse_entry_errors __file__ s' l d Hl') as (H1 & H2 & H3).
  assert (∀ e, parse_entry __file__ l s' = Raise e s' →
            _parse_pod_varlist __file__ (pre ++ l :: post) s = Raise e s') as Hraise.
  { intros e He. unfold _parse_pod_varlist. unfold bind at 1.
    rewrite for_each_app. unfold bind at 1. rewrite E.
    cbn [for_each]. unfold bind at 1. by rewrite He. }
  split; [|split].
  - intros Hf. apply Hraise, H1, Hf.
  - intros f Hf Hbad. by apply Hraise, H2.
  - intros f r Hf Hok Hr Hns. by apply Hraise, (H3 f r).
Qed.

End parser_extra.

Section instances_files.
Import shared_diagnostic Resolution ResolutionMore ParserMore Examples ExamplesFiles.

Lemma three_entries_sorted :
  ∃ s',
    _check_for_varlist_files 1 [0; 1; 2] ex_three =
      Ret (mkFiles
             (filter (λ p, isfile ex_three p = true)
                     (entry_path "/data" "QBOi" <$> [ex_prc; parsed ex_entry; ex_ua]))
             (entry_path "/data" "QBOi" <$>
                absent_required (isfile ex_three) "/data" "QBOi"
                  [ex_prc; parsed ex_entry; ex_ua])) s' ∧
    extends ex_three s'.
Proof.
  apply (entries_without_alternates_are_found_or_missing 0 ex_three [0; 1; 2]
           [ex_prc; parsed ex_entry; ex_ua] "QBOi" "/data").
  - repeat constructor.
  - repeat (apply Forall_cons_2 || apply Forall_nil_2);
      (split; [eexists _, _, _; repeat split; vm_compute; reflexivity
              | right; vm_compute; reflexivity]).
  - vm_compute. reflexivity.
  - vm_compute. reflexivity.
Defined.

Lemma parsing_the_example_in_place :
  ∃ s',
    _parse_pod_varlist "shared_diagnostic.py" [0] ex_settings = Ret [0] s' ∧
    heap s' !! 0 = Some (parsed ex_entry) ∧
    _parse_pod_varlist "shared_diagnostic.py" [0] s' = Ret [0] s'.
Proof.
  destruct (parser_rewrites_the_entries_in_place "shared_diagnostic.py" [0] ex_settings)
    as (s' & Hrun & Hheap & _ & _ & _ & _ & Hagain).
  - intros l Hl. apply list_elem_of_singleton in Hl. subst l.
    exists ex_entry. split; [reflexivity|].
    split; [split; [by exists "day"|by vm_compute]|].
    exists "day". split; [reflexivity|].
    unfold frequency_options. rewrite !elem_of_cons. tauto.
  - exists s'. split; [exact Hrun|]. split; [|exact Hagain].
    apply (Hheap 0 ex_entry eq_refl).
Defined.

Lemma weekly_frequency_is_rejected :
  ∃ s',
    _parse_pod_varlist "shared_diagnostic.py" [0; 1] ex_two_entries =
      Raise (AssertionError (assertion_message "shared_diagnostic.py" "week")) s' ∧
    heap s' !! 0 = Some (parsed ex_entry) ∧ heap s' !! 1 = Some ex_weekly.
Proof.
  destruct (parser_stops_at_the_first_rejected_entry "shared_diagnostic.py" [0] [] 1
              ex_weekly ex_two_entries) as (s' & Hinv & _ & Hbad & _).
  - intros l Hl. apply list_elem_of_singleton in Hl. subst l.
    exists ex_entry. split; [reflexivity|].
    split; [split; [by exists "day"|by vm_compute]|].
    exists "day". split; [reflexivity|].
    unfold frequency_options. rewrite !elem_of_cons. tauto.
  - reflexivity.
  - rewrite list_elem_of_singleton. discriminate.
  - destruct Hinv as (_ & _ & _ & _ & Hheap).
    exists s'. split; [|split].
    + apply (Hbad "week"); [reflexivity|].
      unfold frequency_options. rewrite !elem_of_cons, elem_of_nil.
      intros [?|[?|[?|[?|[?|[]]]]]]; discriminate.
    + apply (Hheap 0 ex_entry eq_refl).
    + apply (Hheap 1 ex_weekly eq_refl).
Defined.

End instances_files.

Section bidict.
Import util_translate TranslateMore.

Lemma remove_first_not_in x l : x ∉ l → remove_first x l = l.
Proof.
  induction l as [|y l IH]; [done|]. intros Hn. cbn [remove_first].
  apply not_elem_of_cons in Hn as [Hne Hn].
  destruct (String.eqb_spec y x) as [->|_]; [done|]. by rewrite IH.
Qed.

Lemma remove_first_app x l : x ∉ l → remove_first x (l ++ [x]) = l.
Proof.
  induction l as [|y l IH]; intros Hn; cbn [app remove_first].
  - by rewrite String.eqb_refl.
  - apply not_elem_of_cons in Hn as [Hne Hn].
    destruct (String.eqb_spec y x) as [->|_]; [done|]. by rewrite IH.
Qed.

Lemma elem_of_remove_first x k l :
  NoDup l → k ∈ remove_first x l ↔ k ∈ l ∧ k ≠ x.
Proof.
  induction 1 as [|y l Hy Hnd IH]; cbn [remove_first].
  { rewrite elem_of_nil. tauto. }
  destruct (String.eqb_spec y x) as [->|Hne].
  - rewrite elem_of_cons. split.
    + intros Hk. split; [by right|]. by intros ->.
    + intros [[->|Hk] Hkx]; done.
  - rewrite !elem_of_cons, IH. split.
    + intros [->|[Hk Hkx]]; [split; [by left|done]|split; [by right|done]].
    + intros [[->|Hk] Hkx]; [by left|right; done].
Qed.

Lemma NoDup_remove_first x l : NoDup l → NoDup (remove_first x l).
Proof.
  induction 1 as [|y l Hy Hnd IH]; cbn [remove_first]; [constructor|].
  destruct (String.eqb_spec y x) as [->|Hne]; [done|].
  constructor; [|done]. rewrite elem_of_remove_first by done. tauto.
Qed.

Lemma remove_first_singleton x l : NoDup l → x ∈ l → remove_first x l = [] → l = [x].
Proof.
  intros Hnd Hx Hr. destruct l as [|y l]; [by apply elem_of_nil in Hx|].
  cbn [remove_first] in Hr. destruct (String.eqb_spec y x) as [->|Hne]; [by subst|done].
Qed.

Lemma consistent_add fwd inv k v :
  consistent (BiDict.mk fwd inv) → fwd !! k = None →
  consistent (BiDict.mk (<[k := v]> fwd) (BiDict.inverse_add v k inv)).
Proof.
  intros [Hc Hnd] Hk. cbn [BiDict.forward BiDict.inverse] in *.
  unfold BiDict.inverse_add.
  assert (∀ ks, inv !! v = Some ks → k ∉ ks) as Hfresh.
  { intros ks Hks Hin. assert (fwd !! k = Some v) as H by (apply Hc; eauto). congruence. }
  split; cbn [BiDict.forward BiDict.inverse].
  - intros k' v'. destruct (decide (v' = v)) as [->|Hv].
    + rewrite lookup_insert_eq. split.
      * intros Hl. eexists. split; [done|]. apply elem_of_app.
        destruct (decide (k' = k)) as [->|Hne]; [right; apply list_elem_of_here|].
        rewrite lookup_insert_ne in Hl by done.
        apply Hc in Hl as (ks & Hks & Hin). rewrite Hks. by left.
      * intros (ks & Hks & Hin). inversion Hks; subst ks. clear Hks.
        apply elem_of_app in Hin as [Hin|Hin].
        -- destruct (inv !! v) as [ks|] eqn:Hks; [|by apply elem_of_nil in Hin].
           assert (fwd !! k' = Some v) as H by (apply Hc; eauto).
           rewrite lookup_insert_ne; [done|]. intros ->. congruence.
        -- apply list_elem_of_singleton in Hin. subst k'. apply lookup_insert_eq.
    + rewrite (lookup_insert_ne inv) by done. split.
      * intros Hl. destruct (decide (k' = k)) as [->|Hne].
        { rewrite lookup_insert_eq in Hl. congruence. }
        rewrite lookup_insert_ne in Hl by done. by apply Hc.
      * intros Hex. apply Hc in Hex. rewrite lookup_insert_ne; [done|].
        intros ->. congruence.
  - intros v' ks. destruct (decide (v' = v)) as [->|Hv].
    + rewrite lookup_insert_eq. intros Hks. inversion Hks; subst ks. clear Hks.
      apply NoDup_app. destruct (inv !! v) as [ks|] eqn:Hks; cbn [default].
      * split; [by eapply Hnd|]. split; [|apply NoDup_singleton].
        intros x Hx Hx'. apply list_elem_of_singleton in Hx'. subst x.
        by apply (Hfresh ks).
      * split; [constructor|]. split; [|apply NoDup_singleton].
        intros x Hx. by apply elem_of_nil in Hx.
    + rewrite lookup_insert_ne by done. apply Hnd.
Qed.

Lemma consistent_remove fwd inv k old ks :
  consistent (BiDict.mk fwd inv) → fwd !! k = Some old → inv !! old = Some ks →
  consistent (BiDict.mk (delete k fwd) (<[old := remove_first k ks]> inv)).
Proof.
  intros [Hc Hnd] Hk Hks. cbn [BiDict.forward BiDict.inverse] in *.
  pose proof (Hnd old ks Hks) as Hndks.
  split; cbn [BiDict.forward BiDict.inverse].
  - intros k' v'. destruct (decide (v' = old)) as [->|Hv].
    + rewrite lookup_insert_eq. split.
      * intros Hl. eexists. split; [done|].
        apply lookup_delete_Some in Hl as [Hne Hl].
        apply Hc in Hl as (ks' & Hks' & Hin). rewrite Hks in Hks'. inversion Hks'; subst ks'.
        apply elem_of_remove_first; [done|]. by split.
      * intros (ks' & Hks' & Hin). inversion Hks'; subst ks'. clear Hks'.
        apply elem_of_remove_first in Hin as [Hin Hne]; [|done].
        apply lookup_delete_Some. split; [done|]. apply Hc. eauto.
    + rewrite (lookup_insert_ne inv) by done. split.
      * intros Hl. apply lookup_delete_Some in Hl as [Hne Hl]. by apply Hc.
      * intros Hex. apply Hc in Hex. apply lookup_delete_Some. split; [|done].
        intros ->. congruence.
  - intros v' ks'. destruct (decide (v' = old)) as [->|Hv].
    + rewrite lookup_insert_eq. intros H. inversion H; subst ks'.
      by apply NoDup_remove_first.
    + rewrite lookup_insert_ne by done. apply Hnd.
Qed.

End bidict.

Section bidict_theorems.
Import util_translate TranslateMore.

Lemma consistent_drop_empty fwd inv v :
  consistent (BiDict.mk fwd inv) → inv !! v = Some [] →
  consistent (BiDict.mk fwd (delete v inv)).
Proof.
  intros [Hc Hnd] Hv. cbn [BiDict.forward BiDict.inverse] in *.
  split; cbn [BiDict.forward BiDict.inverse].
  - intros k' v'. rewrite Hc. split.
    + intros (ks & Hks & Hin). exists ks. split; [|done].
      rewrite lookup_delete_ne; [done|]. intros ->.
      rewrite Hv in Hks. inversion Hks; subst ks. by apply elem_of_nil in Hin.
    + intros (ks & Hks & Hin). apply lookup_delete_Some in Hks as [_ Hks]. eauto.
  - intros v' ks Hks. apply lookup_delete_Some in Hks as [_ Hks]. by eapply Hnd.
Qed.

(** [bd[key] = value] on a [BiDict] whose [inverse] is the inverse of the
    dictionary never raises and keeps it so: afterwards [bd[key]] is
    [value], [key] is in [bd.inverse[value]] and in no other list.  The
    value [key] had before keeps its entry in [inverse], also when its
    list of keys has become empty. *)
Theorem BiDict_setitem_keeps_the_inverse (bd : BiDict.t) (key value : string) :
  consistent bd →
  ∃ bd',
    BiDict.__setitem__ key value bd = BiDict.Ok bd' ∧
    consistent bd' ∧
    BiDict.forward bd' = <[key := value]> (BiDict.forward bd) ∧
    (∃ ks, BiDict.inverse bd' !! value = Some ks ∧ key ∈ ks) ∧
    (∀ old, BiDict.forward bd !! key = Some old → old ≠ value →
       ∃ ks, BiDict.inverse bd !! old = Some ks ∧
             BiDict.inverse bd' !! old = Some (remove_first key ks)).
Proof.
  destruct bd as [fwd inv]. intros Hc. pose proof Hc as [Hc1 Hnd].
  cbn [BiDict.forward BiDict.inverse] in *.
  unfold BiDict.__setitem__. cbn [BiDict.forward BiDict.inverse].
  destruct (fwd !! key) as [old|] eqn:Hk.
  - destruct (proj1 (Hc1 key old) Hk) as (ks & Hks & Hin).
    rewrite Hks, bool_decide_eq_true_2 by done.
    pose proof (consistent_remove fwd inv key old ks Hc Hk Hks) as Hc'.
    pose proof (consistent_add _ _ key value Hc' (lookup_delete_eq fwd key)) as Hc''.
    rewrite insert_delete_eq in Hc''.
    eexists. split; [reflexivity|]. split; [exact Hc''|]. split; [done|].
    cbn [BiDict.forward BiDict.inverse]. split.
    + apply (proj1 Hc''). cbn. apply lookup_insert_eq.
    + intros old' Hold Hne. inversion Hold; subst old'. exists ks. split; [done|].
      unfold BiDict.inverse_add. rewrite lookup_insert_ne by done. apply lookup_insert_eq.
  - pose proof (consistent_add fwd inv key value Hc Hk) as Hc'.
    eexists. split; [reflexivity|]. split; [exact Hc'|]. split; [done|].
    cbn [BiDict.forward BiDict.inverse]. split.
    + apply (proj1 Hc'). cbn. apply lookup_insert_eq.
    + intros old' Hold. discriminate.
Qed.

(** [del bd[key]]: a key that is not in the dictionary raises [KeyError]
    and changes nothing.  A key that is in it is removed from the
    dictionary and from the list of its value, [inverse] stays the
    inverse of the dictionary, and the entry of the value is deleted
    when its list has become empty; the entries of other values are
    untouched. *)
Theorem BiDict_delitem_keeps_the_inverse (bd : BiDict.t) (key : string) :
  (BiDict.forward bd !! key = None →
     BiDict.__delitem__ key bd = BiDict.Err (BiDict.KeyError key) bd) ∧
  (consistent bd → ∀ value, BiDict.forward bd !! key = Some value →
     ∃ bd',
       BiDict.__delitem__ key bd = BiDict.Ok bd' ∧
       consistent bd' ∧
       BiDict.forward bd' = delete key (BiDict.forward bd) ∧
       BiDict.inverse bd' !! value ≠ Some [] ∧
       (∀ v, v ≠ value → BiDict.inverse bd' !! v = BiDict.inverse bd !! v)).
Proof.
  destruct bd as [fwd inv]. cbn [BiDict.forward BiDict.inverse].
  unfold BiDict.__delitem__. cbn [BiDict.forward BiDict.inverse].
  split; [by intros ->|].
  intros Hc value Hk. pose proof Hc as [Hc1 Hnd].
  cbn [BiDict.forward BiDict.inverse] in *. rewrite Hk.
  destruct (proj1 (Hc1 key value) Hk) as (ks & Hks & Hin).
  rewrite Hks. change (default [] (Some ks)) with ks. rewrite bool_decide_eq_true_2 by done.
  rewrite insert_insert_eq, lookup_insert_eq.
  pose proof (consistent_remove fwd inv key value ks Hc Hk Hks) as Hc'.
  destruct (remove_first key ks) as [|x rest] eqn:Er.
  - eexists. split; [reflexivity|]. split.
    { apply consistent_drop_empty; [exact Hc'|apply lookup_insert_eq]. }
    split; [done|]. cbn [BiDict.forward BiDict.inverse]. split.
    + by rewrite lookup_delete_eq.
    + intros v Hv. by rewrite lookup_delete_ne, lookup_insert_ne.
  - eexists. split; [reflexivity|]. split; [exact Hc'|].
    split; [done|]. cbn [BiDict.forward BiDict.inverse]. split.
    + by rewrite lookup_insert_eq.
    + intros v Hv. by rewrite lookup_insert_ne.
Qed.

(** Setting a new key and deleting it again gives back the [BiDict],
    dictionary and [inverse] alike, provided the value did not have an
    empty list of keys before (such a list would be deleted with the
    key). *)
Theorem BiDict_delitem_undoes_setitem (bd : BiDict.t) (key value : string) :
  consistent bd → BiDict.forward bd !! key = None →
  BiDict.inverse bd !! value ≠ Some [] →
  ∃ bd1, BiDict.__setitem__ key value bd = BiDict.Ok bd1 ∧
         BiDict.__delitem__ key bd1 = BiDict.Ok bd.
Proof.
  destruct bd as [fwd inv]. cbn [BiDict.forward BiDict.inverse].
  intros [Hc Hnd] Hk Hne. cbn [BiDict.forward BiDict.inverse] in *.
  unfold BiDict.__setitem__. cbn [BiDict.forward BiDict.inverse]. rewrite Hk.
  eexists. split; [reflexivity|].
  unfold BiDict.__delitem__, BiDict.inverse_add. cbn [BiDict.forward BiDict.inverse].
  rewrite !lookup_insert_eq.
  change (default [] (Some (default [] (inv !! value) ++ [key])))
    with (default [] (inv !! value) ++ [key]).
  rewrite bool_decide_eq_true_2
    by (apply elem_of_app; right; apply list_elem_of_here).
  assert (key ∉ default [] (inv !! value)) as Hfresh.
  { destruct (inv !! value) as [ks|] eqn:Hks; [|apply not_elem_of_nil].
    intros Hin. assert (fwd !! key = Some value) as H by (apply Hc; eauto). congruence. }
  rewrite (remove_first_app key _ Hfresh).
  rewrite !insert_insert_eq.
  rewrite (delete_insert_id fwd key value Hk).
  destruct (inv !! value) as [ks|] eqn:Hks.
  - change (default [] (Some ks)) with ks.
    destruct ks as [|x ks]; [done|]. by rewrite insert_id.
  - change (default [] None) with (@nil string). by rewrite delete_insert_id.
Qed.

Lemma BiDict_init_fold (items : list (string * string)) : ∀ fwd inv,
  consistent (BiDict.mk fwd inv) → NoDup items.*1 →
  (∀ k, k ∈ items.*1 → fwd !! k = None) →
  consistent (BiDict.mk (list_to_map items ∪ fwd)
                (fold_left (fun inv kv => BiDict.inverse_add kv.2 kv.1 inv) items inv)).
Proof.
  induction items as [|[k v] items IH]; intros fwd inv Hc Hnd Hfresh.
  { cbn. by rewrite (left_id_L ∅ (∪)). }
  rewrite fmap_cons in Hnd. apply NoDup_cons in Hnd as [Hk Hnd].
  cbn [fold_left fst snd]. rewrite list_to_map_cons.
  assert (list_to_map items !! k = (None : option string)) as Hkm
    by (by apply not_elem_of_list_to_map_1).
  rewrite <- insert_union_l, (insert_union_r _ _ _ _ Hkm).
  apply IH; [|done|].
  - apply consistent_add; [done|]. apply Hfresh. rewrite fmap_cons. apply list_elem_of_here.
  - intros k' Hk'. rewrite lookup_insert_ne by (by intros ->).
    apply Hfresh. rewrite fmap_cons. by apply list_elem_of_further.
Qed.

Lemma BiDict_init_tables (items : list (string * string)) :
  NoDup items.*1 →
  consistent (BiDict.__init__ items) ∧ without_empty_lists (BiDict.__init__ items) ∧
  (∀ k v, BiDict.forward (BiDict.__init__ items) !! k = Some v ↔ (k, v) ∈ items).
Proof.
  intros Hnd.
  assert (consistent (BiDict.__init__ items)) as Hc.
  { pose proof (BiDict_init_fold items ∅ ∅) as H.
    rewrite (right_id_L ∅ (∪)) in H. apply H; [|done|by intros].
    split; cbn [BiDict.forward BiDict.inverse]; [|by intros ? ?].
    intros k v. split; [by intros ?|]. by intros (ks & ? & _). }
  split; [exact Hc|]. split.
  - assert (∀ (l : list (string * string)) inv,
              (∀ v, inv !! v ≠ Some []) →
              ∀ v, fold_left (fun inv kv => BiDict.inverse_add kv.2 kv.1 inv) l inv !! v
                   ≠ Some []) as Hfold.
    { induction l as [|[k v] l IH]; intros inv Hinv; [done|].
      cbn [fold_left fst snd]. apply IH. intros v'. unfold BiDict.inverse_add.
      destruct (decide (v' = v)) as [->|Hne].
      - rewrite lookup_insert_eq. intros H. inversion H as [H1].
        by apply app_eq_nil in H1 as [_ ?].
      - rewrite lookup_insert_ne by done. apply Hinv. }
    intros v. apply Hfold. by intros v'.
  - intros k v. cbn [BiDict.__init__ BiDict.forward].
    by rewrite <- elem_of_list_to_map.
Qed.

(** A [BiDict] built from a dictionary holds its items, and its [inverse]
    is the inverse of the dictionary, in whatever order the items were
    gone through: the keys of a value are exactly the keys mapped to it,
    each once, and no list is empty. *)
Theorem BiDict_init_builds_the_inverse (items : list (string * string)) :
  NoDup items.*1 →
  consistent (BiDict.__init__ items) ∧ without_empty_lists (BiDict.__init__ items) ∧
  (∀ k v, BiDict.forward (BiDict.__init__ items) !! k = Some v ↔ (k, v) ∈ items).
Proof. exact (BiDict_init_tables items). Qed.

End bidict_theorems.

Section translator_theorems.
Import util_translate TranslateMore.

Lemma NoDup_all_equal (x : string) (ks : list string) :
  NoDup ks → x ∈ ks → (∀ y, y ∈ ks → y = x) → ks = [x].
Proof.
  intros Hnd Hx Hall. destruct ks as [|a ks]; [by apply elem_of_nil in Hx|].
  assert (a = x) as -> by (apply Hall, list_elem_of_here).
  destruct ks as [|b ks]; [done|].
  assert (b = x) as -> by (apply Hall, list_elem_of_further, list_elem_of_here).
  apply NoDup_cons in Hnd as [Hn _]. destruct Hn. apply list_elem_of_here.
Qed.

(** Translating a name from CF to a convention and back.  [fromCF] gives
    the name the table maps the CF name to; [toCF] of that name gives the
    CF name back when no other CF name is mapped to it, and otherwise the
    list of all the CF names mapped to it, the given one among them. *)
Theorem translation_there_and_back
    (self : VariableTranslator.t) (convention : string) (table : BiDict.t)
    (cf name : string) :
  convention ≠ "CF" → self !! convention = Some table → consistent table →
  BiDict.forward table !! cf = Some name →
  VariableTranslator.fromCF self convention cf = inr (VStr name) ∧
  ∃ ks, BiDict.inverse table !! name = Some ks ∧ cf ∈ ks ∧
    VariableTranslator.toCF self convention name =
      inr (match ks with [k] => VStr k | _ => VList (VStr <$> ks) end) ∧
    ((∀ cf', BiDict.forward table !! cf' = Some name → cf' = cf) →
       VariableTranslator.toCF self convention name = inr (VStr cf)).
Proof.
  intros Hcf Hself [Hc Hnd] Hfwd.
  apply String.eqb_neq in Hcf.
  unfold VariableTranslator.fromCF, VariableTranslator.toCF. rewrite Hcf, Hself, Hfwd.
  split; [done|].
  destruct (proj1 (Hc cf name) Hfwd) as (ks & Hks & Hin).
  exists ks. rewrite Hks. split; [done|]. split; [done|].
  split; [by destruct ks as [|? [|? ?]]|].
  intros Honly.
  rewrite (NoDup_all_equal cf ks); [done|by eapply Hnd|done|].
  intros y Hy. apply Honly, Hc. eauto.
Qed.

(** The edges of the two translations.  The convention ['CF'] translates
    every name to itself, whatever the tables are.  Another convention
    that has no table fails the assertion with the message naming it; a
    name its table does not know raises [KeyError]; and a name whose list
    of keys is empty, as [BiDict.__setitem__] can leave it, translates to
    the empty list. *)
Theorem translation_edges
    (self : VariableTranslator.t) (convention name : string) :
  VariableTranslator.toCF self "CF" name = inr (VStr name) ∧
  VariableTranslator.fromCF self "CF" name = inr (VStr name) ∧
  (convention ≠ "CF" → self !! convention = None →
     VariableTranslator.toCF self convention name
       = inl (AssertionError (VariableTranslator.unrecognized convention)) ∧
     VariableTranslator.fromCF self convention name
       = inl (AssertionError (VariableTranslator.unrecognized convention))) ∧
  (∀ table, convention ≠ "CF" → self !! convention = Some table →
     (BiDict.inverse table !! name = None →
        VariableTranslator.toCF self convention name = inl (KeyError name)) ∧
     (BiDict.forward table !! name = None →
        VariableTranslator.fromCF self convention name = inl (KeyError name)) ∧
     (BiDict.inverse table !! name = Some [] →
        VariableTranslator.toCF self convention name = inr (VList []))).
Proof.
  unfold VariableTranslator.fromCF, VariableTranslator.toCF.
  split; [done|]. split; [done|]. split.
  - intros Hcf%String.eqb_neq Hself. by rewrite Hcf, Hself.
  - intros table Hcf%String.eqb_neq Hself. rewrite Hcf, Hself.
    split; [by intros ->|]. split; by intros ->.
Qed.

Lemma translator_init_step (file_contents : VariableTranslator.config_file)
    (names : list string) : ∀ (field_dict : gmap string BiDict.t) (P : BiDict.t → Prop),
  (∀ conv table, field_dict !! conv = Some table → P table) →
  P (BiDict.__init__ (VariableTranslator.var_names file_contents)) →
  ∀ conv table,
    fold_left (fun field_dict conv =>
                 <[conv := BiDict.__init__ (VariableTranslator.var_names file_contents)]>
                   field_dict) names field_dict !! conv = Some table →
    P table.
Proof.
  induction names as [|n names IH]; intros field_dict P Hall Hnew conv table; [apply Hall|].
  cbn [fold_left]. apply IH; [|done].
  intros conv' table'. destruct (decide (conv' = n)) as [->|Hne].
  - rewrite lookup_insert_eq. intros H. by inversion H; subst.
  - rewrite lookup_insert_ne by done. apply Hall.
Qed.

(** A translator built from configuration files always has an entry for
    ['CF'], and every table in it has a correct [inverse] without empty
    lists, so that the translations there and back apply to it. *)
Theorem translator_init_builds_correct_tables
    (files : list VariableTranslator.config_file) :
  Forall (λ f, NoDup (VariableTranslator.var_names f).*1) files →
  is_Some (VariableTranslator.__init__ files !! "CF") ∧
  ∀ conv table, VariableTranslator.__init__ files !! conv = Some table →
    consistent table ∧ without_empty_lists table.
Proof.
  intros Hfiles. unfold VariableTranslator.__init__.
  assert (∀ (fs : list VariableTranslator.config_file) (field_dict : gmap string BiDict.t),
    Forall (λ f, NoDup (VariableTranslator.var_names f).*1) fs →
    is_Some (field_dict !! "CF") →
    (∀ conv table, field_dict !! conv = Some table →
       consistent table ∧ without_empty_lists table) →
    let result := fold_left (fun field_dict file_contents =>
        let names := match VariableTranslator.convention_name file_contents with
                     | inl name => [name]
                     | inr names => names
                     end in
        fold_left (fun field_dict conv =>
            <[conv := BiDict.__init__ (VariableTranslator.var_names file_contents)]> field_dict)
          names field_dict) fs field_dict in
    is_Some (result !! "CF") ∧
    ∀ conv table, result !! conv = Some table →
      consistent table ∧ without_empty_lists table) as Hgen.
  { induction fs as [|f fs IH]; intros field_dict Hfs Hcf Hall; [by split|].
    apply Forall_cons in Hfs as [Hf Hfs]. cbn [fold_left]. apply IH; [done| |].
    - generalize dependent field_dict.
      induction (match VariableTranslator.convention_name f with
                 | inl name => [name] | inr names => names end) as [|n names IHn];
        intros field_dict Hcf Hall; [done|].
      cbn [fold_left]. apply IHn.
      + destruct (decide ("CF" = n)) as [<-|Hne];
          [by rewrite lookup_insert_eq|by rewrite lookup_insert_ne].
      + intros conv table. destruct (decide (conv = n)) as [->|Hne].
        * rewrite lookup_insert_eq. intros H. inversion H; subst table.
          destruct (BiDict_init_tables _ Hf) as (? & ? & _). by split.
        * rewrite lookup_insert_ne by done. apply Hall.
    - apply (translator_init_step f _ field_dict
               (λ table, consistent table ∧ without_empty_lists table)); [done|].
      destruct (BiDict_init_tables _ Hf) as (? & ? & _). by split. }
  unfold VariableTranslator.t in *.
  apply Hgen; [done|by rewrite lookup_insert_eq|].
  intros conv table. destruct (decide (conv = "CF")) as [->|Hne].
  - rewrite lookup_insert_eq. intros H. inversion H; subst table. split.
    + split; cbn [BiDict.forward BiDict.inverse]; [|by intros ? ?].
      intros k v. split; [by intros ?|]. by intros (ks & ? & _).
    + by intros v.
  - rewrite lookup_insert_ne by done. by intros ?.
Qed.

End translator_theorems.

Section instances_translate.
Import util_translate TranslateMore ExamplesTranslate.

Lemma ex_var_names_NoDup : NoDup ex_var_names.*1.
Proof. apply (bool_decide_unpack _). vm_compute. reflexivity. Qed.

Lemma ex_table_consistent : consistent ex_table.
Proof. apply BiDict_init_tables, ex_var_names_NoDup. Qed.

Lemma ex_translator_table : ex_translator !! "CESM" = Some ex_table.
Proof. vm_compute. reflexivity. Qed.

Lemma setitem_on_the_example :
  ∃ bd', BiDict.__setitem__ "prc_var" "PRECC" ex_table = BiDict.Ok bd' ∧
         consistent bd' ∧
         BiDict.inverse bd' !! "PRECT" = Some ["pr_var"].
Proof.
  destruct (BiDict_setitem_keeps_the_inverse ex_table "prc_var" "PRECC" ex_table_consistent)
    as (bd' & Hrun & Hc & _ & _ & Hold).
  exists bd'. split; [exact Hrun|]. split; [exact Hc|].
  destruct (Hold "PRECT") as (ks & Hks & Hks'); [reflexivity|discriminate|].
  rewrite Hks'. f_equal.
  assert (ks = ["pr_var"; "prc_var"]) as ->; [|reflexivity].
  apply (inj Some). rewrite <- Hks. vm_compute. reflexivity.
Defined.

Lemma setitem_then_delitem_on_the_example :
  ∃ bd1, BiDict.__setitem__ "va_var" "V" ex_table = BiDict.Ok bd1 ∧
         BiDict.__delitem__ "va_var" bd1 = BiDict.Ok ex_table.
Proof.
  apply (BiDict_delitem_undoes_setitem ex_table "va_var" "V" ex_table_consistent).
  - vm_compute. reflexivity.
  - vm_compute. discriminate.
Defined.

Lemma init_on_the_example :
  consistent ex_table ∧ without_empty_lists ex_table ∧
  (∀ k v, BiDict.forward ex_table !! k = Some v ↔ (k, v) ∈ ex_var_names).
Proof. exact (BiDict_init_builds_the_inverse ex_var_names ex_var_names_NoDup). Defined.

Lemma translation_on_the_example :
  VariableTranslator.fromCF ex_translator "CESM" "ua_var" = inr (VStr "U") ∧
  VariableTranslator.toCF ex_translator "CESM" "U" = inr (VStr "ua_var").
Proof.
  destruct (translation_there_and_back ex_translator "CESM" ex_table "ua_var" "U")
    as (Hfrom & ks & _ & _ & _ & Hto).
  - discriminate.
  - exact ex_translator_table.
  - exact ex_table_consistent.
  - vm_compute. reflexivity.
  - split; [exact Hfrom|]. apply Hto. intros cf' Hcf'.
    apply (BiDict_init_tables _ ex_var_names_NoDup) in Hcf'.
    unfold ex_var_names in Hcf'. rewrite !elem_of_cons in Hcf'.
    destruct Hcf' as [H|[H|[H|H]]]; [discriminate H|discriminate H| |by apply elem_of_nil in H].
    by injection H as ->.
Defined.

Lemma translator_on_the_example :
  is_Some (ex_translator !! "CF") ∧
  ∀ conv table, ex_translator !! conv = Some table →
    consistent table ∧ without_empty_lists table.
Proof.
  apply (translator_init_builds_correct_tables [ex_config]).
  apply Forall_cons_2; [exact ex_var_names_NoDup|apply Forall_nil_2].
Defined.

End instances_translate.

Section environment_variables.
Import shared_diagnostic Resolution util_env EnvMore.
Variable str_list : list pyval → string.

Local Abbreviation setenv := (setenv str_list).
Local Abbreviation env_string := (env_string str_list).

Lemma bind_assoc {St A B C} (m : M St A) (k1 : A → M St B) (k2 : B → M St C) s :
  bind (bind m k1) k2 s = bind m (λ a, bind (k1 a) k2) s.
Proof. unfold bind. by destruct (m s). Qed.

Lemma bind_ret_eq {St A B} (m : M St A) (k : A → M St B) s a s' :
  m s = Ret a s' → bind m k s = k a s'.
Proof. intros H. unfold bind. by rewrite H. Qed.

Lemma bind_getitem_missing {B} s l (d : gmap string pyval) k (K : pyval → Py B) :
  heap s !! l = Some d → d !! k = None → bind (getitem l k) K s = Raise (KeyError k) s.
Proof. intros Hl Hk. unfold getitem, bind, deref, dget. by rewrite Hl, Hk. Qed.

Lemma when_getitem_print s l (d : gmap string pyval) k v b (items : pyval → list pyval) :
  heap s !! l = Some d → d !! k = Some v →
  when b (x <- getitem l k ;; print (items x)) s
  = Ret tt (mkState (heap s) (environ s) (isfile s)
              (stdout s ++ (if b then [EvPrint (items v)] else []))).
Proof.
  intros Hl Hk. destruct b; unfold when.
  - by rewrite (bind_getitem s l d k v).
  - destruct s. unfold ret. simpl. by rewrite app_nil_r.
Qed.

Lemma when_getitem_print_any s l (d : gmap string pyval) k b
    (items : pyval → list pyval) :
  heap s !! l = Some d → (b = true → is_Some (d !! k)) →
  ∃ out, when b (x <- getitem l k ;; print (items x)) s
           = Ret tt (mkState (heap s) (environ s) (isfile s) (stdout s ++ out)) ∧
         (b = false → out = []).
Proof.
  intros Hl Hb. destruct b.
  - destruct Hb as [v Hv]; [done|]. exists [EvPrint (items v)]. split; [|done].
    by apply (when_getitem_print s l d k v true).
  - exists []. split; [|done]. destruct s. unfold when, ret. simpl. by rewrite app_nil_r.
Qed.

Lemma bind_environ_set {B} k v (K : unit → Py B) s :
  bind (environ_set k v) K s
  = K tt (mkState (heap s) (<[k := v]> (environ s)) (isfile s) (stdout s)).
Proof. reflexivity. Qed.

Lemma setenv_run s l (d : gmap string pyval) varname varvalue verbose overwrite :
  heap s !! l = Some d →
  if kept d varname overwrite then
    ∃ out, setenv varname varvalue l verbose overwrite s
             = Ret tt (mkState (heap s) (environ s) (isfile s) (stdout s ++ out)) ∧
           ((verbose ≤ 0)%Z → out = [])
  else if bool_decide (is_Some (d !! "varname")) && bool_decide (d !! varname = None) then
    setenv varname varvalue l verbose overwrite s = Raise (KeyError varname) s
  else
    ∃ out, setenv varname varvalue l verbose overwrite s
             = Ret tt (mkState (<[l := <[varname := varvalue]> d]> (heap s))
                         (<[varname := env_string varvalue]> (environ s))
                         (isfile s) (stdout s ++ out)) ∧
           ((verbose ≤ 0)%Z → out = []).
Proof.
  intros Hl. pose proof (lookup_lt_Some _ _ _ Hl) as Hlt.
  unfold kept, util_env.setenv.
  destruct (negb overwrite && bool_decide (is_Some (d !! varname))) eqn:Hk.
  - apply andb_true_iff in Hk as [Ho Hp]. apply bool_decide_eq_true in Hp as [old Hold].
    rewrite Ho, (bind_contains s l d) by done.
    rewrite bool_decide_eq_true_2 by eauto.
    erewrite bind_ret_eq;
      [|exact (when_getitem_print s l d varname old _
                 (λ x, [VStr "Not overwriting ENV "; VStr varname; VStr " = "; x]) Hl Hold)].
    erewrite (when_getitem_print _ l d varname old _
                (λ x, [VStr "Check "; VStr varname; VStr " "; x])); [|exact Hl|exact Hold].
    cbn [heap environ isfile stdout]. rewrite <- app_assoc.
    eexists. split; [reflexivity|]. intros Hv.
    by rewrite !(proj2 (Z.ltb_ge _ _)) by lia.
  - assert ((if negb overwrite then contains l varname else ret false) s = Ret false s) as HA.
    { destruct overwrite; cbn [negb andb] in *; [done|].
      unfold contains, bind, deref. by rewrite Hl, Hk. }
    rewrite (bind_ret_eq _ _ _ _ _ HA). cbv beta iota.
    rewrite !bind_assoc, (bind_contains s l d) by done.
    destruct (bool_decide (is_Some (d !! "varname")) && bool_decide (d !! varname = None))
      eqn:Hr.
    { apply andb_true_iff in Hr as [Hh Hn]. apply bool_decide_eq_true in Hn.
      rewrite Hh, !bind_assoc. by apply bind_getitem_missing with d. }
    set (has := bool_decide (is_Some (d !! "varname"))) in *.
    assert (∃ w, (if has then old <- getitem l varname ;;
                               ret (negb (py_eqb old varvalue) && (0 <? verbose)%Z)
                  else ret false) s = Ret w s ∧
                 (w = true → is_Some (d !! varname) ∧ (0 < verbose)%Z)) as (w & Hw & Hcond).
    { destruct has.
      - destruct (d !! varname) as [old|] eqn:Hv.
        + eexists. split; [by rewrite (bind_getitem s l d varname old)|].
          intros [_ Hlt']%andb_true_iff. split; [eauto|]. by apply Z.ltb_lt.
        + by rewrite bool_decide_eq_true_2 in Hr.
      - by exists false. }
    rewrite !bind_assoc, (bind_ret_eq _ _ _ _ _ Hw). cbv beta.
    destruct (when_getitem_print_any s l d varname w
                (λ x, [VStr "WARNING: setenv "; VStr varname; VStr " = "; varvalue;
                       VStr " overriding previous setting "; x]) Hl) as (o1 & Hwarn & Ho1);
      [by intros [? _]%Hcond|].
    rewrite !bind_assoc, (bind_ret_eq _ _ _ _ _ Hwarn).
    rewrite !bind_assoc, (bind_setitem _ l d) by exact Hl.
    rewrite !bind_assoc, bind_environ_set.
    cbn [heap environ isfile stdout set_heap].
    erewrite bind_ret_eq;
      [|apply (when_getitem_print _ l (<[varname := varvalue]> d) varname varvalue _
                 (λ x, [VStr "ENV "; VStr varname; VStr " = "; x]));
        [by apply list_lookup_insert_eq|by rewrite lookup_insert_eq]].
    erewrite (when_getitem_print _ l (<[varname := varvalue]> d) varname varvalue _
                (λ x, [VStr "Check "; VStr varname; VStr " "; x]));
      [|by apply list_lookup_insert_eq|by rewrite lookup_insert_eq].
    cbn [heap environ isfile stdout]. rewrite <- !app_assoc.
    eexists. split; [reflexivity|]. intros Hv.
    rewrite !(proj2 (Z.ltb_ge _ _)) by lia. rewrite !app_nil_r.
    apply Ho1. destruct w; [|done]. destruct Hcond as [_ ?]; [done|lia].
Qed.

Lemma setenv_plain s l (d : gmap string pyval) varname varvalue verbose :
  heap s !! l = Some d → d !! "varname" = None →
  ∃ out, setenv varname varvalue l verbose true s
           = Ret tt (mkState (<[l := <[varname := varvalue]> d]> (heap s))
                       (<[varname := env_string varvalue]> (environ s))
                       (isfile s) (stdout s ++ out)) ∧
         ((verbose ≤ 0)%Z → out = []).
Proof.
  intros Hl Hn. pose proof (setenv_run s l d varname varvalue verbose true Hl) as H.
  unfold kept in H. cbn [negb andb] in H.
  by rewrite (bool_decide_eq_false_2 (is_Some (d !! "varname"))) in H
    by (rewrite Hn; by intros [? ?]).
Qed.

Lemma set_pod_loop (l : loc) verbose (e0 : gmap string string)
    (items : list (string * string)) : ∀ s (d : gmap string pyval),
  heap s !! l = Some d → d !! "varname" = None → "varname" ∉ items.*1 →
  environ s = (env_string <$> d) ∪ e0 →
  let d' := fold_left (fun d kv => <[kv.1 := VStr kv.2]> d) items d in
  ∃ out,
    for_each items tt (fun _ kv => setenv kv.1 (VStr kv.2) l verbose true) s
      = Ret tt (mkState (<[l := d']> (heap s)) ((env_string <$> d') ∪ e0)
                  (isfile s) (stdout s ++ out)) ∧
    ((verbose ≤ 0)%Z → out = []).
Proof.
  induction items as [|[k v] items IH]; intros s d Hl Hn Hitems He; cbn zeta.
  - exists []. split; [|done]. cbn [for_each fold_left]. unfold ret.
    rewrite list_insert_id by done. rewrite <- He. destruct s. simpl. by rewrite app_nil_r.
  - rewrite fmap_cons, not_elem_of_cons in Hitems. destruct Hitems as [Hk Hitems].
    cbn [fst] in Hk.
    destruct (setenv_plain s l d k (VStr v) verbose Hl Hn) as (o1 & Hrun & Ho1).
    cbn [for_each fold_left fst snd]. rewrite (bind_ret_eq _ _ _ _ _ Hrun).
    edestruct (IH (mkState (<[l := <[k := VStr v]> d]> (heap s))
                     (<[k := env_string (VStr v)]> (environ s)) (isfile s) (stdout s ++ o1))
                 (<[k := VStr v]> d)) as (o2 & Hloop & Ho2).
    + cbn [heap]. apply list_lookup_insert_eq. by eapply lookup_lt_Some.
    + rewrite lookup_insert_ne; [done|]. by intros ->.
    + done.
    + cbn [environ]. by rewrite He, fmap_insert, insert_union_l.
    + cbn zeta in Hloop. rewrite Hloop. cbn [heap isfile stdout].
      rewrite list_insert_insert_eq, <- app_assoc.
      eexists. split; [reflexivity|]. intros Hv. by rewrite Ho1, Ho2.
Qed.

Lemma fold_insert_other (items : list (string * string)) k : ∀ d : gmap string pyval,
  k ∉ items.*1 →
  fold_left (fun d kv => <[kv.1 := VStr kv.2]> d) items d !! k = d !! k.
Proof.
  induction items as [|[k' v'] items IH]; intros d Hk; [done|].
  rewrite fmap_cons, not_elem_of_cons in Hk. destruct Hk as [Hne Hk].
  cbn [fold_left fst snd]. rewrite IH by done. by rewrite lookup_insert_ne.
Qed.

Lemma fold_insert_item (items : list (string * string)) k v : ∀ d : gmap string pyval,
  NoDup items.*1 → (k, v) ∈ items →
  fold_left (fun d kv => <[kv.1 := VStr kv.2]> d) items d !! k = Some (VStr v).
Proof.
  induction items as [|[k' v'] items IH]; intros d Hnd Hin; [by apply elem_of_nil in Hin|].
  rewrite fmap_cons in Hnd. apply NoDup_cons in Hnd as [Hk' Hnd].
  cbn [fold_left fst snd]. apply elem_of_cons in Hin as [Heq|Hin].
  - injection Heq as -> ->. rewrite fold_insert_other by done. by rewrite lookup_insert_eq.
  - by apply IH.
Qed.

Lemma set_pod_start POD_CODE_DIR POD_OBS_DATA POD_WK_DIR verbose s :
  let l := length (heap s) in
  let d := pod_dict POD_CODE_DIR POD_OBS_DATA POD_WK_DIR [] in
  ∃ out,
    (∀ B (K : unit → Py B),
       (setenv "POD_HOME" (VStr POD_CODE_DIR) l verbose true ;;;
        setenv "OBS_DATA" (VStr POD_OBS_DATA) l verbose true ;;;
        x <- setenv "WK_DIR" (VStr POD_WK_DIR) l verbose true ;; K x)
         (mkState (heap s ++ [∅]) (environ s) (isfile s) (stdout s))
       = K tt (mkState (heap s ++ [d]) ((env_string <$> d) ∪ environ s)
                 (isfile s) (stdout s ++ out))) ∧
    ((verbose ≤ 0)%Z → out = []).
Proof.
  intros l d.
  set (s0 := mkState (heap s ++ [∅]) (environ s) (isfile s) (stdout s)).
  assert (heap s0 !! l = Some (∅ : gmap string pyval)) as Hl0
    by (cbn [heap s0]; by rewrite list_lookup_middle).
  destruct (setenv_plain s0 l ∅ "POD_HOME" (VStr POD_CODE_DIR) verbose Hl0 eq_refl)
    as (o1 & H1 & Ho1).
  match type of H1 with _ = Ret _ ?s' => set (s1 := s') in * end.
  assert (heap s1 !! l = Some (<["POD_HOME" := VStr POD_CODE_DIR]> (∅ : gmap string pyval)))
    as Hl1 by (cbn [heap s1]; apply list_lookup_insert_eq; by eapply lookup_lt_Some).
  destruct (setenv_plain s1 l _ "OBS_DATA" (VStr POD_OBS_DATA) verbose Hl1 eq_refl)
    as (o2 & H2 & Ho2).
  match type of H2 with _ = Ret _ ?s' => set (s2 := s') in * end.
  assert (heap s2 !! l = Some (<["OBS_DATA" := VStr POD_OBS_DATA]>
                                 (<["POD_HOME" := VStr POD_CODE_DIR]>
                                    (∅ : gmap string pyval))))
    as Hl2 by (cbn [heap s2]; apply list_lookup_insert_eq; by eapply lookup_lt_Some).
  destruct (setenv_plain s2 l _ "WK_DIR" (VStr POD_WK_DIR) verbose Hl2 eq_refl)
    as (o3 & H3 & Ho3).
  exists (o1 ++ o2 ++ o3). split.
  - intros B K.
    rewrite (bind_ret_eq _ _ _ _ _ H1), (bind_ret_eq _ _ _ _ _ H2),
      (bind_ret_eq _ _ _ _ _ H3).
    f_equal. unfold s2, s1, s0. cbn [heap environ isfile stdout].
    rewrite !list_insert_insert_eq. f_equal. f_equal.
    + unfold l. rewrite insert_app_r_alt by done. by rewrite Nat.sub_diag.
    + unfold d, pod_dict. cbn [fold_left].
      by rewrite !fmap_insert, fmap_empty, <- !insert_union_l, (left_id_L ∅ (∪)).
    + by rewrite <- !app_assoc.
  - intros Hv. by rewrite Ho1, Ho2, Ho3.
Qed.

(** What [setenv] does.  A call with [overwrite=False] on a variable the
    dictionary has leaves the dictionary and [os.environ] as they are.
    Another call stores the value as given in the dictionary and its
    string in [os.environ], ['1'] or ['0'] for a boolean; but it raises
    [KeyError] and changes nothing when the dictionary has the key
    ['varname'] and not the variable.  Nothing is printed at verbosity 0
    or less. *)
Theorem setenv_sets_dictionary_and_environment
    (s : pystate) (env_dict : loc) (d : gmap string pyval)
    (varname : string) (varvalue : pyval) (verbose : Z) (overwrite : bool) :
  heap s !! env_dict = Some d →
  (overwrite = false → is_Some (d !! varname) →
     ∃ s', setenv varname varvalue env_dict verbose overwrite s = Ret tt s' ∧
           heap s' = heap s ∧ environ s' = environ s ∧ isfile s' = isfile s ∧
           ((verbose ≤ 0)%Z → quiet s s')) ∧
  (is_Some (d !! "varname") → d !! varname = None →
     setenv varname varvalue env_dict verbose overwrite s = Raise (KeyError varname) s) ∧
  (kept d varname overwrite = false →
   (is_Some (d !! "varname") → is_Some (d !! varname)) →
     ∃ s', setenv varname varvalue env_dict verbose overwrite s = Ret tt s' ∧
           heap s' = <[env_dict := <[varname := varvalue]> d]> (heap s) ∧
           environ s' = <[varname := env_string varvalue]> (environ s) ∧
           isfile s' = isfile s ∧
           ((verbose ≤ 0)%Z → quiet s s')) ∧
  env_string (VBool true) = "1" ∧ env_string (VBool false) = "0" ∧
  (∀ x, env_string (VStr x) = x).
Proof.
  intros Hl.
  pose proof (setenv_run s env_dict d varname varvalue verbose overwrite Hl) as H.
  split; [|split; [|split; [|done]]].
  - intros -> Hp. unfold kept in H. cbn [negb andb] in H.
    rewrite bool_decide_eq_true_2 in H by done. destruct H as (out & -> & Hout).
    eexists. split; [reflexivity|]. cbn [heap environ isfile]. repeat split.
    intros Hv. unfold quiet. cbn [stdout]. by rewrite Hout, app_nil_r.
  - intros Hh Hn. unfold kept in H.
    rewrite (bool_decide_eq_false_2 (is_Some (d !! varname))), andb_false_r in H
      by (rewrite Hn; by intros [? ?]).
    by rewrite !bool_decide_eq_true_2 in H.
  - intros Hk Himp. rewrite Hk in H.
    destruct (bool_decide (is_Some (d !! "varname")) && bool_decide (d !! varname = None))
      eqn:Hr.
    { apply andb_true_iff in Hr as [Hh%bool_decide_eq_true Hn%bool_decide_eq_true].
      destruct (Himp Hh) as [? Hsome]. by rewrite Hsome in Hn. }
    destruct H as (out & -> & Hout).
    eexists. split; [reflexivity|]. cbn [heap environ isfile]. repeat split.
    intros Hv. unfold quiet. cbn [stdout]. by rewrite Hout, app_nil_r.
Qed.

(** [setenv] keeps [os.environ] in step with the dictionary: when every
    variable of the dictionary is in the environment with the string of
    its value, this is so again after a call that returns, whatever its
    arguments.  The other dictionaries are not touched. *)
Theorem setenv_keeps_environment_in_step
    (s s' : pystate) (env_dict : loc) (d : gmap string pyval)
    (varname : string) (varvalue : pyval) (verbose : Z) (overwrite : bool) :
  heap s !! env_dict = Some d →
  in_step str_list d (environ s) →
  setenv varname varvalue env_dict verbose overwrite s = Ret tt s' →
  ∃ d', heap s' !! env_dict = Some d' ∧ in_step str_list d' (environ s') ∧
        (∀ k, k ≠ varname → d' !! k = d !! k) ∧
        (∀ l : loc, l ≠ env_dict → heap s' !! l = heap s !! l).
Proof.
  intros Hl Hstep Hrun.
  pose proof (setenv_run s env_dict d varname varvalue verbose overwrite Hl) as H.
  destruct (kept d varname overwrite).
  - destruct H as (out & H & _). rewrite H in Hrun. injection Hrun as <-.
    exists d. by cbn [heap environ].
  - destruct (bool_decide (is_Some (d !! "varname")) && bool_decide (d !! varname = None)).
    { by rewrite H in Hrun. }
    destruct H as (out & H & _). rewrite H in Hrun. injection Hrun as <-.
    exists (<[varname := varvalue]> d). cbn [heap environ]. split; [|split; [|split]].
    + apply list_lookup_insert_eq. by eapply lookup_lt_Some.
    + intros k v. destruct (decide (k = varname)) as [->|Hne].
      * rewrite !lookup_insert_eq. by intros [= ->].
      * rewrite !lookup_insert_ne by done. apply Hstep.
    + intros k Hne. by rewrite lookup_insert_ne.
    + intros l Hne. by rewrite list_lookup_insert_ne.
Qed.

(** [_set_pod_env_vars] on a job whose settings name no variable
    ['varname'] returns a new dictionary with [POD_HOME], [OBS_DATA],
    [WK_DIR] and the variables of the settings, a setting of one of the
    three names taking its place; [os.environ] gets exactly these
    variables over what it had; the dictionaries there were are kept. *)
Theorem set_pod_env_vars_returns_the_variables
    (POD_CODE_DIR POD_OBS_DATA : string) (self : Diagnostic.t) (verbose : Z)
    (s : pystate) :
  "varname" ∉ (Diagnostic.pod_env_vars self).*1 →
  let d := pod_dict POD_CODE_DIR POD_OBS_DATA (Diagnostic.POD_WK_DIR self)
             (Diagnostic.pod_env_vars self) in
  ∃ s',
    _set_pod_env_vars str_list POD_CODE_DIR POD_OBS_DATA self verbose s
      = Ret (length (heap s)) s' ∧
    heap s' = heap s ++ [d] ∧
    environ s' = (env_string <$> d) ∪ environ s ∧
    isfile s' = isfile s ∧
    ((verbose ≤ 0)%Z → quiet s s') ∧
    (NoDup (Diagnostic.pod_env_vars self).*1 →
       ∀ k v, (k, v) ∈ Diagnostic.pod_env_vars self →
         d !! k = Some (VStr v) ∧ environ s' !! k = Some v) ∧
    (∀ k, k ∉ (Diagnostic.pod_env_vars self).*1 →
       d !! k = pod_dict POD_CODE_DIR POD_OBS_DATA (Diagnostic.POD_WK_DIR self) [] !! k).
Proof.
  intros Hvar d. unfold _set_pod_env_vars.
  destruct (set_pod_start POD_CODE_DIR POD_OBS_DATA (Diagnostic.POD_WK_DIR self) verbose s)
    as (o1 & Hstart & Ho1). cbn zeta in Hstart.
  unfold bind at 1. unfold new_dict at 1. rewrite Hstart.
  set (d0 := pod_dict POD_CODE_DIR POD_OBS_DATA (Diagnostic.POD_WK_DIR self) []) in *.
  edestruct (set_pod_loop (length (heap s)) verbose (environ s)
               (Diagnostic.pod_env_vars self)
               (mkState (heap s ++ [d0]) ((env_string <$> d0) ∪ environ s)
                  (isfile s) (stdout s ++ o1)) d0) as (o2 & Hloop & Ho2).
  { cbn [heap]. by rewrite list_lookup_middle. }
  { done. }
  { done. }
  { done. }
  cbn zeta in Hloop. rewrite (bind_ret_eq _ _ _ _ _ Hloop). unfold ret.
  eexists. split; [reflexivity|]. cbn [heap environ isfile].
  assert (∀ k v, d !! k = Some (VStr v) →
            ((env_string <$> d) ∪ environ s) !! k = Some v) as Henv.
  { intros k v Hk. apply lookup_union_Some_l. by rewrite lookup_fmap, Hk. }
  split; [|split; [done|split; [done|split; [|split]]]].
  - rewrite insert_app_r_alt by done. by rewrite Nat.sub_diag.
  - intros Hv. unfold quiet. cbn [stdout]. by rewrite Ho1, Ho2, !app_nil_r.
  - intros Hnd k v Hin.
    assert (d !! k = Some (VStr v)) as Hk by (by apply fold_insert_item).
    split; [exact Hk|]. by apply Henv.
  - intros k Hk. by apply fold_insert_other.
Qed.

(** A setting named ['varname'] breaks the settings after it: when the
    next variable of the settings is a new one, [_set_pod_env_vars]
    raises [KeyError] with its name, after [os.environ] got the variables
    before it. *)
Theorem set_pod_env_vars_raises_after_varname
    (POD_CODE_DIR POD_OBS_DATA : string) (self : Diagnostic.t) (verbose : Z)
    (s : pystate) (before rest : list (string * string)) (v k v' : string) :
  Diagnostic.pod_env_vars self = before ++ ("varname", v) :: (k, v') :: rest →
  "varname" ∉ before.*1 →
  k ∉ ["POD_HOME"; "OBS_DATA"; "WK_DIR"; "varname"] ++ before.*1 →
  let d := pod_dict POD_CODE_DIR POD_OBS_DATA (Diagnostic.POD_WK_DIR self)
             (before ++ [("varname", v)]) in
  ∃ s',
    _set_pod_env_vars str_list POD_CODE_DIR POD_OBS_DATA self verbose s
      = Raise (KeyError k) s' ∧
    heap s' = heap s ++ [d] ∧
    environ s' = (env_string <$> d) ∪ environ s.
Proof.
  intros Hitems Hvar Hk d. unfold _set_pod_env_vars.
  destruct (set_pod_start POD_CODE_DIR POD_OBS_DATA (Diagnostic.POD_WK_DIR self) verbose s)
    as (o1 & Hstart & Ho1). cbn zeta in Hstart.
  unfold bind at 1. unfold new_dict at 1. rewrite Hstart.
  set (d0 := pod_dict POD_CODE_DIR POD_OBS_DATA (Diagnostic.POD_WK_DIR self) []) in *.
  set (l := length (heap s)) in *.
  unfold bind at 1. rewrite Hitems, for_each_app.
  edestruct (set_pod_loop l verbose (environ s) before
               (mkState (heap s ++ [d0]) ((env_string <$> d0) ∪ environ s)
                  (isfile s) (stdout s ++ o1)) d0) as (o2 & Hloop & Ho2).
  { cbn [heap]. unfold l. by rewrite list_lookup_middle. }
  { done. }
  { done. }
  { done. }
  cbn zeta in Hloop. rewrite (bind_ret_eq _ _ _ _ _ Hloop).
  cbv beta. cbn [for_each fst snd].
  set (d1 := fold_left (fun d kv => <[kv.1 := VStr kv.2]> d) before d0) in *.
  assert (d = <["varname" := VStr v]> d1) as Hd.
  { unfold d, pod_dict. by rewrite fold_left_app. }
  match goal with |- context [bind _ _ ?st] => set (s1 := st) end.
  assert (heap s1 !! l = Some d1) as Hl1.
  { cbn [heap s1]. apply list_lookup_insert_eq. rewrite length_app. simpl. unfold l. lia. }
  assert (d1 !! "varname" = None) as Hn1.
  { unfold d1. by rewrite fold_insert_other. }
  destruct (setenv_plain s1 l d1 "varname" (VStr v) verbose Hl1 Hn1) as (o3 & Hrun & _).
  rewrite (bind_ret_eq _ _ _ _ _ Hrun). cbv beta.
  match goal with |- context [bind _ _ ?st] => set (s2 := st) end.
  assert (heap s2 !! l = Some d) as Hl2.
  { cbn [heap s2]. rewrite Hd. apply list_lookup_insert_eq. by eapply lookup_lt_Some. }
  rewrite !not_elem_of_app, !not_elem_of_cons in Hk.
  destruct Hk as [(Hk1 & Hk2 & Hk3 & Hk4 & _) Hk5].
  assert (d !! k = None) as Hnk.
  { rewrite Hd, lookup_insert_ne by done. unfold d1. rewrite fold_insert_other by done.
    unfold d0, pod_dict. cbn [fold_left]. by rewrite !lookup_insert_ne. }
  pose proof (setenv_run s2 l d k (VStr v') verbose true Hl2) as H.
  unfold kept in H. cbn [negb andb] in H.
  rewrite !bool_decide_eq_true_2 in H;
    [|exact Hnk|rewrite Hd, lookup_insert_eq; by eexists].
  cbn [andb] in H. unfold bind at 1. rewrite H.
  eexists. split; [reflexivity|]. cbn [heap environ s2 s1]. split.
  - rewrite list_insert_insert_eq. fold l. rewrite <- Hd.
    unfold l. rewrite insert_app_r_alt by done. by rewrite Nat.sub_diag.
  - by rewrite Hd, fmap_insert, insert_union_l.
Qed.

End environment_variables.

Section instances_env.
Import shared_diagnostic Resolution util_env EnvMore Examples ExamplesEnv.

Lemma setenv_on_the_example :
  (∃ s', setenv ex_str_list "CASENAME" (VStr "other") 0 0 false ex_env_state = Ret tt s' ∧
         heap s' = heap ex_env_state ∧ environ s' = environ ex_env_state) ∧
  (∃ s', setenv ex_str_list "debug" (VBool true) 0 0 true ex_env_state = Ret tt s' ∧
         environ s' = <["debug" := "1"]> ex_environ).
Proof.
  destruct (setenv_sets_dictionary_and_environment ex_str_list ex_env_state 0 ex_env_dict
              "CASENAME" (VStr "other") 0 false eq_refl) as (Hkeep & _).
  destruct (setenv_sets_dictionary_and_environment ex_str_list ex_env_state 0 ex_env_dict
              "debug" (VBool true) 0 true eq_refl) as (_ & _ & Hset & _).
  split.
  - destruct Hkeep as (s' & Hrun & Hh & He & _); [reflexivity|by eexists|].
    by exists s'.
  - destruct Hset as (s' & Hrun & _ & He & _); [reflexivity|by intros [? ?]|].
    by exists s'.
Defined.

Lemma setenv_in_step_on_the_example :
  ∃ d', in_step ex_str_list d' (<["debug" := "1"]> ex_environ) ∧
        d' !! "CASENAME" = Some (VStr "QBOi").
Proof.
  destruct (setenv_keeps_environment_in_step ex_str_list ex_env_state
              (mkState [<["debug" := VBool true]> ex_env_dict]
                 (<["debug" := "1"]> ex_environ) ex_disk [])
              0 ex_env_dict "debug" (VBool true) 0 true eq_refl)
    as (d' & Hl & Hstep & Hother & _).
  - intros k v. unfold ex_env_dict. destruct (decide (k = "CASENAME")) as [->|Hne].
    + rewrite lookup_insert_eq. by intros [= <-].
    + by rewrite lookup_insert_ne, lookup_empty.
  - vm_compute. reflexivity.
  - exists d'. split; [exact Hstep|]. by rewrite Hother.
Defined.

Lemma set_pod_env_vars_on_the_example :
  ∃ s', _set_pod_env_vars ex_str_list "/code/convective" "/obs/convective"
          ex_pod_with_vars 0 ex_env_state = Ret 1 s' ∧
        environ s' !! "WK_DIR" = Some "/scratch" ∧
        environ s' !! "POD_HOME" = Some "/code/convective".
Proof.
  destruct (set_pod_env_vars_returns_the_variables ex_str_list "/code/convective"
              "/obs/convective" ex_pod_with_vars 0 ex_env_state)
    as (s' & Hrun & _ & He & _ & _ & Hitem & _).
  - simpl. rewrite !not_elem_of_cons. repeat split; try discriminate.
    apply not_elem_of_nil.
  - exists s'. split; [exact Hrun|]. split.
    + apply (Hitem ltac:(apply (bool_decide_unpack _); vm_compute; reflexivity)
               "WK_DIR" "/scratch").
      apply list_elem_of_further, list_elem_of_here.
    + rewrite He. vm_compute. reflexivity.
Defined.

Lemma set_pod_env_vars_raises_on_the_example :
  ∃ s', _set_pod_env_vars ex_str_list "/code/precip" "/obs/precip"
          ex_pod_with_varname 0 ex_env_state = Raise (KeyError "lat_var") s' ∧
        environ s' !! "varname" = Some "pr".
Proof.
  destruct (set_pod_env_vars_raises_after_varname ex_str_list "/code/precip" "/obs/precip"
              ex_pod_with_varname 0 ex_env_state [] [] "pr" "lat_var" "lat" eq_refl)
    as (s' & Hrun & _ & He).
  - apply not_elem_of_nil.
  - cbn [app fmap list_fmap]. rewrite !not_elem_of_cons.
    repeat split; try discriminate. apply not_elem_of_nil.
  - exists s'. split; [exact Hrun|]. rewrite He. vm_compute. reflexivity.
Defined.

End instances_env.

Section instances_edges.
Import shared_diagnostic environment_manager util_translate TranslateMore.
Import Examples ExamplesTranslate.

Lemma delitem_on_the_example :
  BiDict.__delitem__ "va_var" ex_table = BiDict.Err (BiDict.KeyError "va_var") ex_table ∧
  ∃ bd', BiDict.__delitem__ "prc_var" ex_table = BiDict.Ok bd' ∧ consistent bd' ∧
         BiDict.inverse bd' !! "U" = BiDict.inverse ex_table !! "U".
Proof.
  split.
  - apply (BiDict_delitem_keeps_the_inverse ex_table "va_var"). vm_compute. reflexivity.
  - destruct (proj2 (BiDict_delitem_keeps_the_inverse ex_table "prc_var")
                ex_table_consistent "PRECT") as (bd' & Hrun & Hc & _ & _ & Hother).
    + vm_compute. reflexivity.
    + exists bd'. split; [exact Hrun|]. split; [exact Hc|]. by apply Hother.
Defined.

Lemma unknown_names_on_the_example :
  VariableTranslator.toCF ex_translator "GFDL" "U"
    = inl (AssertionError "Variable name translation doesn't recognize GFDL.") ∧
  VariableTranslator.toCF ex_translator "CESM" "V" = inl (KeyError "V") ∧
  VariableTranslator.fromCF ex_translator "CAM" "va_var" = inl (KeyError "va_var").
Proof.
  destruct (translation_edges ex_translator "GFDL" "U") as (_ & _ & Hunknown & _).
  destruct (translation_edges ex_translator "CESM" "V") as (_ & _ & _ & Hto).
  destruct (translation_edges ex_translator "CAM" "va_var") as (_ & _ & _ & Hfrom).
  split; [|split].
  - apply Hunknown; [discriminate|vm_compute; reflexivity].
  - apply (Hto ex_table); [discriminate|vm_compute; reflexivity|vm_compute; reflexivity].
  - apply (Hfrom ex_table); [discriminate|vm_compute; reflexivity|vm_compute; reflexivity].
Defined.

Lemma conda_environment_on_the_example :
  Diagnostic.env (conda_set_pod_env ex_skipped_pod) = "_MDTF-diagnostics-NCL".
Proof.
  apply (conda_environment_of_a_job ex_skipped_pod).
  - simpl. rewrite !elem_of_cons. intros [[H|H]|[H|H]]; try discriminate H;
      by apply elem_of_nil in H.
  - simpl. apply list_elem_of_here.
Defined.

End instances_edges.
